(** * Image enhancement, resource budgeting and order inference

    A shallow embedding of the browser-side image-to-PDF tool's core:
    - [ImageEnhancerCore]   (js/imageEnhancerCore.js)
    - [ImageEnhancerMobile] (js/imageProcessor.js, second class)
    - [PerformanceMonitor]  (js/performanceMonitor.js)
    - [MemoryManager] and [OrderDetector] (unnamed parts 002 and 005)
    - [ImageProcessor]      (js/imageProcessor.js, first class)
    - [FileHandler]         (js/fileHandler.js)
    - [ImageEnhancer]       (unnamed part 003)
    - [PDFGenerator] and [FilenameManager] (unnamed part 005)

    Modelling conventions.
    - A JavaScript Number is an exact rational ([Q]) or [NaN]; the
      rounding of IEEE doubles is abstracted.  Every concrete evaluation
      below that is used as evidence runs on values that doubles
      represent exactly or rounds far away from a tie.  Where the exact
      value of a filter can lie half way between two bytes, the stored
      byte is stated with [storedAs], which admits either neighbour.
    - A [Uint8ClampedArray] is a [list Z] of bytes; a read out of range
      yields [undefined] ([None]), a write out of range is dropped, and a
      stored value goes through [ToUint8Clamp].
    - The 2D context is passed explicitly: every routine takes the canvas
      and returns the updated canvas.  DOM exceptions are [None].  The
      canvas is its RGBA byte buffer; the contexts are the opaque ones of
      [createOptimizedCanvas] ([alpha: false]): [getImageData] reads the
      colour bytes as they are and alpha as 255, [putImageData] writes the
      colour bytes as they are and leaves alpha alone (no colour space).
    - Asynchronous code is run to completion in program order; what a
      batch reads from its surroundings while it runs (heap readings,
      monitor state, settings) is an explicit input indexed by the item or
      chunk that reads it. *)

From Stdlib Require Import ZArith QArith Qround Lia Lqa String Ascii.
From stdpp Require Import base option list strings gmap.

Local Open Scope Z_scope.

(** ** JavaScript numbers *)

Module JS.

Inductive num : Type :=
| NaN
| Num (q : Q).

Definition mul (a b : num) : num :=
  match a, b with
  | Num x, Num y => Num (x * y)
  | _, _ => NaN
  end.

Definition add (a b : num) : num :=
  match a, b with
  | Num x, Num y => Num (x + y)
  | _, _ => NaN
  end.

Definition sub (a b : num) : num :=
  match a, b with
  | Num x, Num y => Num (x - y)
  | _, _ => NaN
  end.

(** Division.  The divisors met in the code modelled are never zero (the
    constant 255 and [f * (f + 1) + 1]); a zero divisor, which would give
    an infinity, is mapped to [NaN]. *)
Definition div (a b : num) : num :=
  match a, b with
  | Num x, Num y => if Qeq_bool y 0 then NaN else Num (x / y)
  | _, _ => NaN
  end.

Definition Qlt_bool (x y : Q) : bool := negb (Qle_bool y x).

(** [Math.min] and [Math.max] on two arguments: [NaN] is contagious. *)
Definition Math_min (a b : num) : num :=
  match a, b with
  | Num x, Num y => Num (if Qle_bool x y then x else y)
  | _, _ => NaN
  end.

Definition Math_max (a b : num) : num :=
  match a, b with
  | Num x, Num y => Num (if Qle_bool x y then y else x)
  | _, _ => NaN
  end.

(** The conversion applied by a store into a [Uint8ClampedArray]
    (ECMAScript ToUint8Clamp): NaN becomes 0, the value is clamped to
    [0,255] and rounded to the nearest integer, ties to even. *)
Definition ToUint8Clamp (v : num) : Z :=
  match v with
  | NaN => 0
  | Num q =>
      if Qle_bool q 0%Q then 0
      else if Qle_bool 255%Q q then 255
      else
        let f := Qfloor q in
        if Qlt_bool (inject_Z f + (1 # 2))%Q q then f + 1
        else if Qlt_bool q (inject_Z f + (1 # 2))%Q then f
        else if Z.even f then f else f + 1
  end.

(** An array element read: [undefined] converts to [NaN] in arithmetic. *)
Definition ofElem (e : option Z) : num :=
  match e with
  | Some z => Num (inject_Z z)
  | None => NaN
  end.

Definition ofConst (e : option Q) : num :=
  match e with
  | Some q => Num q
  | None => NaN
  end.

(** Truthiness of a number: [NaN] and [0] are falsy. *)
Definition truthy (v : num) : bool :=
  match v with
  | NaN => false
  | Num q => negb (Qeq_bool q 0)
  end.

(** [a || b] on numbers. *)
Definition orElse (a b : num) : num := if truthy a then a else b.

(** [v || d] where [d] is a non-zero literal: the value is a number. *)
Definition orQ (v : num) (d : Q) : Q :=
  match v with
  | Num q => if Qeq_bool q 0 then d else q
  | NaN => d
  end.

(** The same for the result of [parseInt], an integer or [NaN]. *)
Definition orZ (v : option Z) (d : Z) : Z :=
  match v with
  | Some z => if z =? 0 then d else z
  | None => d
  end.

(** [a < b] and [a > b]: false when either side is [NaN]. *)
Definition lt (a b : num) : bool :=
  match a, b with
  | Num x, Num y => Qlt_bool x y
  | _, _ => false
  end.

Definition gt (a b : num) : bool := lt b a.

End JS.

(** ** Typed arrays and [for] loops *)

(** [a[i]] on a typed array. *)
Definition aget (a : list Z) (i : Z) : option Z :=
  if i <? 0 then None else a !! Z.to_nat i.

(** [a[i] = v] on a [Uint8ClampedArray]. *)
Definition aset (a : list Z) (i : Z) (v : JS.num) : list Z :=
  if i <? 0 then a else <[Z.to_nat i := JS.ToUint8Clamp v]> a.

(** [kernel[i]] on a plain array of numbers. *)
Definition kget (k : list Q) (i : Z) : option Q :=
  if i <? 0 then None else k !! Z.to_nat i.

(** [for (let i = lo; i < hi; i++) body]. *)
Definition forZ {S : Type} (lo hi : Z) (body : Z → S → S) (s : S) : S :=
  foldl (fun s i => body i s) s (seqZ lo (hi - lo)).

(** A loop whose body may raise: the first exception ends the loop. *)
Definition forInM {S : Type} (l : list Z) (body : Z → S → option S) (s : S)
    : option S :=
  foldl (fun acc i => s ← acc; body i s) (Some s) l.

(** The values taken by [i] in [for (let i = lo; i < hi; i += step)],
    for a positive [step]. *)
Definition stepsZ (lo hi step : Z) : list Z :=
  (fun k => lo + k * step) <$> seqZ 0 ((hi - lo + step - 1) `div` step).

(** ** The canvas and its pixel transfer primitives *)

Record Canvas : Type := mkCanvas {
  cwidth : Z;
  cheight : Z;
  pixels : list Z
}.

Record ImageData : Type := mkImageData {
  iwidth : Z;
  iheight : Z;
  idata : list Z
}.

(** Byte [k] of the canvas pixel at column [X], row [Y]; transparent
    black outside the canvas. *)
Definition canvasByte (c : Canvas) (X Y k : Z) : Z :=
  if (0 <=? X) && (X <? cwidth c) && (0 <=? Y) && (Y <? cheight c)
  then default 0 (pixels c !! Z.to_nat ((Y * cwidth c + X) * 4 + k))
  else 0.

(** What a read of the context gives for byte [k] of the pixel at
    ([X], [Y]).  Every context whose pixels the program reads is made by
    [createOptimizedCanvas] with [alpha: false]: such a context is opaque,
    so inside the canvas alpha reads as 255 whatever was written; outside
    the canvas a read gives transparent black. *)
Definition readByte (c : Canvas) (X Y k : Z) : Z :=
  if k =? 3
  then if (0 <=? X) && (X <? cwidth c) && (0 <=? Y) && (Y <? cheight c) then 255 else 0
  else canvasByte c X Y k.

(** [ctx.getImageData(sx, sy, sw, sh)]: a copy of the rectangle as the
    context reads it.  An empty rectangle raises IndexSizeError. *)
Definition getImageData (c : Canvas) (sx sy sw sh : Z) : option ImageData :=
  if (0 <? sw) && (0 <? sh) then
    Some (mkImageData sw sh
            ((fun p => readByte c (sx + (p `div` 4) `mod` sw)
                                  (sy + (p `div` 4) `div` sw) (p `mod` 4))
               <$> seqZ 0 (4 * sw * sh)))
  else None.

(** [ctx.createImageData(sw, sh)]: transparent black. *)
Definition createImageData (sw sh : Z) : option ImageData :=
  if (0 <? sw) && (0 <? sh) then
    Some (mkImageData sw sh (replicate (Z.to_nat (4 * sw * sh)) 0))
  else None.

(** [new ImageData(data, sw, sh)]: the buffer must hold exactly
    [4 * sw * sh] bytes. *)
Definition newImageData (data : list Z) (sw sh : Z) : option ImageData :=
  if (0 <? sw) && (0 <? sh) && (Z.of_nat (length data) =? 4 * sw * sh)
  then Some (mkImageData sw sh data)
  else None.

(** [ctx.putImageData(img, dx, dy)]: the colour bytes of the rectangle
    are written back, clipped to the canvas; the alpha bytes of the data
    are ignored, the context being opaque. *)
Definition putImageData (c : Canvas) (img : ImageData) (dx dy : Z) : Canvas :=
  mkCanvas (cwidth c) (cheight c)
    (imap (fun p old =>
             let P := Z.of_nat p in
             let X := (P `div` 4) `mod` cwidth c in
             let Y := (P `div` 4) `div` cwidth c in
             let k := P `mod` 4 in
             if (dx <=? X) && (X <? dx + iwidth img)
                && (dy <=? Y) && (Y <? dy + iheight img)
                && (k <? 3)
             then default old
                    (idata img !! Z.to_nat
                       (((Y - dy) * iwidth img + (X - dx)) * 4 + k))
             else old)
          (pixels c)).

(** ** The host platform

    Decoding, drawing and encoding are the browser's: [decodeImage] is the
    load of an [Image] from a data URL ([None] fires [onerror]),
    [drawImage] paints the decoded image on a fresh canvas of the given
    size, and [toDataURL] encodes the canvas at a quality. *)

Record Platform : Type := mkPlatform {
  decodeImage : string → option Canvas;
  drawImage : Canvas → Z → Z → Canvas;
  toDataURL : Canvas → Q → string
}.

(** [window.performance.memory], when the browser exposes it. *)
Record HeapInfo : Type := mkHeapInfo {
  usedJSHeapSize : Q;
  jsHeapSizeLimit : Q
}.

(** The object returned by [MemoryManager.getMemoryInfo], as far as it is
    read here; [usageRatio] is absent when the browser exposes no heap
    reading. *)
Record MemoryInfo : Type := mkMemoryInfo {
  isMobile : bool;
  deviceMemory : Q;
  usageRatio : option Q
}.

(** The result of a call that may throw. *)
Inductive outcome (A : Type) : Type :=
| Returned (a : A)
| Thrown (message : string).
Arguments Returned {A} a.
Arguments Thrown {A} message.

(** ** The working list *)

(** A file record as built by [FileHandler.createFileInfo]; [enhanced]
    and [enhancementLevel] are absent until a batch sets them. *)
Module File.

Record t : Type := mk {
  id : string;
  name : string;
  size : Z;
  type : string;
  lastModified : Z;
  imageData : string;
  dimensions : Z * Z;
  originalIndex : Z;
  enhanced : option bool;
  enhancementLevel : option Z
}.

(** [{ ...file, imageData: d, enhanced: true, enhancementLevel: level }]. *)
Definition withEnhancement (file : t) (d : string) (level : Z) : t :=
  mk (id file) (name file) (size file) (type file) (lastModified file)
    d (dimensions file) (originalIndex file) (Some true) (Some level).

End File.

(** What the modules read of [navigator] and [window] when they size up
    the device.  [userAgentIsMobile] is the outcome of the user-agent
    test; an absent property is [None]. *)
Record Connection : Type := mkConnection {
  effectiveType : option string
}.

Record Battery : Type := mkBattery {
  chargeLevel : Q;
  isCharging : bool
}.

Record Navigator : Type := mkNavigator {
  navDeviceMemory : option Q;
  navHardwareConcurrency : option Z;
  navConnection : option Connection;
  navBattery : option Battery;
  userAgentIsMobile : bool;
  innerWidth : Z;
  hasTouch : bool
}.

(** A property that is absent or [0] is falsy. *)
Definition truthyQ (v : option Q) : option Q :=
  match v with
  | Some q => if Qeq_bool q 0 then None else Some q
  | None => None
  end.

Definition truthyZ (v : option Z) : option Z :=
  match v with
  | Some z => if z =? 0 then None else Some z
  | None => None
  end.

(** ** MemoryManager *)

Module MemoryManager.

(** The limits fixed when the manager is constructed. *)
Record t : Type := mk {
  maxImageSize : Z;
  memoryThreshold : Q
}.

Definition getMaxImageSize (memory : Q) (isMobile : bool) : Z :=
  if isMobile then
    if Qle_bool memory 2 then 1024 * 1024
    else if Qle_bool memory 4 then 2048 * 1536
    else 2560 * 1920
  else
    if Qle_bool memory 4 then 2048 * 1536
    else if Qle_bool memory 8 then 3840 * 2160
    else 7680 * 4320.

Definition getMemoryThreshold (memory : Q) (isMobile : bool) : Q :=
  if isMobile then
    if Qle_bool memory 2 then 5 # 10 else if Qle_bool memory 4 then 6 # 10 else 7 # 10
  else
    if Qle_bool memory 4 then 6 # 10 else if Qle_bool memory 8 then 7 # 10 else 8 # 10.

(** [checkMemoryUsage]; the heap limit reported by a browser is positive. *)
Definition checkMemoryUsage (mm : t) (heap : option HeapInfo) : bool :=
  match heap with
  | None => false
  | Some memory =>
      let usedRatio := (usedJSHeapSize memory / jsHeapSizeLimit memory)%Q in
      if JS.Qlt_bool (memoryThreshold mm) usedRatio then false else true
  end.

Record OptimalSize : Type := mkOptimalSize {
  width : Z;
  height : Z;
  needsResize : bool
}.

(** [Math.floor(originalWidth * Math.sqrt(maxImageSize / pixels))] is
    computed exactly as the integer square root of
    [originalWidth^2 * maxImageSize / pixels]. *)
Definition getOptimalImageSize (mm : t) (originalWidth originalHeight : Z) : OptimalSize :=
  let pixels := originalWidth * originalHeight in
  if pixels <=? maxImageSize mm then mkOptimalSize originalWidth originalHeight false
  else
    let newWidth := Z.sqrt ((originalWidth * originalWidth * maxImageSize mm) `div` pixels) in
    let newHeight := Z.sqrt ((originalHeight * originalHeight * maxImageSize mm) `div` pixels) in
    mkOptimalSize newWidth newHeight true.

Section WithPlatform.
Variable pf : Platform.

Definition resizeImageSafely (imageDataUrl : string) (targetWidth targetHeight : Z)
    : option string :=
  img ← decodeImage pf imageDataUrl;
  Some (toDataURL pf (drawImage pf img targetWidth targetHeight) (9 # 10)).

Definition processImageSafely (mm : t) (heap : option HeapInfo) (imageDataUrl : string)
    (processor : string → OptimalSize → option string) : option string :=
  if negb (checkMemoryUsage mm heap) then None
  else
    img ← decodeImage pf imageDataUrl;
    let originalWidth := cwidth img in
    let originalHeight := cheight img in
    let optimalSize := getOptimalImageSize mm originalWidth originalHeight in
    processImageData ←
      (if needsResize optimalSize
       then resizeImageSafely imageDataUrl (width optimalSize) (height optimalSize)
       else Some imageDataUrl);
    processor processImageData optimalSize.
End WithPlatform.

Definition getMaxProcessingImages (memory : Q) (isMobile : bool) : Z :=
  if isMobile then
    if Qle_bool memory 2 then 1 else if Qle_bool memory 4 then 2 else 3
  else
    if Qle_bool memory 4 then 3 else if Qle_bool memory 8 then 5 else 10.

Definition isMobileDevice (nav : Navigator) : bool :=
  userAgentIsMobile nav || (innerWidth nav <=? 768).

Definition getDeviceMemory (nav : Navigator) : Q :=
  match truthyQ (navDeviceMemory nav) with
  | Some memory => memory
  | None =>
      match truthyZ (navHardwareConcurrency nav) with
      | Some cores =>
          if cores <=? 2 then 2
          else if cores <=? 4 then 4
          else if cores <=? 8 then 8
          else 16
      | None => if isMobileDevice nav then 2 else 4
      end
  end.

(** The constructor: the limits are fixed from the device as it is when
    the page loads. *)
Definition new (nav : Navigator) : t :=
  mk (getMaxImageSize (getDeviceMemory nav) (isMobileDevice nav))
     (getMemoryThreshold (getDeviceMemory nav) (isMobileDevice nav)).

(** [getMemoryInfo], as far as [MemoryInfo] records it. *)
Definition getMemoryInfo (nav : Navigator) (heap : option HeapInfo) : MemoryInfo :=
  mkMemoryInfo (isMobileDevice nav) (getDeviceMemory nav)
    ((fun memory => (usedJSHeapSize memory / jsHeapSizeLimit memory)%Q) <$> heap).

Definition canProcessImage (mm : t) (width height : Z) : bool :=
  let pixels := width * height in
  pixels <=? maxImageSize mm.

Definition estimateMemoryUsage (width height channels : Z) : Z :=
  width * height * channels * 2.

(** [canProcessBatch]; every file record carries its [dimensions]. *)
Definition canProcessBatch (mm : t) (nav : Navigator) (files : list File.t) : bool :=
  let totalMemoryNeeded :=
    foldl (fun totalMemoryNeeded file =>
             let optimalSize :=
               getOptimalImageSize mm (fst (File.dimensions file))
                 (snd (File.dimensions file)) in
             totalMemoryNeeded
             + estimateMemoryUsage (width optimalSize) (height optimalSize) 4)
          0 files in
  let deviceMemoryBytes := (getDeviceMemory nav * 1024 * 1024 * 1024)%Q in
  let maxUsableMemory := (deviceMemoryBytes * memoryThreshold mm)%Q in
  Qle_bool (inject_Z totalMemoryNeeded) maxUsableMemory.

End MemoryManager.

(** ** PerformanceMonitor *)

Module PerformanceMonitor.

(** The fields read by the routines below: [performanceData.fps] (absent
    until the first measurement) and the [errorCounts] object. *)
Record t : Type := mk {
  fps : option Q;
  errorCounts : gmap string Z
}.

Record PauseDecision : Type := mkPause {
  should : bool;
  reason : option string
}.

(** [Object.values(this.errorCounts).reduce((sum, count) => sum + count, 0)]. *)
Definition totalErrors (pm : t) : Z :=
  foldr Z.add 0 ((map_to_list (errorCounts pm)).*2).

(** A comparison with [undefined] on either side is false. *)
Definition gtOpt (a : option Q) (b : Q) : bool :=
  match a with Some x => JS.Qlt_bool b x | None => false end.
Definition ltOpt (a : option Q) (b : Q) : bool :=
  match a with Some x => JS.Qlt_bool x b | None => false end.
Definition leOpt (a : option Q) (b : Q) : bool :=
  match a with Some x => Qle_bool x b | None => false end.

Definition shouldPauseProcessing (pm : t) (memoryInfo : option MemoryInfo) : PauseDecision :=
  if gtOpt (memoryInfo ≫= usageRatio) (9 # 10) then mkPause true (Some "memory_critical"%string)
  else if ltOpt (fps pm) 10 then mkPause true (Some "fps_critical"%string)
  else
    let recentErrors := totalErrors pm in
    if 5 <? recentErrors then mkPause true (Some "errors_critical"%string)
    else mkPause false None.

Record Optimization : Type := mkOptimization {
  maxConcurrentProcessing : Z;
  recommendedEnhancementLevel : Z;
  shouldResizeImages : bool;
  batchSize : Z
}.

Definition optimizeForDevice (memoryInfo : option MemoryInfo) : Optimization :=
  if from_option isMobile false memoryInfo then
    if leOpt (deviceMemory <$> memoryInfo) 2 then mkOptimization 1 0 true 1
    else if leOpt (deviceMemory <$> memoryInfo) 4 then mkOptimization 1 1 false 2
    else mkOptimization 2 2 false 3
  else
    if leOpt (deviceMemory <$> memoryInfo) 4 then mkOptimization 2 2 false 3
    else mkOptimization 3 3 false 5.

(** The three places that report an error: the window's [error] and
    [unhandledrejection] listeners and [measureTaskPerformance]. *)
Inductive ErrorSource : Type := javascript | promise | task.

Definition sourceName (type : ErrorSource) : string :=
  match type with
  | javascript => "javascript"%string
  | promise => "promise"%string
  | task => "task"%string
  end.

(** [`${type}_${error?.message || 'unknown'}`]: an absent and an empty
    message both give ['unknown']. *)
Definition errorKey (type : ErrorSource) (message : option string) : string :=
  (sourceName type +:+ "_" +:+
   match message with
   | Some m => if String.eqb m "" then "unknown" else m
   | None => "unknown"
   end)%string.

(** [recordError]: the updated monitor, and whether
    [handlePerformanceIssue('frequent_errors', ...)] was called. *)
Definition recordError (pm : t) (type : ErrorSource) (message : option string)
    : t * bool :=
  let errorKey := errorKey type message in
  let count := default 0 (errorCounts pm !! errorKey) + 1 in
  (mk (fps pm) (<[errorKey := count]> (errorCounts pm)), 3 <=? count).

(** [reset]: [performanceData] becomes an empty object, so [fps] is
    absent again. *)
Definition reset (pm : t) : t := mk None ∅.

(** [getAverageProcessingTime] over the durations of [processingTimes]. *)
Definition getAverageProcessingTime (durations : list Q) : Q :=
  if (length durations =? 0)%nat then 0%Q
  else
    let total := foldl (fun sum duration => (sum + duration)%Q) 0%Q durations in
    (total / inject_Z (Z.of_nat (length durations)))%Q.

Inductive Recommendation : Type :=
| processing_time
| memory_usage
| mobile_optimization
| error_frequency.

(** [getPerformanceRecommendations]: the [type] of each entry, in order. *)
Definition getPerformanceRecommendations (pm : t) (durations : list Q)
    (memoryInfo : option MemoryInfo) : list Recommendation :=
  let avgTime := getAverageProcessingTime durations in
  let recommendations := [] in
  let recommendations :=
    if JS.Qlt_bool 5000 avgTime then recommendations ++ [processing_time]
    else recommendations in
  let recommendations :=
    if gtOpt (memoryInfo ≫= usageRatio) (7 # 10) then recommendations ++ [memory_usage]
    else recommendations in
  let recommendations :=
    if from_option isMobile false memoryInfo
    then recommendations ++ [mobile_optimization]
    else recommendations in
  let errorCount := totalErrors pm in
  if 2 <? errorCount then recommendations ++ [error_frequency]
  else recommendations.

End PerformanceMonitor.

(** [files.slice(i, j)] for [0 <= i <= j]. *)
Definition slice {A : Type} (l : list A) (i j : Z) : list A :=
  take (Z.to_nat (j - i)) (drop (Z.to_nat i) l).

(** What a batch observes of its surroundings while it runs: the heap
    reading taken when item [i] starts, and the monitor state and memory
    information read by the check that follows the chunk starting at [i]. *)
Record Timeline : Type := mkTimeline {
  heapAtItem : Z → option HeapInfo;
  monitorAfterChunk : Z → PerformanceMonitor.t;
  memoryInfoAfterChunk : Z → option MemoryInfo
}.

(** A progress callback: [None] when the caller passes none; a call that
    returns [None] has thrown. *)
Definition ProgressCallback : Type := option (Z → Z → string → option unit).

Definition callProgress (cb : ProgressCallback) (current total : Z) (filename : string)
    : option unit :=
  match cb with
  | None => Some tt
  | Some f => f current total filename
  end.

(** ** ImageEnhancerCore *)

Module ImageEnhancerCore.

(** [this.enhancementLevels[level].strength]; [None] when the level is
    not a key of the table (the property read then throws). *)
Definition enhancementLevels (level : Z) : option Q :=
  if level =? 0 then Some 0%Q
  else if level =? 1 then Some (3 # 10)%Q
  else if level =? 2 then Some (6 # 10)%Q
  else if level =? 3 then Some 1%Q
  else None.

(** The kernel literal shared by both sharpening routines. *)
Definition sharpenKernel (strength : Q) : list Q :=
  [ 0; -1 * strength; 0;
    -1 * strength; 1 + 4 * strength; -1 * strength;
    0; -1 * strength; 0 ]%Q.

(** The two innermost loops: the weighted sum over the 3x3 window. *)
Definition kernelSum (data : list Z) (kernel : list Q) (width y x c : Z) : JS.num :=
  forZ (-1) 2 (fun ky sum =>
    forZ (-1) 2 (fun kx sum =>
      let pos := ((y + ky) * width + (x + kx)) * 4 + c in
      let kernelPos := (ky + 1) * 3 + (kx + 1) in
      JS.add sum (JS.mul (JS.ofElem (aget data pos))
                         (JS.ofConst (kget kernel kernelPos)))) sum)
    (JS.Num 0).

(** The convolution loops of [applyHighQualitySharpening]. *)
Definition sharpenLoops (data : list Z) (kernel : list Q) (width height : Z)
    (newData : list Z) : list Z :=
  forZ 1 (height - 1) (fun y newData =>
    forZ 1 (width - 1) (fun x newData =>
      forZ 0 3 (fun c newData =>
        let sum := kernelSum data kernel width y x c in
        let pos := (y * width + x) * 4 + c in
        aset newData pos (JS.Math_max (JS.Num 0) (JS.Math_min (JS.Num 255) sum)))
      newData) newData) newData.

Definition applyHighQualitySharpening (ctx : Canvas) (width height : Z)
    (strength : Q) : option Canvas :=
  imageData ← getImageData ctx 0 0 width height;
  let data := idata imageData in
  let newData := data in
  let kernel := sharpenKernel strength in
  let newData := sharpenLoops data kernel width height newData in
  newImage ← newImageData newData width height;
  Some (putImageData ctx newImage 0 0).

(** The convolution loops of [processImageBlock], over the block copy. *)
Definition blockLoops (data : list Z) (kernel : list Q) (w h padding : Z)
    (newData : list Z) : list Z :=
  forZ padding (h - padding) (fun blockY newData =>
    forZ padding (w - padding) (fun blockX newData =>
      forZ 0 3 (fun c newData =>
        let sum := kernelSum data kernel w blockY blockX c in
        let pos := (blockY * w + blockX) * 4 + c in
        aset newData pos (JS.Math_max (JS.Num 0) (JS.Math_min (JS.Num 255) sum)))
      newData) newData) newData.

(** The copy of the block centre into [centerArray]. *)
Definition centerLoops (data newData : list Z) (w blockWidth blockHeight padding : Z)
    (centerArray : list Z) : list Z :=
  forZ 0 blockHeight (fun py centerArray =>
    forZ 0 blockWidth (fun px centerArray =>
      let srcPos := ((py + padding) * w + (px + padding)) * 4 in
      let dstPos := (py * blockWidth + px) * 4 in
      let centerArray := aset centerArray dstPos (JS.ofElem (aget newData srcPos)) in
      let centerArray := aset centerArray (dstPos + 1) (JS.ofElem (aget newData (srcPos + 1))) in
      let centerArray := aset centerArray (dstPos + 2) (JS.ofElem (aget newData (srcPos + 2))) in
      let centerArray := aset centerArray (dstPos + 3) (JS.ofElem (aget data (srcPos + 3))) in
      centerArray) centerArray) centerArray.

Definition processImageBlock (ctx : Canvas) (startX startY blockWidth blockHeight : Z)
    (strength : Q) : option Canvas :=
  let padding := 1 in
  let x := Z.max 0 (startX - padding) in
  let y := Z.max 0 (startY - padding) in
  let w := Z.min (cwidth ctx - x) (blockWidth + 2 * padding) in
  let h := Z.min (cheight ctx - y) (blockHeight + 2 * padding) in
  imageData ← getImageData ctx x y w h;
  let data := idata imageData in
  let newData := data in
  let kernel := sharpenKernel strength in
  let newData := blockLoops data kernel w h padding newData in
  centerData ← createImageData blockWidth blockHeight;
  let centerArray := idata centerData in
  let centerArray := centerLoops data newData w blockWidth blockHeight padding centerArray in
  Some (putImageData ctx (mkImageData (iwidth centerData) (iheight centerData) centerArray)
          startX startY).

Definition applyOptimizedSharpening (ctx : Canvas) (width height : Z) (strength : Q)
    : option Canvas :=
  let blockSize := 512 in
  forInM (stepsZ 0 height blockSize) (fun startY ctx =>
    forInM (stepsZ 0 width blockSize) (fun startX ctx =>
      let blockWidth := Z.min blockSize (width - startX) in
      let blockHeight := Z.min blockSize (height - startY) in
      processImageBlock ctx startX startY blockWidth blockHeight strength) ctx) ctx.

(** [contrast] as computed at the head of [enhanceBlockContrast]. *)
Definition contrastCoefficient (factor : Q) : Q :=
  ((factor + 1) * (factor + 1) / (factor * (factor + 1) + 1))%Q.

(** The loops of [enhanceBlockContrast]; [data] is updated in place. *)
Definition contrastLoops (contrast : Q) (data : list Z) : list Z :=
  foldl (fun data i =>
    forZ 0 3 (fun c data =>
      let value := JS.div (JS.ofElem (aget data (i + c))) (JS.Num 255) in
      let value := JS.add (JS.mul (JS.sub value (JS.Num (1 # 2))) (JS.Num contrast))
                          (JS.Num (1 # 2)) in
      aset data (i + c)
        (JS.Math_max (JS.Num 0) (JS.Math_min (JS.Num 255) (JS.mul value (JS.Num 255)))))
      data)
    data (stepsZ 0 (Z.of_nat (length data)) 4).

Definition enhanceBlockContrast (ctx : Canvas) (startX startY blockWidth blockHeight : Z)
    (factor : Q) : option Canvas :=
  imageData ← getImageData ctx startX startY blockWidth blockHeight;
  let data := idata imageData in
  let contrast := contrastCoefficient factor in
  let data := contrastLoops contrast data in
  Some (putImageData ctx (mkImageData (iwidth imageData) (iheight imageData) data)
          startX startY).

Definition applyContrastEnhancement (ctx : Canvas) (width height : Z) (factor : Q)
    : option Canvas :=
  let blockSize := 1024 in
  forInM (stepsZ 0 height blockSize) (fun startY ctx =>
    forInM (stepsZ 0 width blockSize) (fun startX ctx =>
      let blockWidth := Z.min blockSize (width - startX) in
      let blockHeight := Z.min blockSize (height - startY) in
      enhanceBlockContrast ctx startX startY blockWidth blockHeight factor) ctx) ctx.

Definition applyOptimizedEnhancement (ctx : Canvas) (width height level : Z)
    : option Canvas :=
  strength ← enhancementLevels level;
  if Qeq_bool strength 0 then Some ctx
  else
    ctx ← (if width * height <? 1024 * 1024
           then applyHighQualitySharpening ctx width height strength
           else applyOptimizedSharpening ctx width height strength);
    if JS.Qlt_bool (6 # 10) strength
    then applyContrastEnhancement ctx width height ((strength - (6 # 10)) * (1 # 2))%Q
    else Some ctx.

Section WithPlatform.
Variable pf : Platform.
Variable mm : MemoryManager.t.

Definition performEnhancement (imageDataUrl : string) (level : Z)
    (sizeInfo : MemoryManager.OptimalSize) : option string :=
  img ← decodeImage pf imageDataUrl;
  let canvas := drawImage pf img (cwidth img) (cheight img) in
  ctx ← applyOptimizedEnhancement canvas (cwidth canvas) (cheight canvas) level;
  Some (toDataURL pf ctx (92 # 100)).

Definition enhanceImageSafely (heap : option HeapInfo) (imageDataUrl : string)
    (level : Z) : option string :=
  if level =? 0 then Some imageDataUrl
  else
    MemoryManager.processImageSafely pf mm heap imageDataUrl
      (fun processImageData optimalSize =>
         performEnhancement processImageData level optimalSize).

(** The body of the [batch.map] callback, with its [try]/[catch]. *)
Definition enhanceBatchItem (tl : Timeline) (total level : Z) (cb : ProgressCallback)
    (i : Z) (index : nat) (file : File.t) : File.t :=
  let globalIndex := i + Z.of_nat index in
  match
    callProgress cb globalIndex total (File.name file) ≫= fun _ =>
    enhanceImageSafely (heapAtItem tl globalIndex) (File.imageData file) level
  with
  | Some enhancedImageData => File.withEnhancement file enhancedImageData level
  | None => file
  end.

Definition enhanceImagesBatch (tl : Timeline) (memoryInfo : option MemoryInfo)
    (files : list File.t) (level : Z) (progressCallback : ProgressCallback)
    : outcome (list File.t) :=
  if level =? 0 then Returned files
  else
    let batchSize :=
      PerformanceMonitor.batchSize (PerformanceMonitor.optimizeForDevice memoryInfo) in
    let total := Z.of_nat (length files) in
    foldl (fun acc i =>
      match acc with
      | Thrown message => Thrown message
      | Returned enhancedFiles =>
          let batch := slice files i (i + batchSize) in
          let batchResults :=
            imap (enhanceBatchItem tl total level progressCallback i) batch in
          let enhancedFiles := enhancedFiles ++ batchResults in
          let shouldPause :=
            PerformanceMonitor.shouldPauseProcessing
              (monitorAfterChunk tl i) (memoryInfoAfterChunk tl i) in
          if PerformanceMonitor.should shouldPause
          then Thrown ("处理暂停: " +:+
                         default "undefined" (PerformanceMonitor.reason shouldPause))
          else Returned enhancedFiles
      end)
    (Returned []) (stepsZ 0 total batchSize).
End WithPlatform.

(** *** The preview variant *)

(** The kernel literal of [applyPreviewEnhancement]. *)
Definition previewKernel (strength : Q) : list Q :=
  [ -(1 # 10) * strength; -(3 # 10) * strength; -(1 # 10) * strength;
    -(3 # 10) * strength; 1 + (16 # 10) * strength; -(3 # 10) * strength;
    -(1 # 10) * strength; -(3 # 10) * strength; -(1 # 10) * strength ]%Q.

(** Its two innermost loops, which count [ky] and [kx] from 0. *)
Definition previewSum (data : list Z) (kernel : list Q) (width y x c : Z) : JS.num :=
  forZ 0 3 (fun ky sum =>
    forZ 0 3 (fun kx sum =>
      let pos := ((y + ky - 1) * width + (x + kx - 1)) * 4 + c in
      JS.add sum (JS.mul (JS.ofElem (aget data pos))
                         (JS.ofConst (kget kernel (ky * 3 + kx))))) sum)
    (JS.Num 0).

Definition previewLoops (data : list Z) (kernel : list Q) (width height : Z)
    (newData : list Z) : list Z :=
  forZ 1 (height - 1) (fun y newData =>
    forZ 1 (width - 1) (fun x newData =>
      forZ 0 3 (fun c newData =>
        let sum := previewSum data kernel width y x c in
        let pos := (y * width + x) * 4 + c in
        aset newData pos (JS.Math_max (JS.Num 0) (JS.Math_min (JS.Num 255) sum)))
      newData) newData) newData.

Definition applyPreviewEnhancement (ctx : Canvas) (width height level : Z)
    : option Canvas :=
  levelStrength ← enhancementLevels level;
  let strength := (levelStrength * (7 # 10))%Q in
  if Qeq_bool strength 0 then Some ctx
  else
    imageData ← getImageData ctx 0 0 width height;
    let data := idata imageData in
    let newData := data in
    let kernel := previewKernel strength in
    let newData := previewLoops data kernel width height newData in
    newImage ← newImageData newData width height;
    Some (putImageData ctx newImage 0 0).

(** [Math.min(maxPreviewSize / naturalWidth, maxPreviewSize / naturalHeight, 1)];
    a decoded image has positive dimensions. *)
Definition previewScale (naturalWidth naturalHeight : Z) : Q :=
  let maxPreviewSize := 300%Q in
  let min (a b : Q) := if Qle_bool a b then a else b in
  min (min (maxPreviewSize / inject_Z naturalWidth)%Q
           (maxPreviewSize / inject_Z naturalHeight)%Q) 1%Q.

Definition createPreviewEnhancement (pf : Platform) (imageDataUrl : string) (level : Z)
    : option string :=
  if level =? 0 then Some imageDataUrl
  else
    img ← decodeImage pf imageDataUrl;
    let scale := previewScale (cwidth img) (cheight img) in
    let previewWidth := Qfloor (inject_Z (cwidth img) * scale) in
    let previewHeight := Qfloor (inject_Z (cheight img) * scale) in
    let canvas := drawImage pf img previewWidth previewHeight in
    ctx ← applyPreviewEnhancement canvas previewWidth previewHeight level;
    Some (toDataURL pf ctx (8 # 10)).

End ImageEnhancerCore.

(** ** ImageEnhancerMobile *)

Module ImageEnhancerMobile.

Inductive Capability : Type := low | medium | high.

Record Settings : Type := mkSettings {
  maxImageSize : Z;
  maxBatchSize : Z;
  processingDelay : Z;
  qualityReduction : Q;
  enableProgressiveProcessing : bool;
  enableMemoryMonitoring : bool
}.

Definition getOptimizationSettings (level : Capability) : Settings :=
  let settings := mkSettings (2048 * 1536) 1 200 (1 # 10) true true in
  match level with
  | low =>
      mkSettings (1024 * 768) 1 500 (2 # 10)
        (enableProgressiveProcessing settings) (enableMemoryMonitoring settings)
  | medium =>
      mkSettings (1920 * 1080) 1 200 (1 # 10)
        (enableProgressiveProcessing settings) (enableMemoryMonitoring settings)
  | high =>
      mkSettings (2560 * 1920) 2 100 (5 # 100)
        (enableProgressiveProcessing settings) (enableMemoryMonitoring settings)
  end.

Definition setDelay (s : Settings) (d : Z) : Settings :=
  mkSettings (maxImageSize s) (maxBatchSize s) d (qualityReduction s)
    (enableProgressiveProcessing s) (enableMemoryMonitoring s).

Definition setBatch (s : Settings) (b : Z) : Settings :=
  mkSettings (maxImageSize s) b (processingDelay s) (qualityReduction s)
    (enableProgressiveProcessing s) (enableMemoryMonitoring s).

Definition adjustForBatteryLevel (deviceCapability : Capability) (s : Settings)
    (level : Q) : Settings :=
  if JS.Qlt_bool level (2 # 10) then setBatch (setDelay s 1000) 1
  else if JS.Qlt_bool level (5 # 10) then setBatch (setDelay s 500) 1
  else setBatch (setDelay s 200)
         (match deviceCapability with high => 2 | _ => 1 end).

Definition adjustForChargingState (s : Settings) (isCharging : bool) : Settings :=
  if isCharging then setDelay s (Z.max 100 (processingDelay s - 100))
  else setDelay s (processingDelay s + 100).

(** The initial battery pass of [setupBatteryOptimizations]. *)
Definition initialBatteryOptimization (deviceCapability : Capability) (s : Settings)
    (batteryLevel : Q) (batteryCharging : bool) : Settings :=
  adjustForChargingState (adjustForBatteryLevel deviceCapability s batteryLevel)
    batteryCharging.

(** [strengths[level] || 0.2]: an absent entry and the falsy entry [0]
    both give the right operand. *)
Definition orElse (v : option Q) (d : Q) : Q :=
  match v with
  | Some q => if Qeq_bool q 0 then d else q
  | None => d
  end.

Definition lightweightStrength (level : Z) : Q :=
  let strengths := [0; 2 # 10; 4 # 10; 6 # 10]%Q in
  orElse (kget strengths level) (2 # 10).

Definition applyCPUSharpening (ctx : Canvas) (width height : Z) (strength : Q)
    : option Canvas :=
  imageData ← getImageData ctx 0 0 width height;
  let data := idata imageData in
  let output := data in
  let center := JS.Num (1 + 4 * strength) in
  let edge := JS.Num (- strength) in
  let output :=
    forZ 1 (height - 1) (fun y output =>
      forZ 1 (width - 1) (fun x output =>
        forZ 0 3 (fun c output =>
          let pos := (y * width + x) * 4 + c in
          let value :=
            JS.add (JS.add (JS.add (JS.add
              (JS.mul (JS.ofElem (aget data pos)) center)
              (JS.mul (JS.ofElem (aget data (pos - 4))) edge))
              (JS.mul (JS.ofElem (aget data (pos + 4))) edge))
              (JS.mul (JS.ofElem (aget data (pos - width * 4))) edge))
              (JS.mul (JS.ofElem (aget data (pos + width * 4))) edge) in
          aset output pos (JS.Math_max (JS.Num 0) (JS.Math_min (JS.Num 255) value)))
        output) output) output in
  outputImageData ← newImageData output width height;
  Some (putImageData ctx outputImageData 0 0).

Definition applyWebGLSharpening (ctx : Canvas) (width height : Z) (strength : Q)
    : option Canvas :=
  applyCPUSharpening ctx width height strength.

Definition applyLightweightSharpening (canUseWebGL : bool) (ctx : Canvas)
    (width height level : Z) : option Canvas :=
  let strength := lightweightStrength level in
  if Qeq_bool strength 0 then Some ctx
  else if canUseWebGL then applyWebGLSharpening ctx width height strength
  else applyCPUSharpening ctx width height strength.

Definition calculateOptimalSize (originalWidth originalHeight maxSize : Z)
    : MemoryManager.OptimalSize :=
  let pixels := originalWidth * originalHeight in
  if pixels <=? maxSize
  then MemoryManager.mkOptimalSize originalWidth originalHeight false
  else
    MemoryManager.mkOptimalSize
      (Z.sqrt ((originalWidth * originalWidth * maxSize) `div` pixels))
      (Z.sqrt ((originalHeight * originalHeight * maxSize) `div` pixels))
      true.

Section WithPlatform.
Variable pf : Platform.
Variable canUseWebGL : bool.

Definition optimizeImageForMobile (s : Settings) (imageDataUrl : string)
    (targetSize : Z) : option string :=
  img ← decodeImage pf imageDataUrl;
  let sz := calculateOptimalSize (cwidth img) (cheight img) targetSize in
  if negb (MemoryManager.needsResize sz) then Some imageDataUrl
  else
    let canvas := drawImage pf img (MemoryManager.width sz) (MemoryManager.height sz) in
    let quality := ((85 # 100) - qualityReduction s)%Q in
    Some (toDataURL pf canvas quality).

Definition applyMobileFriendlyEnhancement (s : Settings) (imageDataUrl : string)
    (level : Z) : option string :=
  img ← decodeImage pf imageDataUrl;
  let canvas := drawImage pf img (cwidth img) (cheight img) in
  ctx ← applyLightweightSharpening canUseWebGL canvas (cwidth canvas) (cheight canvas) level;
  let quality := ((88 # 100) - qualityReduction s)%Q in
  Some (toDataURL pf ctx quality).

Definition enhanceImageMobile (s : Settings) (imageDataUrl : string) (level : Z)
    : option string :=
  if level =? 0 then Some imageDataUrl
  else
    optimizedImage ← optimizeImageForMobile s imageDataUrl (maxImageSize s);
    applyMobileFriendlyEnhancement s optimizedImage level.

(** [processBatchMobile]; [settingsAt i] is [this.optimizationSettings]
    as it stands when item [i] is processed.  The wait on
    [shouldPauseForDevice] only delays the loop, and [files[i]] is
    always an element of the list. *)
Definition processBatchMobile (settingsAt : Z → Settings) (files : list File.t)
    (level : Z) (progressCallback : ProgressCallback) : list File.t :=
  let total := Z.of_nat (length files) in
  foldl (fun results i =>
    match files !! Z.to_nat i with
    | None => results
    | Some file =>
        match
          callProgress progressCallback i total (File.name file) ≫= fun _ =>
          enhanceImageMobile (settingsAt i) (File.imageData file) level
        with
        | Some enhancedImage =>
            results ++ [File.withEnhancement file enhancedImage level]
        | None => results ++ [file]
        end
    end)
  [] (seqZ 0 total).
End WithPlatform.

(** *** Sizing up the device *)

Definition detectMobileDevice (nav : Navigator) : bool :=
  let isMobileUA := userAgentIsMobile nav in
  let isSmallScreen := innerWidth nav <=? 768 in
  let isTouchDevice := hasTouch nav in
  isMobileUA || isSmallScreen || isTouchDevice.

(** [connection.effectiveType === name]. *)
Definition effectiveTypeIs (connection : option Connection) (name : string) : bool :=
  match connection ≫= effectiveType with
  | Some effectiveType => String.eqb effectiveType name
  | None => false
  end.

Record DeviceCapability : Type := mkDeviceCapability {
  capabilityLevel : Capability;
  capabilityMemory : Q;
  capabilityCores : Z
}.

Definition assessDeviceCapability (isMobile : bool) (nav : Navigator) : DeviceCapability :=
  let memory := default (if isMobile then 2 else 4)%Q (truthyQ (navDeviceMemory nav)) in
  let cores := default (if isMobile then 4 else 8) (truthyZ (navHardwareConcurrency nav)) in
  let connection := navConnection nav in
  let capability :=
    if isMobile then
      if Qle_bool memory 2 && (cores <=? 4) then low
      else if Qle_bool memory 4 && (cores <=? 6) then medium
      else high
    else
      if Qle_bool memory 4 then medium else high in
  let capability :=
    if effectiveTypeIs connection "slow-2g" || effectiveTypeIs connection "2g"
    then low else capability in
  mkDeviceCapability capability memory cores.

Definition setNetwork (s : Settings) (q : Q) (m : Z) : Settings :=
  mkSettings m (maxBatchSize s) (processingDelay s) q
    (enableProgressiveProcessing s) (enableMemoryMonitoring s).

Definition adjustForNetworkChange (s : Settings) (connection : option Connection)
    : Settings :=
  match connection with
  | None => s
  | Some _ =>
      if effectiveTypeIs connection "slow-2g" || effectiveTypeIs connection "2g"
      then setNetwork s (3 # 10) (1024 * 768)
      else if effectiveTypeIs connection "3g"
      then setNetwork s (2 # 10) (1920 * 1080)
      else setNetwork s (1 # 10) (2560 * 1920)
  end.

(** The constructor with [initMobileOptimizations]: the network pass, then
    the battery pass once the battery promise has resolved. *)
Definition new (nav : Navigator) : DeviceCapability * Settings :=
  let isMobile := detectMobileDevice nav in
  let deviceCapability := assessDeviceCapability isMobile nav in
  let optimizationSettings := getOptimizationSettings (capabilityLevel deviceCapability) in
  let optimizationSettings :=
    if isMobile then
      let optimizationSettings :=
        adjustForNetworkChange optimizationSettings (navConnection nav) in
      match navBattery nav with
      | Some battery =>
          initialBatteryOptimization (capabilityLevel deviceCapability)
            optimizationSettings (chargeLevel battery) (isCharging battery)
      | None => optimizationSettings
      end
    else optimizationSettings in
  (deviceCapability, optimizationSettings).

(** The events the listeners installed by [setupNetworkOptimizations] and
    [setupBatteryOptimizations] react to; each carries what the listener
    reads when it fires, and the capability level current at that time. *)
Inductive Event : Type :=
| ConnectionChange (connection : Connection)
| LevelChange (deviceCapability : Capability) (level : Q)
| ChargingChange (isCharging : bool).

Definition handleEvent (s : Settings) (e : Event) : Settings :=
  match e with
  | ConnectionChange connection => adjustForNetworkChange s (Some connection)
  | LevelChange deviceCapability level => adjustForBatteryLevel deviceCapability s level
  | ChargingChange isCharging => adjustForChargingState s isCharging
  end.

(** [shouldPauseForDevice]: the battery test sits in a promise callback
    whose result nobody reads. *)
Definition shouldPauseForDevice (memoryInfo : option MemoryInfo)
    (connection : option Connection) : bool :=
  if PerformanceMonitor.gtOpt (memoryInfo ≫= usageRatio) (8 # 10) then true
  else if effectiveTypeIs connection "slow-2g" then true
  else false.

End ImageEnhancerMobile.

(** ** OrderDetector *)

Module OrderDetector.

Local Open Scope string_scope.
Local Open Scope Z_scope.

(** *** Strings

    File names are byte strings (UTF-8).  [toLowerCase] folds the ASCII
    letters; the localized cover names have no case. *)

Definition lowerAscii (a : ascii) : ascii :=
  let n := nat_of_ascii a in
  if (65 <=? n)%nat && (n <=? 90)%nat then ascii_of_nat (n + 32) else a.

Fixpoint toLowerCase (s : string) : string :=
  match s with
  | EmptyString => EmptyString
  | String a r => String (lowerAscii a) (toLowerCase r)
  end.

Fixpoint startsWith (s p : string) : bool :=
  match p, s with
  | EmptyString, _ => true
  | String b p', String a s' => Ascii.eqb a b && startsWith s' p'
  | String _ _, EmptyString => false
  end.

Definition isDigit (a : ascii) : bool :=
  let n := nat_of_ascii a in (48 <=? n)%nat && (n <=? 57)%nat.

(** [[^/.]]: any character but a slash or a dot. *)
Definition isExtChar (a : ascii) : bool :=
  negb (Ascii.eqb a "/" || Ascii.eqb a ".").

Fixpoint allChars (p : ascii → bool) (s : string) : bool :=
  match s with
  | EmptyString => true
  | String a r => p a && allChars p r
  end.

(** [s.replace(/\.[^/.]+$/, '')]: the leftmost dot that is followed, up to
    the end of the name, by one or more characters other than a slash or
    a dot, is cut off with what follows it. *)
Fixpoint removeExtension (s : string) : string :=
  match s with
  | EmptyString => EmptyString
  | String a r =>
      if Ascii.eqb a "." && negb (String.eqb r "") && allChars isExtChar r
      then EmptyString
      else String a (removeExtension r)
  end.

(** The longest prefix of digits, and what follows it. *)
Fixpoint spanDigits (s : string) : string * string :=
  match s with
  | EmptyString => (EmptyString, EmptyString)
  | String a r =>
      if isDigit a then let '(d, rest) := spanDigits r in (String a d, rest)
      else (EmptyString, s)
  end.

(** The digit runs of a string, left to right; [current] is the run
    being read. *)
Fixpoint digitRunsFrom (current : string) (s : string) : list string :=
  let closed := if String.eqb current "" then [] else [current] in
  match s with
  | EmptyString => closed
  | String a r =>
      if isDigit a then digitRunsFrom (current +:+ String a "") r
      else (closed ++ digitRunsFrom "" r)%list
  end.

Definition digitRuns (s : string) : list string := digitRunsFrom "" s.

(** The candidate patterns of [this.numberPatterns], in order. *)
Inductive NumberPattern : Type :=
| LeadingDigits   (* /^(\d+)/ *)
| AnyDigits       (* /(\d+)/ *)
| TrailingDigits  (* /[\D]*(\d+)[\D]*$/ *)
| LooseDigits.    (* /.*?(\d+).*/ *)

Definition numberPatterns : list NumberPattern :=
  [LeadingDigits; AnyDigits; TrailingDigits; LooseDigits].

(** [fileName.match(pattern)[1]]: the text of the capture group, [None]
    when the pattern does not match.  [/^(\d+)/] captures the leading run
    of digits; [/(\d+)/] and [/.*?(\d+).*/] the first run; and
    [/[\D]*(\d+)[\D]*$/], which only matches a suffix holding a single run,
    the last one. *)
Definition matchPattern (pattern : NumberPattern) (fileName : string) : option string :=
  let runs := digitRuns fileName in
  match pattern with
  | LeadingDigits =>
      let '(d, _) := spanDigits fileName in
      if String.eqb d "" then None else Some d
  | AnyDigits => head runs
  | TrailingDigits => last runs
  | LooseDigits => head runs
  end.

Definition digitValue (a : ascii) : Z := Z.of_nat (nat_of_ascii a) - 48.

(** [parseInt(digits, 10)] on a non-empty string of digits. *)
Definition parseInt (digits : string) : Z :=
  foldl (fun acc a => acc * 10 + digitValue a) 0 (list_ascii_of_string digits).

(** *** Sorting

    [Array.prototype.sort] with a comparator is a stable sort. *)
Section Sort.
Context {A : Type} (compare : A → A → Z).

Fixpoint insertSorted (x : A) (l : list A) : list A :=
  match l with
  | [] => [x]
  | y :: r => if compare y x <=? 0 then y :: insertSorted x r else x :: l
  end.

Definition sortWith (l : list A) : list A :=
  foldl (fun acc x => insertSorted x acc) [] l.
End Sort.

(** *** Analysis *)

Definition coverNames : list string :=
  [ "cover"; "Cover"; "COVER";
    "cover.jpg"; "cover.png"; "cover.jpeg"; "cover.gif"; "cover.webp";
    "Cover.jpg"; "Cover.png"; "Cover.jpeg"; "Cover.gif"; "Cover.webp";
    "COVER.JPG"; "COVER.PNG"; "COVER.JPEG"; "COVER.GIF"; "COVER.WEBP";
    "封面"; "封面.jpg"; "封面.png"; "封面.jpeg"; "封面.gif"; "封面.webp" ].

Definition isCoverFile (fileName : string) : bool :=
  let lowerName := toLowerCase fileName in
  existsb (fun coverName =>
             String.eqb lowerName (toLowerCase coverName)
             || startsWith lowerName (toLowerCase coverName))
          coverNames.

Definition isConsecutiveSequence (numbers : list Z) : bool :=
  if (length numbers <? 2)%nat then true
  else
    forallb (fun i =>
               match numbers !! i, numbers !! (i - 1)%nat with
               | Some a, Some b => negb (2 <? a - b)
               | _, _ => true
               end)
            (seq 1 (length numbers - 1)).

Record Extracted : Type := mkExtracted {
  file : File.t;
  extractedIndex : nat;
  number : Z;
  fileName : string
}.

Inductive Method : Type := none | numeric.

Record ExtractResult : Type := mkExtractResult {
  isValid : bool;
  method : Method;
  orderedFiles : list File.t;
  confidence : Q
}.

Definition invalidResult : ExtractResult := mkExtractResult false none [] 0.

Definition extractNumbers (files : list File.t) (pattern : NumberPattern) : ExtractResult :=
  let extracted :=
    omap (fun '(index, file) =>
            let fileName := removeExtension (File.name file) in
            match matchPattern pattern fileName with
            | Some digits => Some (mkExtracted file index (parseInt digits) fileName)
            | None => None
            end)
         (imap (fun index file => (index, file)) files) in
  if JS.Qlt_bool (inject_Z (Z.of_nat (length extracted)))
                 (inject_Z (Z.of_nat (length files)) * (7 # 10))%Q
  then invalidResult
  else
    let numbers := sortWith (fun a b => a - b)%Z (number <$> extracted) in
    let isConsecutive := isConsecutiveSequence numbers in
    let hasReasonableRange :=
      match last numbers, head numbers with
      | Some hi, Some lo => (hi - lo <? Z.of_nat (length files) * 2)%Z
      | _, _ => false
      end in
    if isConsecutive || hasReasonableRange then
      let extracted := sortWith (fun a b => number a - number b)%Z extracted in
      mkExtractResult true numeric (file <$> extracted)
        (if isConsecutive then 1 else 8 # 10)
    else invalidResult.

Record Numbering : Type := mkNumbering {
  hasConsistentNumbering : bool;
  numberingMethod : Method;
  numberingFiles : list File.t;
  numberingConfidence : Q
}.

Definition analyzeNumbering (files : list File.t) : Numbering :=
  let fix tryPatterns (patterns : list NumberPattern) : Numbering :=
    match patterns with
    | [] => mkNumbering false none [] 0
    | pattern :: rest =>
        let extracted := extractNumbers files pattern in
        if isValid extracted
        then mkNumbering true (method extracted) (orderedFiles extracted)
               (confidence extracted)
        else tryPatterns rest
    end in
  tryPatterns numberPatterns.

Record Analysis : Type := mkAnalysis {
  hasValidOrder : bool;
  hasCover : bool;
  coverFiles : list (File.t * nat);
  numberedFiles : list File.t;
  orderingMethod : Method
}.

(** [analyzeFileNames], without the user-facing [suggestions]. *)
Definition analyzeFileNames (files : list File.t) : Analysis :=
  let '(hasCover, coverFiles) :=
    foldl (fun '(hasCover, coverFiles) '(index, file) =>
             let fileName := File.name file in
             let nameWithoutExt := removeExtension fileName in
             if isCoverFile fileName || isCoverFile nameWithoutExt
             then (true, (coverFiles ++ [(file, index)])%list)
             else (hasCover, coverFiles))
          (false, []) (imap (fun index file => (index, file)) files) in
  let numberAnalysis := analyzeNumbering files in
  if hasConsistentNumbering numberAnalysis
  then mkAnalysis true hasCover coverFiles (numberingFiles numberAnalysis)
         (numberingMethod numberAnalysis)
  else mkAnalysis false hasCover coverFiles [] none.

Section Collation.
(** [a.localeCompare(b)], the host's collation. *)
Variable localeCompare : string → string → Z.

Definition isCoverOf (analysis : Analysis) (file : File.t) : bool :=
  existsb (fun coverInfo => String.eqb (File.id (fst coverInfo)) (File.id file))
          (coverFiles analysis).

(** [applyDetectedOrder]: the list handed to
    [fileHandler.updateFilesOrder]. *)
Definition applyDetectedOrder (files : list File.t) (analysis : Analysis)
    : list File.t :=
  let orderedFiles :=
    if hasCover analysis && (0 <? length (coverFiles analysis))%nat
    then fst <$> coverFiles analysis
    else [] in
  if hasValidOrder analysis && (0 <? length (numberedFiles analysis))%nat then
    let nonCoverFiles :=
      List.filter (fun file => negb (isCoverOf analysis file)) (numberedFiles analysis) in
    orderedFiles ++ nonCoverFiles
  else
    let nonCoverFiles := List.filter (fun file => negb (isCoverOf analysis file)) files in
    let nonCoverFiles :=
      sortWith (fun a b => localeCompare (File.name a) (File.name b)) nonCoverFiles in
    orderedFiles ++ nonCoverFiles.

(** The [continueProcessing] action of the dialog shown when no order
    was detected. *)
Definition continueProcessing (files : list File.t) (analysis : Analysis)
    : list File.t :=
  let sortedFiles :=
    sortWith (fun a b => localeCompare (File.name a) (File.name b)) files in
  if hasCover analysis && (0 <? length (coverFiles analysis))%nat then
    let covers := fst <$> coverFiles analysis in
    let nonCoverFiles :=
      List.filter (fun file =>
                negb (existsb (fun cover => String.eqb (File.id cover) (File.id file))
                        covers))
             sortedFiles in
    covers ++ nonCoverFiles
  else sortedFiles.

(** What [detectOrder] does to the working list. *)
Inductive Detection : Type :=
| NothingToDetect
| OrderApplied (orderedFiles : list File.t)
| UserAsked (analysis : Analysis).

Definition detectOrder (files : list File.t) : Detection :=
  if (length files =? 0)%nat then NothingToDetect
  else
    let analysis := analyzeFileNames files in
    if hasValidOrder analysis
    then OrderApplied (applyDetectedOrder files analysis)
    else UserAsked analysis.

(** The value [detectOrder] resolves to. *)
Definition detected (d : Detection) : bool :=
  match d with
  | OrderApplied _ => true
  | _ => false
  end.
End Collation.

End OrderDetector.

(** ** ImageProcessor (js/imageProcessor.js, first class) *)

Module ImageProcessor.

Local Open Scope string_scope.
Local Open Scope Z_scope.

(** [s.includes(p)]. *)
Fixpoint includes (s p : string) : bool :=
  OrderDetector.startsWith s p
  || match s with
     | EmptyString => false
     | String _ r => includes r p
     end.

Definition coverNames : list string := [ "cover"; "Cover"; "COVER"; "封面" ].

Definition isCoverFile (fileName : string) : bool :=
  let nameWithoutExt := OrderDetector.removeExtension fileName in
  existsb (fun coverName =>
             includes (OrderDetector.toLowerCase nameWithoutExt)
                      (OrderDetector.toLowerCase coverName))
          coverNames.

(** [handleDrop]: the array handed to [updateFilesOrder], [None] when the
    item is dropped on itself.  An element of the array is [None] where
    JavaScript has [undefined]: [splice] removes nothing at an index past
    the end, and the second [splice] then inserts [undefined]. *)
Definition handleDrop (files : list File.t) (draggedIndex targetIndex : nat)
    : option (list (option File.t)) :=
  if (draggedIndex =? targetIndex)%nat then None
  else
    let newFiles := Some <$> files in
    let movedFile := mjoin (newFiles !! draggedIndex) in
    let newFiles := delete draggedIndex newFiles in
    let newFiles := (take targetIndex newFiles ++ movedFile :: drop targetIndex newFiles)%list in
    Some newFiles.

Definition sortByName (localeCompare : string → string → Z) (files : list File.t)
    : list File.t :=
  OrderDetector.sortWith (fun a b => localeCompare (File.name a) (File.name b)) files.

Definition sortByDate (files : list File.t) : list File.t :=
  OrderDetector.sortWith (fun a b => File.lastModified a - File.lastModified b) files.

Definition reverseOrder (files : list File.t) : list File.t := reverse files.

Definition removeFile (files : list File.t) (fileId : string) : list File.t :=
  List.filter (fun file => negb (String.eqb (File.id file) fileId)) files.

End ImageProcessor.

(** ** FileHandler (js/fileHandler.js) *)

Module FileHandler.

Local Open Scope string_scope.
Local Open Scope Z_scope.

Definition supportedTypes : list string :=
  [ "image/jpeg"; "image/jpg"; "image/png"; "image/gif"; "image/webp" ].

(** [validateFile], on the [type] and [size] of the browser's file. *)
Definition validateFile (type : string) (size : Z) : bool :=
  if negb (existsb (String.eqb type) supportedTypes) then false
  else if 100 * 1024 * 1024 <? size then false
  else true.

Definition getTotalSize (files : list File.t) : Z :=
  foldl (fun total file => total + File.size file) 0 files.

End FileHandler.

(** ** ImageEnhancer (unnamed part 003) *)

Module ImageEnhancer.

Local Open Scope string_scope.
Local Open Scope Z_scope.

Record Verdict : Type := mkVerdict {
  allowed : bool;
  reason : option string
}.

(** The callback built by [createProgressCallback] only updates the
    progress display. *)
Definition createProgressCallback : ProgressCallback :=
  Some (fun current total filename => Some tt).

(** The share of the progress bar that [createProgressCallback] reports. *)
Definition reportedProgress (current total : Z) : Q :=
  let currentProgress := (inject_Z current / inject_Z total * 100)%Q in
  (currentProgress * (1 # 2))%Q.

Section WithEnvironment.
Variables (pf : Platform) (canUseWebGL : bool) (mm : MemoryManager.t).
(** [this.isMobile] and [deviceInfo.capability.level]. *)
Variables (isMobile : bool) (capability : ImageEnhancerMobile.Capability).
(** The device and the monitor as they are when the batch is validated. *)
Variables (nav : Navigator) (monitor : PerformanceMonitor.t)
          (memoryInfo : option MemoryInfo).

Definition validateProcessingCapability (files : list File.t) (level : Z) : Verdict :=
  if negb (MemoryManager.canProcessBatch mm nav files) then
    mkVerdict false
      (Some "图片总大小超过设备处理能力，请减少图片数量或选择较小的图片")
  else
    let shouldPause := PerformanceMonitor.shouldPauseProcessing monitor memoryInfo in
    if PerformanceMonitor.should shouldPause then
      mkVerdict false
        (Some ("当前设备状态不适合处理: " +:+
               default "undefined" (PerformanceMonitor.reason shouldPause)))
    else if isMobile
            && match capability with ImageEnhancerMobile.low => true | _ => false end
            && (5 <? Z.of_nat (length files))
    then mkVerdict false (Some "低端设备建议一次处理不超过5张图片")
    else mkVerdict true None.

(** [enhanceImages]; [tl] and [settingsAt] are what the batch that runs
    observes while it runs. *)
Definition enhanceImages (tl : Timeline) (settingsAt : Z → ImageEnhancerMobile.Settings)
    (files : list File.t) (level : Z) : outcome (list File.t) :=
  if level =? 0 then Returned files
  else
    let canProcess := validateProcessingCapability files level in
    if negb (allowed canProcess) then Thrown (default "undefined" (reason canProcess))
    else if isMobile then
      Returned (ImageEnhancerMobile.processBatchMobile pf canUseWebGL settingsAt
                  files level createProgressCallback)
    else
      ImageEnhancerCore.enhanceImagesBatch pf mm tl memoryInfo
        files level createProgressCallback.
End WithEnvironment.

End ImageEnhancer.

(** ** PDFGenerator (unnamed part 005, second class) *)

Module PDFGenerator.

Local Open Scope string_scope.
Local Open Scope Z_scope.

(** [this.pageFormats], in millimetres. *)
Definition pageFormats : gmap string (Q * Q) :=
  list_to_map
    [ ("a4", (210, 297)); ("a3", (297, 420)); ("a5", (148, 210));
      ("letter", (216, 279)); ("legal", (216, 356)) ]%Q.

(** The values of the form controls: the text of the two selects, and
    what [parseFloat] and [parseInt] make of the other fields. *)
Record Form : Type := mkForm {
  formPageSize : string;
  formPageMargin : JS.num;
  formImageQuality : JS.num;
  formOrientation : string;
  formImageSharpness : option Z;
  formCustomWidth : JS.num;
  formCustomHeight : JS.num
}.

(** The names every plain object inherits from [Object.prototype]: a
    lookup of one of them in [this.pageFormats] finds a function (or the
    prototype itself), which is truthy and has no elements. *)
Definition objectPrototypeNames : list string :=
  [ "constructor"; "hasOwnProperty"; "isPrototypeOf"; "propertyIsEnumerable";
    "toLocaleString"; "toString"; "valueOf"; "__proto__";
    "__defineGetter__"; "__defineSetter__"; "__lookupGetter__"; "__lookupSetter__" ].

(** The value of [settings.dimensions]: the two sides of a page, or an
    inherited value. *)
Inductive Dimensions : Type :=
| Sides (width height : Q)
| Inherited.

(** [dimensions[i]]: an absent element is [undefined], [NaN] in
    arithmetic. *)
Definition side (dimensions : Dimensions) (i : nat) : JS.num :=
  match dimensions, i with
  | Sides width _, 0%nat => JS.Num width
  | Sides _ height, 1%nat => JS.Num height
  | _, _ => JS.NaN
  end.

Record Settings : Type := mkSettings {
  pageSize : string;
  dimensions : Dimensions;
  pageMargin : Q;
  imageQuality : Q;
  orientation : string;
  imageSharpness : Z
}.

Definition getPDFSettings (form : Form) : outcome Settings :=
  let pageSize := formPageSize form in
  let pageMargin := JS.orQ (formPageMargin form) 10 in
  let imageQuality := JS.orQ (formImageQuality form) (8 # 10) in
  let orientation := formOrientation form in
  let imageSharpness := JS.orZ (formImageSharpness form) 1 in
  if String.eqb pageSize "custom" then
    match formCustomWidth form, formCustomHeight form with
    | JS.Num customWidth, JS.Num customHeight =>
        if Qeq_bool customWidth 0 || Qeq_bool customHeight 0
           || JS.Qlt_bool customWidth 50 || JS.Qlt_bool customHeight 50
        then Thrown "请输入有效的自定义尺寸（最小50mm）"
        else Returned (mkSettings pageSize (Sides customWidth customHeight) pageMargin
                         imageQuality orientation imageSharpness)
    | _, _ => Thrown "请输入有效的自定义尺寸（最小50mm）"
    end
  else
    match pageFormats !! pageSize with
    | Some (width, height) =>
        Returned (mkSettings pageSize (Sides width height) pageMargin imageQuality
                    orientation imageSharpness)
    | None =>
        if bool_decide (pageSize ∈ objectPrototypeNames)
        then Returned (mkSettings pageSize Inherited pageMargin imageQuality orientation
                         imageSharpness)
        else Thrown "无效的页面尺寸"
    end.

(** [applyImageEnhancement]; [imageEnhancer] is [window.imageEnhancer]'s
    [enhanceImages], when the module is loaded. *)
Definition applyImageEnhancement
    (imageEnhancer : option (list File.t → Z → outcome (list File.t)))
    (files : list File.t) (settings : Settings) : list File.t :=
  match imageEnhancer with
  | None => files
  | Some enhanceImages =>
      if imageSharpness settings =? 0 then files
      else
        match enhanceImages files (imageSharpness settings) with
        | Returned enhancedFiles => enhancedFiles
        | Thrown _ => files
        end
  end.

Record Placement : Type := mkPlacement {
  x : JS.num;
  y : JS.num;
  width : JS.num;
  height : JS.num
}.

Definition calculateImagePlacement (imageDimensions : Z * Z)
    (pageDimensions : JS.num * JS.num) (orientation : string) : Placement :=
  let imageWidth := JS.Num (inject_Z (fst imageDimensions)) in
  let imageHeight := JS.Num (inject_Z (snd imageDimensions)) in
  let pageWidth := fst pageDimensions in
  let pageHeight := snd pageDimensions in
  let imageAspect := JS.div imageWidth imageHeight in
  let pageAspect := JS.div pageWidth pageHeight in
  let '(width, height) :=
    if String.eqb orientation "auto" then
      if JS.gt imageAspect pageAspect then
        let width := pageWidth in
        let height := JS.div width imageAspect in
        (width, height)
      else
        let height := pageHeight in
        let width := JS.mul height imageAspect in
        (width, height)
    else if String.eqb orientation "landscape" then
      let width := pageWidth in
      let height := JS.div width imageAspect in
      if JS.gt height pageHeight then
        let height := pageHeight in
        let width := JS.mul height imageAspect in
        (width, height)
      else (width, height)
    else
      let height := pageHeight in
      let width := JS.mul height imageAspect in
      if JS.gt width pageWidth then
        let width := pageWidth in
        let height := JS.div width imageAspect in
        (width, height)
      else (width, height) in
  let x := JS.div (JS.sub pageWidth width) (JS.Num 2) in
  let y := JS.div (JS.sub pageHeight height) (JS.Num 2) in
  mkPlacement x y width height.

Definition getImageFormat (mimeType : string) : string :=
  if String.eqb mimeType "image/jpeg" || String.eqb mimeType "image/jpg" then "JPEG"
  else if String.eqb mimeType "image/png" then "PNG"
  else if String.eqb mimeType "image/gif" then "GIF"
  else if String.eqb mimeType "image/webp" then "WEBP"
  else "JPEG".

(** An image as [pdf.addImage] receives it. *)
Record PlacedImage : Type := mkPlacedImage {
  placedData : string;
  placedFormat : string;
  placedLeft : JS.num;
  placedTop : JS.num;
  placedWidth : JS.num;
  placedHeight : JS.num
}.

(** A jsPDF document: its pages in order, each with the images drawn on
    it; a new document has one empty page, and the last page is the
    current one. *)
Definition Pdf : Type := list (list PlacedImage).

Definition newPdf : Pdf := [[]].

Definition addPage (pdf : Pdf) : Pdf := (pdf ++ [[]])%list.

Definition addImage (pdf : Pdf) (image : PlacedImage) : Pdf :=
  match reverse pdf with
  | [] => []
  | current :: earlier => (reverse earlier ++ [current ++ [image]])%list
  end.

Definition mmToPt : Q := 2834645669 # 1000000000.

Section WithPlatform.
Variable pf : Platform.

Definition processImageForPDF (file : File.t) (settings : Settings) : option string :=
  img ← decodeImage pf (File.imageData file);
  let canvas := drawImage pf img (cwidth img) (cheight img) in
  Some (toDataURL pf canvas (imageQuality settings)).

(** [addImagesToPDF]: the [try] block of a round adds the page first,
    so a file whose image does not load leaves its page empty. *)
Definition addImagesToPDF (pdf : Pdf) (files : list File.t) (settings : Settings) : Pdf :=
  let pageWidth := JS.mul (side (dimensions settings) 0) (JS.Num mmToPt) in
  let pageHeight := JS.mul (side (dimensions settings) 1) (JS.Num mmToPt) in
  let margin := (pageMargin settings * mmToPt)%Q in
  let contentWidth := JS.sub pageWidth (JS.Num (margin * 2)) in
  let contentHeight := JS.sub pageHeight (JS.Num (margin * 2)) in
  foldl (fun pdf '(i, file) =>
           let pdf := if (0 <? i)%nat then addPage pdf else pdf in
           match processImageForPDF file settings with
           | None => pdf
           | Some imageData =>
               let placement :=
                 calculateImagePlacement (File.dimensions file)
                   (contentWidth, contentHeight) (orientation settings) in
               addImage pdf
                 (mkPlacedImage imageData (getImageFormat (File.type file))
                    (JS.add (JS.Num margin) (x placement))
                    (JS.add (JS.Num margin) (y placement))
                    (width placement) (height placement))
           end)
        pdf (imap (fun i file => (i, file)) files).
End WithPlatform.

End PDFGenerator.

(** ** FilenameManager (unnamed part 005, third class)

    The text of the file-name field is a sequence of UTF-16 code units:
    its [length] and [substring] count code units. *)

Module FilenameManager.

Local Open Scope Z_scope.

(** The code units of an ASCII literal. *)
Definition units (s : string) : list Z :=
  (fun a => Z.of_nat (nat_of_ascii a)) <$> list_ascii_of_string s.

Definition defaultPrefix : list Z := units "images-to-pdf".

(** The class [invalidChars]: the nine punctuation marks that file
    systems refuse (angle brackets, colon, double quote, slash, backslash,
    bar, question mark, asterisk) and the control characters below 32. *)
Definition isInvalidChar (c : Z) : bool :=
  bool_decide (c ∈ [60; 62; 58; 34; 47; 92; 124; 63; 42]) || ((0 <=? c) && (c <=? 31)).

(** The class [\s], which is also what [trim] strips: the white space and
    line terminator code points. *)
Definition isWhiteSpace (c : Z) : bool :=
  bool_decide (c ∈ [9; 10; 11; 12; 13; 32; 160; 5760; 8232; 8233; 8239; 8287; 12288; 65279])
  || ((8192 <=? c) && (c <=? 8202)).

Definition isDot (c : Z) : bool := c =? 46.

Definition reservedNames : list (list Z) :=
  units <$> [ "CON"; "PRN"; "AUX"; "NUL";
              "COM1"; "COM2"; "COM3"; "COM4"; "COM5"; "COM6"; "COM7"; "COM8"; "COM9";
              "LPT1"; "LPT2"; "LPT3"; "LPT4"; "LPT5"; "LPT6"; "LPT7"; "LPT8"; "LPT9" ]%string.

Fixpoint dropWhile (p : Z → bool) (s : list Z) : list Z :=
  match s with
  | [] => []
  | c :: r => if p c then dropWhile p r else s
  end.

Definition dropWhileEnd (p : Z → bool) (s : list Z) : list Z :=
  reverse (dropWhile p (reverse s)).

(** [s.replace(/\s+/g, ' ')]: every run of white space becomes one space;
    [inRun] tells that the previous code unit was white space. *)
Fixpoint collapseFrom (inRun : bool) (s : list Z) : list Z :=
  match s with
  | [] => []
  | c :: r =>
      if isWhiteSpace c then
        if inRun then collapseFrom true r else 32 :: collapseFrom true r
      else c :: collapseFrom false r
  end.

Definition collapseSpaces (s : list Z) : list Z := collapseFrom false s.

(** [s.replace(/^\.+|\.+$/g, '')]. *)
Definition stripDots (s : list Z) : list Z :=
  dropWhileEnd isDot (dropWhile isDot s).

Definition trim (s : list Z) : list Z :=
  dropWhileEnd isWhiteSpace (dropWhile isWhiteSpace s).

Definition cleanFilename (filename : list Z) : list Z :=
  match filename with
  | [] => []
  | _ =>
      take 100
        (trim
           (stripDots
              (collapseSpaces
                 (List.filter (fun c => negb (isInvalidChar c)) filename))))
  end.

(** [toUpperCase], folding the ASCII letters: no other character maps
    into the letters of the reserved names. *)
Definition toUpperCase (s : list Z) : list Z :=
  (fun c => if (97 <=? c) && (c <=? 122) then c - 32 else c) <$> s.

Record Validation : Type := mkValidation {
  isValid : bool;
  cleaned : list Z
}.

(** [validateFilename], without the texts of its errors and warnings. *)
Definition validateFilename (filename : list Z) : Validation :=
  match filename, trim filename with
  | [], _ | _, [] => mkValidation false filename
  | _, _ =>
      let isValid := true in
      let isValid := if (100 <? length filename)%nat then false else isValid in
      let isValid := if (length filename <? 2)%nat then false else isValid in
      let hasInvalidChars := existsb isInvalidChar filename in
      let isValid := if hasInvalidChars then false else isValid in
      let upperName := toUpperCase filename in
      let isValid :=
        if bool_decide (upperName ∈ reservedNames) then false else isValid in
      mkValidation isValid (cleanFilename filename)
  end.

(** [getFinalFilename]; [defaultFilename] is what [generateDefaultFilename]
    returns at that moment, [inputValue] the text of the field. *)
Definition getFinalFilename (defaultFilename : list Z) (customName : option (list Z))
    (inputValue : list Z) : list Z :=
  let filename :=
    match customName with
    | Some (c :: r) => c :: r
    | _ => inputValue
    end in
  let filename :=
    match filename with
    | [] => defaultFilename
    | _ => if negb (isValid (validateFilename filename)) then defaultFilename else filename
    end in
  let filename := cleanFilename filename in
  let filename :=
    match filename with
    | [] => defaultPrefix
    | _ => filename
    end in
  (filename ++ units ".pdf")%list.

End FilenameManager.

(** ** Sample inputs *)

Module Samples.

Definition px (r g b a : Z) : list Z := [r; g; b; a].

(** A 4x4 canvas; the colour bytes are multiples of ten, so that every
    kernel sum at strengths 0.2, 0.3, 0.6 and 1 is an integer. *)
Definition canvas4 : Canvas :=
  mkCanvas 4 4 (concat [
    px 10 20 30 255;   px 40 50 60 250;    px 70 80 90 245;    px 100 110 120 240;
    px 10 20 30 235;   px 120 60 200 230;  px 90 140 40 225;   px 30 40 50 220;
    px 50 60 70 215;   px 80 180 100 210;  px 150 70 130 205;  px 60 70 80 200;
    px 0 10 20 195;    px 20 30 40 190;    px 40 50 60 185;    px 60 70 80 180 ]).


(** A grey ramp of the same size: the three colour bytes of pixel
    (X, Y) are [20 X + 10 Y] modulo 256, alpha is 255. *)
Definition rampByte (p : Z) : Z :=
  if p `mod` 4 =? 3 then 255
  else (20 * ((p `div` 4) `mod` 2048) + 10 * ((p `div` 4) `div` 2048)) `mod` 256.

Definition ramp : Canvas :=
  mkCanvas 2048 512 (rampByte <$> seqZ 0 (4 * 2048 * 512)).

Local Open Scope string_scope.
Local Open Scope Z_scope.

Definition file (id name : string) : File.t :=
  File.mk id name 1000 "image/jpeg" 0 ("data:" +:+ name) (10, 10) 0 None None.

Definition coverFirst : list File.t :=
  [file "file_1" "cover.jpg"; file "file_2" "001.jpg"; file "file_3" "002.jpg"].

Definition tenFiles : list File.t :=
  (fun n => file ("file_" +:+ n) (n +:+ ".jpg"))
    <$> ["01"; "02"; "03"; "04"; "05"; "06"; "07"; "08"; "09"; "10"].

(** Code-unit order, one admissible collation on these names. *)
Definition codeUnitCompare (a b : string) : Z :=
  match String.compare a b with
  | Lt => -1
  | Eq => 0
  | Gt => 1
  end.

(** A platform that decodes every payload to [canvas4]. *)
Definition platform : Platform :=
  mkPlatform (fun _ => Some canvas4) (fun img _ _ => img) (fun _ _ => "data:enhanced").

(** A platform on which no payload decodes. *)
Definition brokenPlatform : Platform :=
  mkPlatform (fun _ => None) (fun img _ _ => img) (fun _ _ => "data:enhanced").

Definition manager : MemoryManager.t := MemoryManager.mk (2048 * 1536) (6 # 10).

Definition calmMonitor : PerformanceMonitor.t := PerformanceMonitor.mk (Some 60%Q) ∅.

Definition desktop (ratio : Q) : option MemoryInfo :=
  Some (mkMemoryInfo false 8 (Some ratio)).

(** Memory is calm throughout. *)
Definition calm : Timeline :=
  mkTimeline (fun _ => Some (mkHeapInfo 10 100)) (fun _ => calmMonitor)
    (fun _ => desktop (1 # 10)).


(** Three numbered pages and a file without a number. *)
Definition pagesAndNotes : list File.t :=
  [file "file_1" "1.jpg"; file "file_2" "2.jpg"; file "file_3" "3.jpg";
   file "file_4" "notes.jpg"].

(** A phone with 2 GB and four cores on a 4g connection, its battery at
    80% and discharging; and a laptop with 8 GB that exposes neither
    connection nor battery. *)
Definition phone : Navigator :=
  mkNavigator (Some 2%Q) (Some 4) (Some (mkConnection (Some "4g")))
    (Some (mkBattery (8 # 10) false)) true 390 true.

Definition laptop : Navigator :=
  mkNavigator (Some 8%Q) (Some 8) None None false 1440 false.

End Samples.

(** * Specification vocabulary *)

(** A canvas whose buffer holds four bytes per pixel. *)
Definition wellFormed (c : Canvas) : Prop :=
  0 < cwidth c ∧ 0 < cheight c
  ∧ Z.of_nat (length (pixels c)) = 4 * cwidth c * cheight c.

Definition validBytes (c : Canvas) : Prop :=
  Forall (fun b => 0 ≤ b ≤ 255) (pixels c).

(** The pixels the convolutions recompute: all but the one-pixel border. *)
Definition interior (w h X Y : Z) : Prop := 1 ≤ X < w - 1 ∧ 1 ≤ Y < h - 1.

Definition inRect (sx sy bw bh X Y : Z) : bool :=
  (sx <=? X) && (X <? sx + bw) && (sy <=? Y) && (Y <? sy + bh).

Definition absDiff (a b : Z) : Z := Z.abs (a - b).

(** Byte [c] of pixel ([x], [y]) in a buffer of row length [w]. *)
Definition byteAt (data : list Z) (w y x c : Z) : Z :=
  default 0 (aget data ((y * w + x) * 4 + c)).

(** The sharpening kernel in closed form: centre weight [1 + 4 s], the
    four orthogonal neighbours [- s], no corner term. *)
Definition sharpenValue (s : Q) (center up down left right : Z) : Q :=
  ((1 + 4 * s) * inject_Z center
   - s * inject_Z up - s * inject_Z down - s * inject_Z left - s * inject_Z right)%Q.

(** [Math.max(0, Math.min(255, v))]. *)
Definition clampNum (v : JS.num) : JS.num :=
  JS.Math_max (JS.Num 0) (JS.Math_min (JS.Num 255) v).

(** The byte stored for a clamped value. *)
Definition clampByte (q : Q) : Z := JS.ToUint8Clamp (clampNum (JS.Num q)).

(** [q] brought into the range of a byte, before rounding. *)
Definition clampQ (q : Q) : Q :=
  if Qle_bool q 0 then 0%Q else if Qle_bool 255 q then 255%Q else q.

(** [b] is an integer nearest to [q]: no further than one half from it,
    so at a tie either neighbour. *)
Definition nearest (b : Z) (q : Q) : Prop :=
  (inject_Z b - (1 # 2) <= q ∧ q <= inject_Z b + (1 # 2))%Q.

(** The byte [b] is what a clamped store of the value [q] leaves, up to
    the direction in which a tie is rounded.  The sums of the code are
    sums of doubles; at the strengths of its tables they stay within
    10^-12 of the exact value, which is a multiple of 1/1000, so that the
    stored byte is the one nearest to the exact value, and either
    neighbour when that value lies half way. *)
Definition storedAs (b : Z) (q : Q) : Prop :=
  0 ≤ b ≤ 255 ∧ nearest b (clampQ q).

(** The contrast stretch of a byte, on the 0..255 scale. *)
Definition contrastValue (contrast : Q) (v : Z) : Q :=
  (((inject_Z v / 255 - (1 # 2)) * contrast + (1 # 2)) * 255)%Q.

Definition contrastByte (contrast : Q) (v : Z) : Z :=
  clampByte (contrastValue contrast v).

(** The value the contrast loop stores for an element it has read. *)
Definition contrastStore (contrast : Q) (e : option Z) : JS.num :=
  let value := JS.div (JS.ofElem e) (JS.Num 255) in
  let value := JS.add (JS.mul (JS.sub value (JS.Num (1 # 2))) (JS.Num contrast))
                 (JS.Num (1 # 2)) in
  JS.Math_max (JS.Num 0) (JS.Math_min (JS.Num 255) (JS.mul value (JS.Num 255))).

(** One round of the outer contrast loop: the three colour bytes at [i]. *)
Definition contrastPixel (contrast : Q) (i : Z) (data : list Z) : list Z :=
  forZ 0 3 (fun c data => aset data (i + c) (contrastStore contrast (aget data (i + c)))) data.

(** The value expression of the lightweight pass. *)
Definition cpuSum (data : list Z) (width : Z) (strength : Q) (y x c : Z) : JS.num :=
  let center := JS.Num (1 + 4 * strength) in
  let edge := JS.Num (- strength) in
  let pos := (y * width + x) * 4 + c in
  JS.add (JS.add (JS.add (JS.add
    (JS.mul (JS.ofElem (aget data pos)) center)
    (JS.mul (JS.ofElem (aget data (pos - 4))) edge))
    (JS.mul (JS.ofElem (aget data (pos + 4))) edge))
    (JS.mul (JS.ofElem (aget data (pos - width * 4))) edge))
    (JS.mul (JS.ofElem (aget data (pos + width * 4))) edge).

(** A run of array stores whose values do not depend on the array. *)
Definition writeAll {I : Type} (pos : I → Z) (val : I → JS.num) (l : list I) (a : list Z)
    : list Z :=
  foldl (fun a i => aset a (pos i) (val i)) a l.

(** The rounds of the three nested convolution loops, in order. *)
Definition triples (loY hiY loX hiX : Z) : list (Z * Z * Z) :=
  y ← seqZ loY (hiY - loY); x ← seqZ loX (hiX - loX); c ← seqZ 0 (3 - 0); [(y, x, c)].

(** The stores of the centre copy, in order. *)
Definition quads (blockHeight blockWidth : Z) : list (Z * Z * Z) :=
  py ← seqZ 0 (blockHeight - 0); px ← seqZ 0 (blockWidth - 0); k ← [0; 1; 2; 3]; [(py, px, k)].

(** What the centre copy reads for byte [k] of block pixel ([px], [py]):
    the sharpened buffer for the colours, the block copy for alpha. *)
Definition centerSource (data newData : list Z) (w padding : Z) (q : Z * Z * Z) : JS.num :=
  let '(py, px, k) := q in
  JS.ofElem (aget (if k <? 3 then newData else data)
               (((py + padding) * w + (px + padding)) * 4 + k)).

(** Byte [k] of pixel ([X0], [Y0]) holds [v], on a canvas of the size of [ctx]. *)
Definition holdsByte (ctx : Canvas) (X0 Y0 k v : Z) (c : Canvas) : Prop :=
  wellFormed c ∧ cwidth c = cwidth ctx ∧ cheight c = cheight ctx
  ∧ canvasByte c X0 Y0 k = v.

(** *** Batches *)

Definition chunkSize (memoryInfo : option MemoryInfo) : Z :=
  PerformanceMonitor.batchSize (PerformanceMonitor.optimizeForDevice memoryInfo).

(** The decision taken after the chunk that starts at [i]. *)
Definition pauseAfter (tl : Timeline) (i : Z) : PerformanceMonitor.PauseDecision :=
  PerformanceMonitor.shouldPauseProcessing (monitorAfterChunk tl i) (memoryInfoAfterChunk tl i).

Definition abortMessage (tl : Timeline) (i : Z) : string :=
  "处理暂停: " +:+ default "undefined" (PerformanceMonitor.reason (pauseAfter tl i)).

(** One of the hard thresholds is crossed. *)
Definition critical (pm : PerformanceMonitor.t) (memoryInfo : option MemoryInfo) : Prop :=
  (∃ ratio, memoryInfo ≫= usageRatio = Some ratio ∧ (9 # 10 < ratio)%Q)
  ∨ (∃ rate, PerformanceMonitor.fps pm = Some rate ∧ (rate < 10)%Q)
  ∨ 5 < PerformanceMonitor.totalErrors pm.

(** What the [try] block of a desktop batch item evaluates to. *)
Definition coreAttempt (pf : Platform) (mm : MemoryManager.t) (tl : Timeline)
    (total level : Z) (cb : ProgressCallback) (k : nat) (file : File.t) : option string :=
  callProgress cb (Z.of_nat k) total (File.name file) ≫= fun _ =>
  ImageEnhancerCore.enhanceImageSafely pf mm (heapAtItem tl (Z.of_nat k))
    (File.imageData file) level.

(** What the [try] block of a mobile batch item evaluates to. *)
Definition mobileAttempt (pf : Platform) (canUseWebGL : bool)
    (settingsAt : Z → ImageEnhancerMobile.Settings) (total level : Z)
    (cb : ProgressCallback) (k : nat) (file : File.t) : option string :=
  callProgress cb (Z.of_nat k) total (File.name file) ≫= fun _ =>
  ImageEnhancerMobile.enhanceImageMobile pf canUseWebGL (settingsAt (Z.of_nat k))
    (File.imageData file) level.

(** An item of a batch result: enhanced with the payload of a successful
    attempt, the original after a failed one. *)
Definition absorbed (level : Z) (attempt : option string) (file : File.t) : File.t :=
  match attempt with
  | Some payload => File.withEnhancement file payload level
  | None => file
  end.

(** One round of the chunk loop of [enhanceImagesBatch]. *)
Definition batchStep (pf : Platform) (mm : MemoryManager.t) (tl : Timeline)
    (level : Z) (cb : ProgressCallback) (files : list File.t) (bs : Z)
    (acc : outcome (list File.t)) (i : Z) : outcome (list File.t) :=
  match acc with
  | Thrown message => Thrown message
  | Returned enhancedFiles =>
      if PerformanceMonitor.should (pauseAfter tl i)
      then Thrown (abortMessage tl i)
      else Returned (enhancedFiles ++
             imap (ImageEnhancerCore.enhanceBatchItem pf mm tl (Z.of_nat (length files))
                     level cb i)
                  (slice files i (i + bs)))
  end.

(** *** Collation *)

(** The collation puts the name [a] strictly before the name [b]. *)
Definition collatesBefore (localeCompare : string → string → Z) (a b : string) : Prop :=
  localeCompare a b < 0 ∧ 0 < localeCompare b a.

(** *** Monitoring *)

(** The monitor after a run of reported errors, oldest first. *)
Definition recordAll (pm : PerformanceMonitor.t)
    (errors : list (PerformanceMonitor.ErrorSource * option string))
    : PerformanceMonitor.t :=
  foldl (fun pm '(type, message) => (PerformanceMonitor.recordError pm type message).1)
    pm errors.

(** *** Sharpening *)

(** The preview kernel in closed form: centre weight [1 + 1.6 t], the
    four orthogonal neighbours [- 0.3 t], the four corners [- 0.1 t]. *)
Definition previewValue (t : Q) (center up down left right : Z)
    (upLeft upRight downLeft downRight : Z) : Q :=
  ((1 + (16 # 10) * t) * inject_Z center
   - (3 # 10) * t * (inject_Z up + inject_Z down + inject_Z left + inject_Z right)
   - (1 # 10) * t * (inject_Z upLeft + inject_Z upRight
                     + inject_Z downLeft + inject_Z downRight))%Q.

(** A canvas whose colour bytes are the same at every pixel. *)
Definition uniform (c : Canvas) : Prop :=
  ∀ X Y X' Y' k,
    0 ≤ X < cwidth c → 0 ≤ Y < cheight c → 0 ≤ X' < cwidth c → 0 ≤ Y' < cheight c →
    0 ≤ k < 3 → canvasByte c X Y k = canvasByte c X' Y' k.

(** The four orthogonal neighbours of a pixel hold its value in channel [k]. *)
Definition flatAt (c : Canvas) (X Y k : Z) : Prop :=
  canvasByte c X (Y - 1) k = canvasByte c X Y k
  ∧ canvasByte c X (Y + 1) k = canvasByte c X Y k
  ∧ canvasByte c (X - 1) Y k = canvasByte c X Y k
  ∧ canvasByte c (X + 1) Y k = canvasByte c X Y k.

(** *** File names *)

(** The name holds a decimal digit. *)
Definition hasDigit (s : string) : bool :=
  negb (OrderDetector.allChars (fun a => negb (OrderDetector.isDigit a)) s).

(** The test [analyzeFileNames] applies to each file when it looks for
    covers: the name, or the name without its extension, is a cover name. *)
Definition coverNamed (file : File.t) : bool :=
  OrderDetector.isCoverFile (File.name file)
  || OrderDetector.isCoverFile (OrderDetector.removeExtension (File.name file)).

(** Keys in non-decreasing order. *)
Fixpoint ascending (keys : list Z) : Prop :=
  match keys with
  | [] => True
  | k :: rest => Forall (Z.le k) rest ∧ ascending rest
  end.

(** *** Pages *)

(** What a file leaves on its page: its image, encoded and placed in the
    content area, or nothing when the image does not load. *)
Definition pageOf (pf : Platform) (settings : PDFGenerator.Settings) (file : File.t)
    : list PDFGenerator.PlacedImage :=
  let margin := (PDFGenerator.pageMargin settings * PDFGenerator.mmToPt)%Q in
  let contentWidth :=
    JS.sub (JS.mul (PDFGenerator.side (PDFGenerator.dimensions settings) 0)
              (JS.Num PDFGenerator.mmToPt))
      (JS.Num (margin * 2)) in
  let contentHeight :=
    JS.sub (JS.mul (PDFGenerator.side (PDFGenerator.dimensions settings) 1)
              (JS.Num PDFGenerator.mmToPt))
      (JS.Num (margin * 2)) in
  let placement :=
    PDFGenerator.calculateImagePlacement (File.dimensions file)
      (contentWidth, contentHeight) (PDFGenerator.orientation settings) in
  match PDFGenerator.processImageForPDF pf file settings with
  | None => []
  | Some imageData =>
      [ PDFGenerator.mkPlacedImage imageData (PDFGenerator.getImageFormat (File.type file))
          (JS.add (JS.Num margin) (PDFGenerator.x placement))
          (JS.add (JS.Num margin) (PDFGenerator.y placement))
          (PDFGenerator.width placement) (PDFGenerator.height placement) ]
  end.

(** *** Output names *)

(** No two white-space code units in a row. *)
Fixpoint singleSpaced (s : list Z) : Prop :=
  match s with
  | c :: rest =>
      match rest with
      | d :: _ =>
          ¬ (FilenameManager.isWhiteSpace c = true ∧ FilenameManager.isWhiteSpace d = true)
      | [] => True
      end ∧ singleSpaced rest
  | [] => True
  end.

(** A name that can be given to a file as it is: none of the refused
    characters, white space only as single plain spaces, none in front. *)
Definition tidy (s : list Z) : Prop :=
  Forall (fun c => FilenameManager.isInvalidChar c = false) s
  ∧ Forall (fun c => FilenameManager.isWhiteSpace c = true → c = 32) s
  ∧ singleSpaced s
  ∧ (∀ c, head s = Some c → FilenameManager.isWhiteSpace c = false).

(** * Properties *)

(** ** Numbers *)

Lemma Qle_bool_proper (a a' b b' : Q) :
  (a == a')%Q → (b == b')%Q → Qle_bool a b = Qle_bool a' b'.
Proof.
  intros Ha Hb. apply eq_true_iff_eq. rewrite !Qle_bool_iff. by rewrite Ha, Hb.
Qed.

Lemma ToUint8Clamp_proper (q q' : Q) :
  (q == q')%Q → JS.ToUint8Clamp (JS.Num q) = JS.ToUint8Clamp (JS.Num q').
Proof.
  intros H. unfold JS.ToUint8Clamp, JS.Qlt_bool.
  rewrite (Qfloor_comp _ _ H).
  rewrite (Qle_bool_proper q q' 0 0 H (Qeq_refl _)).
  rewrite (Qle_bool_proper 255 255 q q' (Qeq_refl _) H).
  rewrite (Qle_bool_proper q q' _ _ H (Qeq_refl _)).
  rewrite (Qle_bool_proper _ _ q q' (Qeq_refl _) H).
  reflexivity.
Qed.

Lemma ToUint8Clamp_range (v : JS.num) : 0 ≤ JS.ToUint8Clamp v ≤ 255.
Proof.
  destruct v as [|q]; simpl; [lia|].
  destruct (Qle_bool q 0) eqn:H0; [lia|].
  destruct (Qle_bool 255 q) eqn:H255; [lia|].
  assert (0 < q)%Q as Hq0.
  { apply Qnot_le_lt. intros H. apply Qle_bool_iff in H. congruence. }
  assert (q < 255)%Q as Hq255.
  { apply Qnot_le_lt. intros H. apply Qle_bool_iff in H. congruence. }
  assert (0 ≤ Qfloor q).
  { change 0 with (Qfloor 0). apply Qfloor_resp_le. by apply Qlt_le_weak. }
  assert (Qfloor q ≤ 254).
  { assert (Qfloor q < 255); [|lia].
    rewrite Zlt_Qlt. eapply Qle_lt_trans; [apply Qfloor_le|]. done. }
  repeat case_match; lia.
Qed.

(** A byte stored back into a clamped array is unchanged. *)
Lemma ToUint8Clamp_byte (z : Z) :
  0 ≤ z ≤ 255 → JS.ToUint8Clamp (JS.Num (inject_Z z)) = z.
Proof.
  intros Hz. unfold JS.ToUint8Clamp, JS.Qlt_bool.
  destruct (Qle_bool (inject_Z z) 0) eqn:H0.
  { apply Qle_bool_iff in H0. change 0%Q with (inject_Z 0) in H0.
    rewrite <- Zle_Qle in H0. lia. }
  destruct (Qle_bool 255 (inject_Z z)) eqn:H255.
  { apply Qle_bool_iff in H255. change 255%Q with (inject_Z 255) in H255.
    rewrite <- Zle_Qle in H255. lia. }
  rewrite Qfloor_Z.
  assert (Qle_bool (inject_Z z + (1 # 2)) (inject_Z z) = false) as ->.
  { apply not_true_is_false. rewrite Qle_bool_iff. intros H.
    unfold Qle, Qplus, inject_Z in H. simpl in H. lia. }
  assert (Qle_bool (inject_Z z) (inject_Z z + (1 # 2)) = true) as ->.
  { rewrite Qle_bool_iff. unfold Qle, Qplus, inject_Z. simpl. lia. }
  reflexivity.
Qed.

Lemma clampByte_proper (q q' : Q) : (q == q')%Q → clampByte q = clampByte q'.
Proof.
  intros H. unfold clampByte, clampNum. simpl.
  rewrite (Qle_bool_proper 255 255 q q' (Qeq_refl _) H).
  destruct (Qle_bool 255 q'); [reflexivity|].
  rewrite (Qle_bool_proper 0 0 q q' (Qeq_refl _) H).
  destruct (Qle_bool 0 q'); [|reflexivity].
  by apply ToUint8Clamp_proper.
Qed.

Lemma clampByte_range (q : Q) : 0 ≤ clampByte q ≤ 255.
Proof. apply ToUint8Clamp_range. Qed.

(** *** Rounding *)

Lemma Qle_bool_cases (a b : Q) :
  (Qle_bool a b = true ∧ a <= b)%Q ∨ (Qle_bool a b = false ∧ b < a)%Q.
Proof.
  destruct (Qle_bool a b) eqn:H.
  - left. split; [done|]. by apply Qle_bool_iff.
  - right. split; [done|]. apply Qnot_le_lt. intros Hle.
    apply Qle_bool_iff in Hle. congruence.
Qed.

Lemma ToUint8Clamp_nearest (q : Q) :
  (0 <= q)%Q → (q <= 255)%Q → nearest (JS.ToUint8Clamp (JS.Num q)) q.
Proof.
  intros Hq0 Hq255. unfold nearest, JS.ToUint8Clamp, JS.Qlt_bool.
  pose proof (Qfloor_le q) as Hfl. pose proof (Qlt_floor q) as Hfu.
  rewrite inject_Z_plus in Hfu. change (inject_Z 1) with 1%Q in Hfu.
  destruct (Qle_bool_cases q 0) as [[-> H0]|[-> H0]].
  { change (inject_Z 0) with 0%Q. lra. }
  destruct (Qle_bool_cases 255 q) as [[-> H255]|[-> H255]].
  { change (inject_Z 255) with 255%Q. lra. }
  set (f := Qfloor q) in *.
  destruct (Qle_bool_cases q (inject_Z f + (1 # 2))) as [[-> Hlo]|[-> Hlo]]; simpl.
  - destruct (Qle_bool_cases (inject_Z f + (1 # 2)) q) as [[-> Hhi]|[-> Hhi]]; simpl.
    + destruct (Z.even f); [lra|].
      rewrite inject_Z_plus. change (inject_Z 1) with 1%Q. lra.
    + lra.
  - rewrite inject_Z_plus. change (inject_Z 1) with 1%Q. lra.
Qed.

Lemma clampQ_range (q : Q) : (0 <= clampQ q)%Q ∧ (clampQ q <= 255)%Q.
Proof.
  unfold clampQ.
  destruct (Qle_bool_cases q 0) as [[-> ?]|[-> ?]]; [lra|].
  destruct (Qle_bool_cases 255 q) as [[-> ?]|[-> ?]]; lra.
Qed.

Lemma clampByte_clampQ (q : Q) : clampByte q = JS.ToUint8Clamp (JS.Num (clampQ q)).
Proof.
  unfold clampByte, clampNum. cbn [JS.Math_max JS.Math_min].
  apply ToUint8Clamp_proper. unfold clampQ.
  destruct (Qle_bool_cases 255 q) as [[-> H255]|[-> H255]].
  - change (Qle_bool 0 255) with true. cbv iota.
    destruct (Qle_bool_cases q 0) as [[-> ?]|[-> ?]]; [lra|reflexivity].
  - destruct (Qle_bool_cases 0 q) as [[-> H0]|[-> H0]];
      destruct (Qle_bool_cases q 0) as [[-> ?]|[-> ?]]; try lra; reflexivity.
Qed.

(** The byte of the model is one of the bytes that a store can leave. *)
Lemma clampByte_storedAs (q : Q) : storedAs (clampByte q) q.
Proof.
  split; [apply clampByte_range|].
  rewrite clampByte_clampQ. apply ToUint8Clamp_nearest; apply clampQ_range.
Qed.

(** Away from a tie the stored byte is determined: here for a value that
    is a whole number. *)
Lemma storedAs_whole (b n : Z) (q : Q) :
  storedAs b q → (clampQ q == inject_Z n)%Q → b = n.
Proof.
  intros [_ [Hlo Hhi]] Hq. rewrite Hq in Hlo, Hhi.
  assert (inject_Z (b - n) < inject_Z 1)%Q as H1.
  { unfold Z.sub. rewrite inject_Z_plus, inject_Z_opp. change (inject_Z 1) with 1%Q. lra. }
  assert (inject_Z (n - b) < inject_Z 1)%Q as H2.
  { unfold Z.sub. rewrite inject_Z_plus, inject_Z_opp. change (inject_Z 1) with 1%Q. lra. }
  rewrite <- Zlt_Qlt in H1, H2. lia.
Qed.

Lemma storedAs_unique (b n : Z) (q : Q) :
  storedAs b q →
  (inject_Z n - (1 # 2) < clampQ q)%Q → (clampQ q < inject_Z n + (1 # 2))%Q → b = n.
Proof.
  intros [_ [Hlo Hhi]] Hn1 Hn2.
  assert (inject_Z (b - n) < inject_Z 1)%Q as H1.
  { unfold Z.sub. rewrite inject_Z_plus, inject_Z_opp. change (inject_Z 1) with 1%Q. lra. }
  assert (inject_Z (n - b) < inject_Z 1)%Q as H2.
  { unfold Z.sub. rewrite inject_Z_plus, inject_Z_opp. change (inject_Z 1) with 1%Q. lra. }
  rewrite <- Zlt_Qlt in H1, H2. lia.
Qed.

(** Two bytes stored as the same value differ by at most one. *)
Lemma storedAs_close (b1 b2 : Z) (q : Q) :
  storedAs b1 q → storedAs b2 q → absDiff b1 b2 ≤ 1.
Proof.
  intros [_ [Hlo1 Hhi1]] [_ [Hlo2 Hhi2]].
  assert (inject_Z (b1 - b2) <= inject_Z 1)%Q as H1.
  { unfold Z.sub. rewrite inject_Z_plus, inject_Z_opp. change (inject_Z 1) with 1%Q. lra. }
  assert (inject_Z (b2 - b1) <= inject_Z 1)%Q as H2.
  { unfold Z.sub. rewrite inject_Z_plus, inject_Z_opp. change (inject_Z 1) with 1%Q. lra. }
  rewrite <- Zle_Qle in H1, H2. unfold absDiff. lia.
Qed.

(** ** Loops and arrays *)

Lemma foldl_pointwise {A B} (f g : A → B → A) (l : list B) (a : A) :
  (∀ a b, f a b = g a b) → foldl f a l = foldl g a l.
Proof.
  intros H. revert a. induction l as [|b l IH]; intros a; simpl; [done|].
  by rewrite H, IH.
Qed.

Lemma foldl_bind_list {A B C} (f : A → C → A) (g : B → list C) (l : list B) (a : A) :
  foldl f a (l ≫= g) = foldl (fun a b => foldl f a (g b)) a l.
Proof.
  revert a. induction l as [|b l IH]; intros a; [done|].
  rewrite bind_cons, foldl_app. simpl. apply IH.
Qed.

Lemma length_aset a i v : length (aset a i v) = length a.
Proof. unfold aset. case_match; [done|]. apply length_insert. Qed.

Lemma aget_aset_eq a i v :
  0 ≤ i < Z.of_nat (length a) → aget (aset a i v) i = Some (JS.ToUint8Clamp v).
Proof.
  intros Hi. unfold aget, aset. destruct (Z.ltb_spec i 0); [lia|].
  apply list_lookup_insert_eq. lia.
Qed.

Lemma aget_aset_ne a i j v : i ≠ j → aget (aset a i v) j = aget a j.
Proof.
  intros Hij. unfold aget, aset.
  destruct (Z.ltb_spec j 0); [done|]. destruct (Z.ltb_spec i 0); [done|].
  apply list_lookup_insert_ne. lia.
Qed.

Lemma aget_aset a j v p :
  aget (aset a j v) p
  = if decide (p = j) then (fun _ => JS.ToUint8Clamp v) <$> aget a j else aget a p.
Proof.
  destruct (decide (p = j)) as [->|Hne]; [|by apply aget_aset_ne].
  unfold aget, aset. destruct (Z.ltb_spec j 0); [done|].
  destruct (decide (Z.to_nat j < length a)%nat) as [Hlt|Hge].
  - rewrite list_lookup_insert_eq by done.
    apply lookup_lt_is_Some in Hlt as [x ->]. done.
  - rewrite list_insert_ge by lia. rewrite (lookup_ge_None_2 a) by lia. done.
Qed.

Lemma aget_out_of_range a i : Z.of_nat (length a) ≤ i → aget a i = None.
Proof.
  intros Hi. unfold aget. case_match; [done|]. apply lookup_ge_None. lia.
Qed.

Section Writes.
Context {I : Type} (pos : I → Z) (val : I → JS.num).

Lemma length_writeAll l a : length (writeAll pos val l a) = length a.
Proof.
  revert a. induction l as [|i l IH]; intros a; [done|].
  unfold writeAll in *. simpl. by rewrite IH, length_aset.
Qed.

Lemma writeAll_snoc l i a :
  writeAll pos val (l ++ [i]) a = aset (writeAll pos val l a) (pos i) (val i).
Proof. unfold writeAll. by rewrite foldl_app. Qed.

Lemma aget_writeAll_other l a p :
  (∀ i, i ∈ l → pos i ≠ p) → aget (writeAll pos val l a) p = aget a p.
Proof.
  induction l as [|i l IH] using rev_ind; intros Hp; [done|].
  rewrite writeAll_snoc, aget_aset_ne.
  - apply IH. intros j Hj. apply Hp, elem_of_app. by left.
  - apply Hp, elem_of_app. right. by apply list_elem_of_singleton.
Qed.

Lemma aget_writeAll_written l a i :
  i ∈ l →
  (∀ j, j ∈ l → pos j = pos i → val j = val i) →
  0 ≤ pos i < Z.of_nat (length a) →
  aget (writeAll pos val l a) (pos i) = Some (JS.ToUint8Clamp (val i)).
Proof.
  induction l as [|j l IH] using rev_ind; intros Hi Hval Hrange.
  { by apply elem_of_nil in Hi. }
  rewrite writeAll_snoc.
  destruct (decide (pos j = pos i)) as [Heq|Hne].
  - rewrite Heq, (Hval j); [|apply elem_of_app; right; by apply list_elem_of_singleton|done].
    apply aget_aset_eq. by rewrite length_writeAll.
  - rewrite aget_aset_ne by done. apply IH; [| |done].
    + apply elem_of_app in Hi as [Hi|Hi]; [done|].
      apply list_elem_of_singleton in Hi. congruence.
    + intros k Hk. apply Hval, elem_of_app. by left.
Qed.
End Writes.

Lemma elem_of_triples loY hiY loX hiX y x c :
  (y, x, c) ∈ triples loY hiY loX hiX ↔ loY ≤ y < hiY ∧ loX ≤ x < hiX ∧ 0 ≤ c < 3.
Proof.
  unfold triples. rewrite list_elem_of_bind. split.
  - intros (y' & Hin & Hy). apply elem_of_seqZ in Hy.
    apply list_elem_of_bind in Hin as (x' & Hin & Hx). apply elem_of_seqZ in Hx.
    apply list_elem_of_bind in Hin as (c' & Hin & Hc). apply elem_of_seqZ in Hc.
    apply list_elem_of_singleton in Hin. simplify_eq. lia.
  - intros (Hy & Hx & Hc). exists y. split; [|apply elem_of_seqZ; lia].
    apply list_elem_of_bind. exists x. split; [|apply elem_of_seqZ; lia].
    apply list_elem_of_bind. exists c. split; [|apply elem_of_seqZ; lia].
    by apply list_elem_of_singleton.
Qed.

Lemma elem_of_quads bh bw py px k :
  (py, px, k) ∈ quads bh bw ↔ 0 ≤ py < bh ∧ 0 ≤ px < bw ∧ 0 ≤ k < 4.
Proof.
  unfold quads. rewrite list_elem_of_bind. split.
  - intros (y' & Hin & Hy). apply elem_of_seqZ in Hy.
    apply list_elem_of_bind in Hin as (x' & Hin & Hx). apply elem_of_seqZ in Hx.
    apply list_elem_of_bind in Hin as (c' & Hin & Hc).
    apply list_elem_of_singleton in Hin. simplify_eq.
    split; [lia|]. split; [lia|].
    repeat (apply elem_of_cons in Hc as [->|Hc]; [lia|]). by apply elem_of_nil in Hc.
  - intros (Hy & Hx & Hc). exists py. split; [|apply elem_of_seqZ; lia].
    apply list_elem_of_bind. exists px. split; [|apply elem_of_seqZ; lia].
    apply list_elem_of_bind. exists k. split; [by apply list_elem_of_singleton|].
    assert (k = 0 ∨ k = 1 ∨ k = 2 ∨ k = 3) as [-> | [-> | [-> | ->]]] by lia;
      repeat constructor.
Qed.

(** Three nested counting loops around one store are a run of stores. *)
Lemma forZ3_writeAll (pos : Z → Z → Z → Z) (val : Z → Z → Z → JS.num) loY hiY loX hiX a :
  forZ loY hiY (fun y a =>
    forZ loX hiX (fun x a =>
      forZ 0 3 (fun c a => aset a (pos y x c) (val y x c)) a) a) a
  = writeAll (fun '(y, x, c) => pos y x c) (fun '(y, x, c) => val y x c)
      (triples loY hiY loX hiX) a.
Proof.
  unfold forZ, writeAll, triples.
  rewrite foldl_bind_list. apply foldl_pointwise. intros a' y.
  rewrite foldl_bind_list. apply foldl_pointwise. intros a'' x.
  rewrite foldl_bind_list. apply foldl_pointwise. intros a''' c.
  reflexivity.
Qed.

Lemma forInM_snoc {S} (l : list Z) (i : Z) (body : Z → S → option S) (s : S) :
  forInM (l ++ [i]) body s = forInM l body s ≫= body i.
Proof. unfold forInM. by rewrite foldl_app. Qed.

Lemma forInM_cons {S} (l : list Z) (i : Z) (body : Z → S → option S) (s : S) :
  forInM (i :: l) body s = body i s ≫= forInM l body.
Proof.
  unfold forInM. simpl. destruct (body i s) as [s'|]; [done|].
  simpl. induction l; [done|]. simpl. done.
Qed.

(** A loop whose every round succeeds and keeps [P] succeeds and keeps [P]. *)
Lemma forInM_preserves {S} (P : S → Prop) (l : list Z) (body : Z → S → option S) (s : S) :
  P s →
  (∀ i s, i ∈ l → P s → ∃ s', body i s = Some s' ∧ P s') →
  ∃ s', forInM l body s = Some s' ∧ P s'.
Proof.
  intros Hs Hbody. induction l as [|i l IH] using rev_ind.
  - exists s. done.
  - destruct IH as (mid & Hmid & HP).
    { intros j s0 Hj. apply Hbody. apply elem_of_app. by left. }
    rewrite forInM_snoc, Hmid. simpl. apply Hbody; [|done].
    apply elem_of_app. right. by apply list_elem_of_singleton.
Qed.

Lemma elem_of_stepsZ i n bs :
  0 < bs → i ∈ stepsZ 0 n bs ↔ ∃ k, i = k * bs ∧ 0 ≤ k ∧ k * bs < n.
Proof.
  intros Hbs. unfold stepsZ. rewrite list_elem_of_fmap. split.
  - intros (k & -> & Hk). apply elem_of_seqZ in Hk. exists k.
    split; [lia|]. split; [lia|]. Z.to_euclidean_division_equations; nia.
  - intros (k & -> & Hk0 & Hk). exists k. split; [lia|]. apply elem_of_seqZ.
    split; [lia|]. Z.to_euclidean_division_equations; nia.
Qed.

Lemma stepsZ_cons n bs :
  0 < bs → 0 < n →
  ∃ rest, stepsZ 0 n bs = 0 :: rest ∧ ∀ i, i ∈ rest → bs ≤ i < n.
Proof.
  intros Hbs Hn. unfold stepsZ.
  set (m := (n - 0 + bs - 1) `div` bs).
  assert (0 < m) by (unfold m; Z.to_euclidean_division_equations; nia).
  rewrite seqZ_cons by done. rewrite fmap_cons.
  eexists. split; [reflexivity|].
  intros i (k & -> & Hk)%list_elem_of_fmap. apply elem_of_seqZ in Hk.
  split; [nia|]. unfold m in *. Z.to_euclidean_division_equations; nia.
Qed.

(** ** Canvas primitives *)

Lemma index_div4 a k : 0 ≤ k < 4 → (a * 4 + k) `div` 4 = a.
Proof. intros. symmetry. apply (Z.div_unique _ _ _ k); lia. Qed.

Lemma index_mod4 a k : 0 ≤ k < 4 → (a * 4 + k) `mod` 4 = k.
Proof. intros. symmetry. apply (Z.mod_unique _ _ a); lia. Qed.

Lemma index_divw w y x : 0 ≤ x < w → (y * w + x) `div` w = y.
Proof. intros. symmetry. apply (Z.div_unique _ _ _ x); lia. Qed.

Lemma index_modw w y x : 0 ≤ x < w → (y * w + x) `mod` w = x.
Proof. intros. symmetry. apply (Z.mod_unique _ _ y); lia. Qed.

Lemma index_bound w h X Y k :
  0 ≤ X < w → 0 ≤ Y < h → 0 ≤ k < 4 → 0 ≤ (Y * w + X) * 4 + k < 4 * w * h.
Proof. intros. nia. Qed.

Lemma canvasByte_lookup c X Y k :
  wellFormed c → 0 ≤ X < cwidth c → 0 ≤ Y < cheight c → 0 ≤ k < 4 →
  aget (pixels c) ((Y * cwidth c + X) * 4 + k) = Some (canvasByte c X Y k).
Proof.
  intros (Hw & Hh & Hlen) HX HY Hk.
  pose proof (index_bound (cwidth c) (cheight c) X Y k HX HY Hk) as Hb.
  unfold canvasByte, aget.
  destruct (Z.ltb_spec ((Y * cwidth c + X) * 4 + k) 0); [lia|].
  destruct (Z.leb_spec 0 X); [|lia]. destruct (Z.ltb_spec X (cwidth c)); [|lia].
  destruct (Z.leb_spec 0 Y); [|lia]. destruct (Z.ltb_spec Y (cheight c)); [|lia].
  simpl.
  destruct (pixels c !! Z.to_nat ((Y * cwidth c + X) * 4 + k)) eqn:E; [done|].
  apply lookup_ge_None in E. lia.
Qed.

Lemma readByte_colour c X Y k : k ≠ 3 → readByte c X Y k = canvasByte c X Y k.
Proof. intros Hk. unfold readByte. by destruct (Z.eqb_spec k 3). Qed.


Lemma readByte_range c X Y k : validBytes c → 0 ≤ readByte c X Y k ≤ 255.
Proof.
  intros Hb. unfold readByte. destruct (k =? 3).
  - by destruct ((0 <=? X) && (X <? cwidth c) && (0 <=? Y) && (Y <? cheight c)).
  - unfold canvasByte. case_match; [|lia].
    destruct (pixels c !! _) as [b|] eqn:E; simpl; [|lia].
    by apply (Forall_lookup_1 _ _ _ _ Hb E).
Qed.

Lemma getImageData_spec c sx sy sw sh :
  0 < sw → 0 < sh →
  ∃ img, getImageData c sx sy sw sh = Some img
    ∧ iwidth img = sw ∧ iheight img = sh
    ∧ Z.of_nat (length (idata img)) = 4 * sw * sh
    ∧ ∀ i j k, 0 ≤ i < sw → 0 ≤ j < sh → 0 ≤ k < 4 →
        aget (idata img) ((j * sw + i) * 4 + k) = Some (readByte c (sx + i) (sy + j) k).
Proof.
  intros Hw Hh. unfold getImageData.
  destruct (Z.ltb_spec 0 sw); [|lia]. destruct (Z.ltb_spec 0 sh); [|lia]. simpl.
  eexists. split; [reflexivity|]. simpl. split; [done|]. split; [done|].
  split.
  - rewrite length_fmap, length_seqZ. nia.
  - intros i j k Hi Hj Hk.
    pose proof (index_bound sw sh i j k Hi Hj Hk) as Hb.
    unfold aget. destruct (Z.ltb_spec ((j * sw + i) * 4 + k) 0); [lia|].
    rewrite list_lookup_fmap, lookup_seqZ_lt by lia. simpl.
    rewrite Z2Nat.id, Z.add_0_l by lia.
    by rewrite index_div4, index_mod4, index_divw, index_modw by lia.
Qed.

Lemma canvasByte_putImageData c img dx dy X Y k :
  wellFormed c → 0 ≤ X < cwidth c → 0 ≤ Y < cheight c → 0 ≤ k < 4 →
  canvasByte (putImageData c img dx dy) X Y k
  = if (dx <=? X) && (X <? dx + iwidth img) && (dy <=? Y) && (Y <? dy + iheight img)
       && (k <? 3)
    then default (canvasByte c X Y k)
           (aget (idata img) (((Y - dy) * iwidth img + (X - dx)) * 4 + k))
    else canvasByte c X Y k.
Proof.
  intros Hwf HX HY Hk.
  pose proof (canvasByte_lookup c X Y k Hwf HX HY Hk) as Hold.
  pose proof (index_bound (cwidth c) (cheight c) X Y k HX HY Hk) as Hb.
  unfold aget in Hold. destruct (Z.ltb_spec ((Y * cwidth c + X) * 4 + k) 0); [lia|].
  unfold canvasByte at 1. simpl.
  destruct (Z.leb_spec 0 X); [|lia]. destruct (Z.ltb_spec X (cwidth c)); [|lia].
  destruct (Z.leb_spec 0 Y); [|lia]. destruct (Z.ltb_spec Y (cheight c)); [|lia].
  simpl. rewrite list_lookup_imap, Hold. simpl.
  rewrite Z2Nat.id by lia.
  rewrite index_div4, index_mod4, index_divw, index_modw by lia.
  destruct ((dx <=? X) && (X <? dx + iwidth img) && (dy <=? Y) && (Y <? dy + iheight img)
            && (k <? 3)) eqn:E; [|done].
  apply andb_prop in E as [E _].
  unfold aget.
  destruct (Z.ltb_spec (((Y - dy) * iwidth img + (X - dx)) * 4 + k) 0); [|done].
  (* a negative index reads undefined *)
  destruct (idata img !! _) eqn:E2; [|done].
  apply andb_prop in E as [E _]. apply andb_prop in E as [E E3].
  apply andb_prop in E as [E E4].
  apply Z.leb_le in E. apply Z.leb_le in E3. apply Z.ltb_lt in E4. 
  apply lookup_lt_Some in E2. 
  assert (0 ≤ iwidth img) by lia. nia.
Qed.

Lemma putImageData_wellFormed c img dx dy :
  wellFormed c → wellFormed (putImageData c img dx dy).
Proof. unfold wellFormed. simpl. by rewrite length_imap. Qed.

Lemma createImageData_spec sw sh :
  0 < sw → 0 < sh →
  createImageData sw sh = Some (mkImageData sw sh (replicate (Z.to_nat (4 * sw * sh)) 0)).
Proof.
  intros. unfold createImageData.
  destruct (Z.ltb_spec 0 sw); [|lia]. destruct (Z.ltb_spec 0 sh); [|lia]. done.
Qed.

(** ** Full-frame sharpening *)

Import ImageEnhancerCore.

Lemma kernelSum_sharpenKernel data s w y x c :
  (∀ ky kx, -1 ≤ ky ≤ 1 → -1 ≤ kx ≤ 1 →
            is_Some (aget data (((y + ky) * w + (x + kx)) * 4 + c))) →
  ∃ q, kernelSum data (sharpenKernel s) w y x c = JS.Num q
       ∧ (q == sharpenValue s (byteAt data w y x c)
                 (byteAt data w (y - 1) x c) (byteAt data w (y + 1) x c)
                 (byteAt data w y (x - 1) c) (byteAt data w y (x + 1) c))%Q.
Proof.
  intros Hin.
  set (rd := fun ky kx => aget data (((y + ky) * w + (x + kx)) * 4 + c)).
  assert (byteAt data w y x c = default 0 (rd 0 0)) as ->
    by (unfold byteAt, rd; do 2 f_equal; lia).
  assert (byteAt data w (y - 1) x c = default 0 (rd (-1) 0)) as ->
    by (unfold byteAt, rd; do 2 f_equal; lia).
  assert (byteAt data w (y + 1) x c = default 0 (rd 1 0)) as ->
    by (unfold byteAt, rd; do 2 f_equal; lia).
  assert (byteAt data w y (x - 1) c = default 0 (rd 0 (-1))) as ->
    by (unfold byteAt, rd; do 2 f_equal; lia).
  assert (byteAt data w y (x + 1) c = default 0 (rd 0 1)) as ->
    by (unfold byteAt, rd; do 2 f_equal; lia).
  unfold kernelSum, forZ.
  change (seqZ (-1) (2 - -1)) with [-1; 0; 1].
  cbn [foldl]. fold (rd (-1) (-1)) (rd (-1) 0) (rd (-1) 1) (rd 0 (-1)) (rd 0 0)
    (rd 0 1) (rd 1 (-1)) (rd 1 0) (rd 1 1).
  destruct (Hin (-1) (-1)) as [v1 Hv1]; [lia..|]; fold (rd (-1) (-1)) in Hv1; rewrite Hv1.
  destruct (Hin (-1) 0) as [v2 Hv2]; [lia..|]; fold (rd (-1) 0) in Hv2; rewrite Hv2.
  destruct (Hin (-1) 1) as [v3 Hv3]; [lia..|]; fold (rd (-1) 1) in Hv3; rewrite Hv3.
  destruct (Hin 0 (-1)) as [v4 Hv4]; [lia..|]; fold (rd 0 (-1)) in Hv4; rewrite Hv4.
  destruct (Hin 0 0) as [v5 Hv5]; [lia..|]; fold (rd 0 0) in Hv5; rewrite Hv5.
  destruct (Hin 0 1) as [v6 Hv6]; [lia..|]; fold (rd 0 1) in Hv6; rewrite Hv6.
  destruct (Hin 1 (-1)) as [v7 Hv7]; [lia..|]; fold (rd 1 (-1)) in Hv7; rewrite Hv7.
  destruct (Hin 1 0) as [v8 Hv8]; [lia..|]; fold (rd 1 0) in Hv8; rewrite Hv8.
  destruct (Hin 1 1) as [v9 Hv9]; [lia..|]; fold (rd 1 1) in Hv9; rewrite Hv9.
  simpl.
  eexists. split; [reflexivity|]. unfold sharpenValue. ring.
Qed.

Lemma sharpenLoops_writeAll data kernel w h nd :
  sharpenLoops data kernel w h nd
  = writeAll (fun '(y, x, c) => (y * w + x) * 4 + c)
      (fun '(y, x, c) => clampNum (kernelSum data kernel w y x c))
      (triples 1 (h - 1) 1 (w - 1)) nd.
Proof.
  unfold sharpenLoops.
  apply (forZ3_writeAll (fun y x c => (y * w + x) * 4 + c)
           (fun y x c => clampNum (kernelSum data kernel w y x c))).
Qed.

Lemma position_inj w y x c y' x' c' :
  0 ≤ x < w → 0 ≤ x' < w → 0 ≤ c < 4 → 0 ≤ c' < 4 →
  (y * w + x) * 4 + c = (y' * w + x') * 4 + c' → y = y' ∧ x = x' ∧ c = c'.
Proof.
  intros Hx Hx' Hc Hc' Heq.
  assert (c = c') as -> by lia.
  assert (y * w + x = y' * w + x') as Heq' by lia.
  assert (y = y') as -> by nia.
  lia.
Qed.

Lemma length_sharpenLoops data kernel w h nd :
  length (sharpenLoops data kernel w h nd) = length nd.
Proof. rewrite sharpenLoops_writeAll. apply length_writeAll. Qed.

Lemma aget_sharpenLoops_interior data kernel w h nd y x c :
  1 ≤ y < h - 1 → 1 ≤ x < w - 1 → 0 ≤ c < 3 →
  (y * w + x) * 4 + c < Z.of_nat (length nd) →
  aget (sharpenLoops data kernel w h nd) ((y * w + x) * 4 + c)
  = Some (JS.ToUint8Clamp (clampNum (kernelSum data kernel w y x c))).
Proof.
  intros Hy Hx Hc Hlen. rewrite sharpenLoops_writeAll.
  apply (aget_writeAll_written (fun '(y, x, c) => (y * w + x) * 4 + c)
           (fun '(y, x, c) => clampNum (kernelSum data kernel w y x c))
           _ nd (y, x, c)).
  - by apply elem_of_triples.
  - intros [[y' x'] c'] Hin Heq. apply elem_of_triples in Hin.
    apply position_inj in Heq as (-> & -> & ->); [done|lia..].
  - nia.
Qed.

Lemma aget_sharpenLoops_other data kernel w h nd p :
  (∀ y x c, 1 ≤ y < h - 1 → 1 ≤ x < w - 1 → 0 ≤ c < 3 → (y * w + x) * 4 + c ≠ p) →
  aget (sharpenLoops data kernel w h nd) p = aget nd p.
Proof.
  intros Hp. rewrite sharpenLoops_writeAll.
  apply aget_writeAll_other. intros [[y x] c] Hin. apply elem_of_triples in Hin.
  apply Hp; lia.
Qed.

Lemma applyHighQualitySharpening_spec ctx s :
  wellFormed ctx →
  ∃ out,
    applyHighQualitySharpening ctx (cwidth ctx) (cheight ctx) s = Some out
    ∧ wellFormed out ∧ cwidth out = cwidth ctx ∧ cheight out = cheight ctx
    ∧ (∀ X Y k, interior (cwidth ctx) (cheight ctx) X Y → 0 ≤ k < 3 →
         canvasByte out X Y k
         = clampByte (sharpenValue s (canvasByte ctx X Y k)
                        (canvasByte ctx X (Y - 1) k) (canvasByte ctx X (Y + 1) k)
                        (canvasByte ctx (X - 1) Y k) (canvasByte ctx (X + 1) Y k)))
    ∧ (∀ X Y k, 0 ≤ X < cwidth ctx → 0 ≤ Y < cheight ctx → 0 ≤ k < 4 →
         ¬ (interior (cwidth ctx) (cheight ctx) X Y ∧ k < 3) →
         canvasByte out X Y k = canvasByte ctx X Y k).
Proof.
  intros Hwf. pose proof Hwf as (Hw & Hh & Hlen).
  set (w := cwidth ctx) in *. set (h := cheight ctx) in *.
  unfold applyHighQualitySharpening.
  destruct (getImageData_spec ctx 0 0 w h Hw Hh) as (img & -> & _ & _ & Hdlen & Hdata).
  simpl. set (data := idata img) in *.
  assert (∀ X Y k, 0 ≤ X < w → 0 ≤ Y < h → 0 ≤ k < 3 →
                   aget data ((Y * w + X) * 4 + k) = Some (canvasByte ctx X Y k)) as Hd.
  { intros X Y k HX HY Hk. rewrite Hdata by lia. by rewrite readByte_colour by lia. }
  unfold newImageData. rewrite length_sharpenLoops.
  destruct (Z.ltb_spec 0 w); [|lia]. destruct (Z.ltb_spec 0 h); [|lia].
  destruct (Z.eqb_spec (Z.of_nat (length data)) (4 * w * h)); [|lia]. simpl.
  eexists. split; [reflexivity|].
  split; [by apply putImageData_wellFormed|]. split; [done|]. split; [done|].
  assert (∀ X Y k, 0 ≤ X < w → 0 ≤ Y < h → 0 ≤ k < 4 →
            canvasByte (putImageData ctx
              (mkImageData w h (sharpenLoops data (sharpenKernel s) w h data)) 0 0) X Y k
            = if k <? 3
              then default (canvasByte ctx X Y k)
                     (aget (sharpenLoops data (sharpenKernel s) w h data)
                        ((Y * w + X) * 4 + k))
              else canvasByte ctx X Y k)
    as Hput.
  { intros X Y k HX HY Hk. rewrite canvasByte_putImageData by done. simpl.
    destruct (Z.leb_spec 0 X); [|lia]. destruct (Z.ltb_spec X (0 + w)); [|lia].
    destruct (Z.leb_spec 0 Y); [|lia]. destruct (Z.ltb_spec Y (0 + h)); [|lia].
    simpl. by rewrite !Z.sub_0_r. }
  split.
  - intros X Y k [HX HY] Hk. rewrite Hput by lia.
    destruct (Z.ltb_spec k 3); [|lia].
    rewrite aget_sharpenLoops_interior by (lia || nia). simpl.
    destruct (kernelSum_sharpenKernel data s w Y X k) as (q & -> & Hq).
    { intros ky kx Hky Hkx. rewrite Hd by lia. done. }
    unfold byteAt in Hq. rewrite !Hd in Hq by lia. simpl in Hq.
    by apply clampByte_proper.
  - intros X Y k HX HY Hk Hnot. rewrite Hput by lia.
    destruct (Z.ltb_spec k 3); [|done].
    rewrite aget_sharpenLoops_other.
    + by rewrite Hd by lia.
    + intros y x c Hy Hx Hc Heq.
      apply position_inj in Heq as (-> & -> & ->); [|lia..].
      apply Hnot. unfold interior. lia.
Qed.

(** ** Contrast *)

Lemma contrastStore_Some contrast v :
  JS.ToUint8Clamp (contrastStore contrast (Some v)) = contrastByte contrast v.
Proof. reflexivity. Qed.

Lemma aget_store_self contrast a j p :
  aget (aset a j (contrastStore contrast (aget a j))) p
  = if decide (p = j) then contrastByte contrast <$> aget a j else aget a p.
Proof.
  rewrite aget_aset. case_decide; [|done]. by destruct (aget a j).
Qed.

Lemma aget_contrastPixel contrast i data p :
  aget (contrastPixel contrast i data) p
  = if (i <=? p) && (p <? i + 3) then contrastByte contrast <$> aget data p else aget data p.
Proof.
  unfold contrastPixel, forZ. change (seqZ 0 (3 - 0)) with [0; 1; 2]. cbn [foldl].
  set (a1 := aset data (i + 0) _). set (a2 := aset a1 (i + 1) _).
  pose proof (aget_store_self contrast data (i + 0)) as H1. fold a1 in H1.
  pose proof (aget_store_self contrast a1 (i + 1)) as H2. fold a2 in H2.
  rewrite aget_store_self, !H2, !H1.
  destruct (Z.leb_spec i p), (Z.ltb_spec p (i + 3)); simpl;
    repeat (case_decide; try lia); subst; try done.
Qed.

Lemma contrastLoops_unfold contrast data :
  contrastLoops contrast data
  = foldl (fun data i => contrastPixel contrast i data) data
      (stepsZ 0 (Z.of_nat (length data)) 4).
Proof. reflexivity. Qed.

Lemma aget_contrast_prefix contrast data (m : nat) p :
  aget (foldl (fun data i => contrastPixel contrast i data) data
          ((fun k => 0 + k * 4) <$> seqZ 0 (Z.of_nat m))) p
  = if (p <? 4 * Z.of_nat m) && (p `mod` 4 <? 3)
    then contrastByte contrast <$> aget data p else aget data p.
Proof.
  induction m as [|m IH].
  - cbn [foldl fmap list_fmap seqZ Z.of_nat Z.to_nat seq].
    change (4 * Z.of_nat 0) with 0.
    destruct (Z.ltb_spec p 0); simpl; [|done].
    unfold aget. destruct (Z.ltb_spec p 0); [|lia]. by case_match.
  - rewrite seqZ_S, fmap_app, foldl_app. simpl.
    rewrite aget_contrastPixel, IH.
    destruct (Z.leb_spec (0 + (0 + Z.of_nat m) * 4) p),
             (Z.ltb_spec p (0 + (0 + Z.of_nat m) * 4 + 3)),
             (Z.ltb_spec p (4 * Z.of_nat m)),
             (Z.ltb_spec p (4 * Z.of_nat (S m))),
             (Z.ltb_spec (p `mod` 4) 3); simpl; try done; try lia.
    all: destruct (aget data p); try done.
    all: exfalso; Z.to_euclidean_division_equations; lia.
Qed.

Lemma aget_contrastLoops contrast data p :
  aget (contrastLoops contrast data) p
  = if p `mod` 4 <? 3 then contrastByte contrast <$> aget data p else aget data p.
Proof.
  rewrite contrastLoops_unfold. unfold stepsZ.
  set (len := Z.of_nat (length data)).
  assert (0 ≤ (len - 0 + 4 - 1) `div` 4) as Hm by (apply Z.div_pos; lia).
  rewrite <- (Z2Nat.id _ Hm), aget_contrast_prefix, Z2Nat.id by done.
  destruct (Z.ltb_spec p (4 * ((len - 0 + 4 - 1) `div` 4))); simpl; [done|].
  assert (len ≤ p) by (Z.to_euclidean_division_equations; lia).
  assert (aget data p = None) as ->.
  { unfold aget. case_match; [done|]. apply lookup_ge_None. lia. }
  by case_match.
Qed.

Lemma length_contrastPixel contrast i data :
  length (contrastPixel contrast i data) = length data.
Proof.
  unfold contrastPixel, forZ. change (seqZ 0 (3 - 0)) with [0; 1; 2]. cbn [foldl].
  by rewrite !length_aset.
Qed.

Lemma length_contrastLoops contrast data :
  length (contrastLoops contrast data) = length data.
Proof.
  rewrite contrastLoops_unfold. generalize (stepsZ 0 (Z.of_nat (length data)) 4).
  intros l. revert data. induction l as [|i l IH]; intros data; [done|].
  simpl. by rewrite IH, length_contrastPixel.
Qed.

Lemma enhanceBlockContrast_spec ctx sx sy bw bh f :
  wellFormed ctx → 0 < bw → 0 < bh →
  ∃ out,
    enhanceBlockContrast ctx sx sy bw bh f = Some out
    ∧ wellFormed out ∧ cwidth out = cwidth ctx ∧ cheight out = cheight ctx
    ∧ ∀ X Y k, 0 ≤ X < cwidth ctx → 0 ≤ Y < cheight ctx → 0 ≤ k < 4 →
        canvasByte out X Y k
        = if inRect sx sy bw bh X Y && (k <? 3)
          then contrastByte (contrastCoefficient f) (canvasByte ctx X Y k)
          else canvasByte ctx X Y k.
Proof.
  intros Hwf Hbw Hbh. unfold enhanceBlockContrast.
  destruct (getImageData_spec ctx sx sy bw bh Hbw Hbh) as (img & -> & Hiw & Hih & Hlen & Hdata).
  simpl. eexists. split; [reflexivity|].
  split; [by apply putImageData_wellFormed|]. split; [done|]. split; [done|].
  intros X Y k HX HY Hk. rewrite canvasByte_putImageData by done. simpl.
  rewrite Hiw, Hih. fold (inRect sx sy bw bh X Y).
  destruct (inRect sx sy bw bh X Y) eqn:Hin; simpl; [|done].
  unfold inRect in Hin.
  apply andb_prop in Hin as [Hin H4]. apply andb_prop in Hin as [Hin H3].
  apply andb_prop in Hin as [H1 H2].
  apply Z.leb_le in H1, H3. apply Z.ltb_lt in H2, H4.
  destruct (Z.ltb_spec k 3) as [Hk3|_]; [|done].
  rewrite aget_contrastLoops, index_mod4 by lia.
  rewrite Hdata by lia. rewrite readByte_colour by lia.
  replace (sx + (X - sx)) with X by lia. replace (sy + (Y - sy)) with Y by lia.
  destruct (Z.ltb_spec k 3); [done|lia].
Qed.

Section ContrastTiles.
Variables (w h : Z) (f : Q).
Lemma contrast_row ctx sy bh (m : nat) :
  wellFormed ctx → cwidth ctx = w → cheight ctx = h → 0 < bh →
  (Z.of_nat m - 1) * 1024 < w ∨ m = 0%nat →
  ∃ out,
    forInM ((fun k => 0 + k * 1024) <$> seqZ 0 (Z.of_nat m))
      (fun startX ctx =>
         enhanceBlockContrast ctx startX sy (Z.min 1024 (w - startX)) bh f) ctx
    = Some out
    ∧ wellFormed out ∧ cwidth out = w ∧ cheight out = h
    ∧ ∀ X Y k, 0 ≤ X < w → 0 ≤ Y < h → 0 ≤ k < 4 →
        canvasByte out X Y k
        = if (X <? Z.of_nat m * 1024) && (sy <=? Y) && (Y <? sy + bh) && (k <? 3)
          then contrastByte (contrastCoefficient f) (canvasByte ctx X Y k) else canvasByte ctx X Y k.
Proof.
  intros Hwf Hcw Hch Hbh. induction m as [|m IH]; intros Hm.
  - exists ctx. split; [reflexivity|]. do 3 (split; [done|]).
    intros X Y k HX HY Hk. destruct (Z.ltb_spec X (Z.of_nat 0 * 1024)); [lia|done].
  - destruct IH as (mid & Hmid & Hwfm & Hcwm & Hchm & Hbytes).
    { destruct m; [by right|left]. destruct Hm as [Hm|Hm]; lia. }
    rewrite seqZ_S, fmap_app. simpl. rewrite forInM_snoc, Hmid. simpl.
    destruct (enhanceBlockContrast_spec mid (0 + (0 + Z.of_nat m) * 1024) sy
                (Z.min 1024 (w - (0 + (0 + Z.of_nat m) * 1024))) bh f)
      as (out & -> & Hwfo & Hcwo & Hcho & Hout); [done| |done|].
    { destruct Hm as [Hm|Hm]; lia. }
    exists out. split; [done|]. split; [done|]. split; [lia|]. split; [lia|].
    intros X Y k HX HY Hk. rewrite Hout, Hbytes by lia.
    unfold inRect.
    destruct (Z.leb_spec (0 + (0 + Z.of_nat m) * 1024) X),
             (Z.ltb_spec X (0 + (0 + Z.of_nat m) * 1024
                            + Z.min 1024 (w - (0 + (0 + Z.of_nat m) * 1024)))),
             (Z.ltb_spec X (Z.of_nat m * 1024)),
             (Z.ltb_spec X (Z.of_nat (S m) * 1024)),
             (Z.leb_spec sy Y), (Z.ltb_spec Y (sy + bh)), (Z.ltb_spec k 3);
      simpl; try done; lia.
Qed.
End ContrastTiles.

Section ContrastRows.
Variables (w h : Z) (f : Q).
Lemma contrast_full_row ctx sy bh :
  wellFormed ctx → cwidth ctx = w → cheight ctx = h → 0 < bh →
  ∃ out,
    forInM (stepsZ 0 w 1024)
      (fun startX ctx =>
         enhanceBlockContrast ctx startX sy (Z.min 1024 (w - startX)) bh f) ctx
    = Some out
    ∧ wellFormed out ∧ cwidth out = w ∧ cheight out = h
    ∧ ∀ X Y k, 0 ≤ X < w → 0 ≤ Y < h → 0 ≤ k < 4 →
        canvasByte out X Y k
        = if (sy <=? Y) && (Y <? sy + bh) && (k <? 3)
          then contrastByte (contrastCoefficient f) (canvasByte ctx X Y k) else canvasByte ctx X Y k.
Proof.
  intros Hwf Hcw Hch Hbh. pose proof Hwf as (Hw & _). rewrite Hcw in Hw.
  unfold stepsZ. set (m := (w - 0 + 1024 - 1) `div` 1024).
  assert (0 < m ∧ (m - 1) * 1024 < w ∧ w ≤ m * 1024) as (Hm0 & Hm1 & Hm2)
    by (unfold m; Z.to_euclidean_division_equations; lia).
  destruct (contrast_row w h f ctx sy bh (Z.to_nat m)) as (out & Hout & ? & ? & ? & Hb);
    [done..| left; lia |].
  rewrite Z2Nat.id in Hout, Hb by lia.
  exists out. split; [done|]. do 3 (split; [done|]).
  intros X Y k HX HY Hk. rewrite Hb by done.
  destruct (Z.ltb_spec X (m * 1024)); [done|lia].
Qed.

Lemma contrast_rows ctx (n : nat) :
  wellFormed ctx → cwidth ctx = w → cheight ctx = h →
  (Z.of_nat n - 1) * 1024 < h ∨ n = 0%nat →
  ∃ out,
    forInM ((fun k => 0 + k * 1024) <$> seqZ 0 (Z.of_nat n))
      (fun startY ctx =>
         forInM (stepsZ 0 w 1024)
           (fun startX ctx =>
              enhanceBlockContrast ctx startX startY
                (Z.min 1024 (w - startX)) (Z.min 1024 (h - startY)) f) ctx) ctx
    = Some out
    ∧ wellFormed out ∧ cwidth out = w ∧ cheight out = h
    ∧ ∀ X Y k, 0 ≤ X < w → 0 ≤ Y < h → 0 ≤ k < 4 →
        canvasByte out X Y k
        = if (Y <? Z.of_nat n * 1024) && (k <? 3)
          then contrastByte (contrastCoefficient f) (canvasByte ctx X Y k) else canvasByte ctx X Y k.
Proof.
  intros Hwf Hcw Hch. induction n as [|n IH]; intros Hn.
  - exists ctx. split; [reflexivity|]. do 3 (split; [done|]).
    intros X Y k HX HY Hk. destruct (Z.ltb_spec Y (Z.of_nat 0 * 1024)); [lia|done].
  - destruct IH as (mid & Hmid & Hwfm & Hcwm & Hchm & Hbytes).
    { destruct n; [by right|left]. destruct Hn as [Hn|Hn]; lia. }
    rewrite seqZ_S, fmap_app. simpl. rewrite forInM_snoc, Hmid. simpl.
    destruct (contrast_full_row mid (0 + (0 + Z.of_nat n) * 1024)
                (Z.min 1024 (h - (0 + (0 + Z.of_nat n) * 1024))))
      as (out & -> & Hwfo & Hcwo & Hcho & Hout); [done..| |].
    { destruct Hn as [Hn|Hn]; lia. }
    exists out. split; [done|]. do 3 (split; [done|]).
    intros X Y k HX HY Hk. rewrite Hout, Hbytes by lia.
    destruct (Z.leb_spec (0 + (0 + Z.of_nat n) * 1024) Y),
             (Z.ltb_spec Y (0 + (0 + Z.of_nat n) * 1024
                            + Z.min 1024 (h - (0 + (0 + Z.of_nat n) * 1024)))),
             (Z.ltb_spec Y (Z.of_nat n * 1024)),
             (Z.ltb_spec Y (Z.of_nat (S n) * 1024)),
             (Z.ltb_spec k 3);
      simpl; try done; lia.
Qed.
End ContrastRows.

Lemma applyContrastEnhancement_spec ctx f :
  wellFormed ctx →
  ∃ out,
    applyContrastEnhancement ctx (cwidth ctx) (cheight ctx) f = Some out
    ∧ wellFormed out ∧ cwidth out = cwidth ctx ∧ cheight out = cheight ctx
    ∧ ∀ X Y k, 0 ≤ X < cwidth ctx → 0 ≤ Y < cheight ctx → 0 ≤ k < 4 →
        canvasByte out X Y k
        = if k <? 3 then contrastByte (contrastCoefficient f) (canvasByte ctx X Y k)
          else canvasByte ctx X Y k.
Proof.
  intros Hwf. pose proof Hwf as (Hw & Hh & _).
  unfold applyContrastEnhancement. unfold stepsZ at 1.
  set (n := (cheight ctx - 0 + 1024 - 1) `div` 1024).
  assert (0 < n ∧ (n - 1) * 1024 < cheight ctx ∧ cheight ctx ≤ n * 1024) as (Hn0 & Hn1 & Hn2)
    by (unfold n; Z.to_euclidean_division_equations; lia).
  destruct (contrast_rows (cwidth ctx) (cheight ctx) f ctx (Z.to_nat n))
    as (out & Hout & ? & ? & ? & Hb); [done..| left; lia |].
  rewrite Z2Nat.id in Hout, Hb by lia.
  exists out. split; [done|]. do 3 (split; [done|]).
  intros X Y k HX HY Hk. rewrite Hb by done.
  destruct (Z.ltb_spec Y (n * 1024)); [done|lia].
Qed.

(** ** Tiled sharpening *)

Lemma centerLoops_writeAll data newData w bw bh padding a :
  centerLoops data newData w bw bh padding a
  = writeAll (fun '(py, px, k) => (py * bw + px) * 4 + k)
      (centerSource data newData w padding) (quads bh bw) a.
Proof.
  unfold centerLoops, forZ, writeAll, quads.
  rewrite foldl_bind_list. apply foldl_pointwise. intros a' py.
  rewrite foldl_bind_list. apply foldl_pointwise. intros a'' px.
  simpl. by rewrite !Z.add_0_r.
Qed.

Lemma aget_centerLoops data newData w bw bh padding a py px k :
  0 ≤ py < bh → 0 ≤ px < bw → 0 ≤ k < 4 →
  Z.of_nat (length a) = 4 * bw * bh →
  aget (centerLoops data newData w bw bh padding a) ((py * bw + px) * 4 + k)
  = Some (JS.ToUint8Clamp (centerSource data newData w padding (py, px, k))).
Proof.
  intros Hy Hx Hk Hlen. rewrite centerLoops_writeAll.
  apply (aget_writeAll_written (fun '(py, px, k) => (py * bw + px) * 4 + k)
           (centerSource data newData w padding) _ a (py, px, k)).
  - by apply elem_of_quads.
  - intros [[py' px'] k'] Hin Heq. apply elem_of_quads in Hin.
    apply position_inj in Heq as (-> & -> & ->); [done|lia..].
  - pose proof (index_bound bw bh px py k). lia.
Qed.

Lemma length_centerLoops data newData w bw bh padding a :
  length (centerLoops data newData w bw bh padding a) = length a.
Proof. rewrite centerLoops_writeAll. apply length_writeAll. Qed.

(** What [processImageBlock] leaves on the canvas: outside the block the
    canvas is untouched, and so is every alpha byte; inside, pixel (X, Y)
    receives the colour bytes that the block copy holds one pixel right
    and below its origin offset. *)
Lemma processImageBlock_spec ctx sx sy bw bh s :
  wellFormed ctx → 0 ≤ sx < cwidth ctx → 0 ≤ sy < cheight ctx → 0 < bw → 0 < bh →
  let x := Z.max 0 (sx - 1) in
  let y := Z.max 0 (sy - 1) in
  let w := Z.min (cwidth ctx - x) (bw + 2 * 1) in
  let h := Z.min (cheight ctx - y) (bh + 2 * 1) in
  ∃ out img,
    processImageBlock ctx sx sy bw bh s = Some out
    ∧ getImageData ctx x y w h = Some img
    ∧ wellFormed out ∧ cwidth out = cwidth ctx ∧ cheight out = cheight ctx
    ∧ (∀ X Y k, 0 ≤ X < cwidth ctx → 0 ≤ Y < cheight ctx → 0 ≤ k < 4 →
         inRect sx sy bw bh X Y && (k <? 3) = false →
         canvasByte out X Y k = canvasByte ctx X Y k)
    ∧ (∀ X Y k, 0 ≤ X < cwidth ctx → 0 ≤ Y < cheight ctx → 0 ≤ k < 3 →
         inRect sx sy bw bh X Y = true →
         canvasByte out X Y k
         = JS.ToUint8Clamp
             (centerSource (idata img)
                (blockLoops (idata img) (sharpenKernel s) w h 1 (idata img))
                w 1 (Y - sy, X - sx, k))).
Proof.
  intros Hwf Hsx Hsy Hbw Hbh x y w h. unfold processImageBlock.
  fold x y. fold w h.
  destruct (getImageData_spec ctx x y w h) as (img & Himg & _ & _ & Hlen & Hdata); [lia..|].
  rewrite Himg. simpl. rewrite createImageData_spec by done. simpl.
  eexists. exists img. split; [reflexivity|]. split; [done|].
  split; [by apply putImageData_wellFormed|]. split; [done|]. split; [done|].
  split.
  - intros X Y k HX HY Hk Hout. rewrite canvasByte_putImageData by done. simpl.
    fold (inRect sx sy bw bh X Y). by rewrite Hout.
  - intros X Y k HX HY Hk Hin. rewrite canvasByte_putImageData by (done || lia). simpl.
    fold (inRect sx sy bw bh X Y). rewrite Hin.
    destruct (Z.ltb_spec k 3); [|lia]. cbn [andb].
    unfold inRect in Hin.
    apply andb_prop in Hin as [Hin H4]. apply andb_prop in Hin as [Hin H3].
    apply andb_prop in Hin as [H1 H2].
    apply Z.leb_le in H1, H3. apply Z.ltb_lt in H2, H4.
    rewrite aget_centerLoops; [|lia..|rewrite length_replicate; lia].
    unfold centerSource. simpl. by destruct (Z.ltb_spec k 3); [|lia].
Qed.

Section TiledSharpening.
Variables (ctx : Canvas) (s : Q).
Hypothesis Hwf : wellFormed ctx.

Lemma tile_preserves X0 Y0 k v c sx sy :
  0 ≤ X0 < cwidth ctx → 0 ≤ Y0 < cheight ctx → 0 ≤ k < 4 →
  0 ≤ sx < cwidth ctx → 0 ≤ sy < cheight ctx →
  X0 < sx ∨ Y0 < sy ∨ k = 3 →
  holdsByte ctx X0 Y0 k v c →
  ∃ c', processImageBlock c sx sy (Z.min 512 (cwidth ctx - sx))
          (Z.min 512 (cheight ctx - sy)) s = Some c'
        ∧ holdsByte ctx X0 Y0 k v c'.
Proof.
  intros HX HY Hk Hsx Hsy Hout (Hwfc & Hcw & Hch & Hv).
  destruct (processImageBlock_spec c sx sy (Z.min 512 (cwidth ctx - sx))
              (Z.min 512 (cheight ctx - sy)) s)
    as (c' & img & Hc' & _ & Hwf' & Hcw' & Hch' & Hframe & _); [done|lia..|].
  exists c'. split; [done|]. split; [done|]. split; [lia|]. split; [lia|].
  rewrite Hframe; [done|lia..|].
  unfold inRect.
  destruct (Z.leb_spec sx X0), (Z.leb_spec sy Y0), (Z.ltb_spec k 3); simpl; try done;
    rewrite ?andb_false_r; try done; lia.
Qed.

Lemma row_preserves X0 Y0 k v c sy (l : list Z) :
  0 ≤ X0 < cwidth ctx → 0 ≤ Y0 < cheight ctx → 0 ≤ k < 4 →
  0 ≤ sy < cheight ctx →
  (∀ sx, sx ∈ l → 0 ≤ sx < cwidth ctx ∧ (X0 < sx ∨ Y0 < sy ∨ k = 3)) →
  holdsByte ctx X0 Y0 k v c →
  ∃ c', forInM l (fun startX ctx' =>
                    processImageBlock ctx' startX sy (Z.min 512 (cwidth ctx - startX))
                      (Z.min 512 (cheight ctx - sy)) s) c = Some c'
        ∧ holdsByte ctx X0 Y0 k v c'.
Proof.
  intros HX HY Hk Hsy Hl Hc.
  apply (forInM_preserves (holdsByte ctx X0 Y0 k v)); [done|].
  intros sx c0 Hin Hc0. destruct (Hl sx Hin) as [Hsx Hout].
  by apply tile_preserves.
Qed.

Lemma tiled_first_tile X0 Y0 k :
  0 ≤ X0 < Z.min 512 (cwidth ctx) → 0 ≤ Y0 < Z.min 512 (cheight ctx) → 0 ≤ k < 3 →
  let w := Z.min (cwidth ctx) (Z.min 512 (cwidth ctx) + 2) in
  let h := Z.min (cheight ctx) (Z.min 512 (cheight ctx) + 2) in
  ∃ out img,
    applyOptimizedSharpening ctx (cwidth ctx) (cheight ctx) s = Some out
    ∧ wellFormed out ∧ cwidth out = cwidth ctx ∧ cheight out = cheight ctx
    ∧ getImageData ctx 0 0 w h = Some img
    ∧ canvasByte out X0 Y0 k
      = JS.ToUint8Clamp
          (centerSource (idata img)
             (blockLoops (idata img) (sharpenKernel s) w h 1 (idata img))
             w 1 (Y0, X0, k)).
Proof.
  intros HX HY Hk w h. pose proof Hwf as (Hw & Hh & _).
  unfold applyOptimizedSharpening.
  destruct (stepsZ_cons (cheight ctx) 512) as (restY & -> & HrestY); [lia..|].
  rewrite forInM_cons. cbv beta.
  destruct (stepsZ_cons (cwidth ctx) 512) as (restX & HeqX & HrestX); [lia..|].
  destruct (processImageBlock_spec ctx 0 0 (Z.min 512 (cwidth ctx - 0))
              (Z.min 512 (cheight ctx - 0)) s)
    as (c1 & img & Hc1 & Himg & Hwf1 & Hcw1 & Hch1 & _ & Hin); [done|lia..|].
  change (2 * 1) with 2 in *.
  change (Z.max 0 (0 - 1)) with 0 in *. rewrite !Z.sub_0_r in Himg, Hin.
  fold w h in Himg, Hin.
  set (v := JS.ToUint8Clamp
              (centerSource (idata img)
                 (blockLoops (idata img) (sharpenKernel s) w h 1 (idata img))
                 w 1 (Y0, X0, k))).
  assert (holdsByte ctx X0 Y0 k v c1) as Hp1.
  { split; [done|]. split; [done|]. split; [done|].
    rewrite Hin; [|lia..|].
    - by rewrite !Z.sub_0_r.
    - unfold inRect.
      destruct (Z.leb_spec 0 X0), (Z.ltb_spec X0 (0 + Z.min 512 (cwidth ctx))),
               (Z.leb_spec 0 Y0), (Z.ltb_spec Y0 (0 + Z.min 512 (cheight ctx)));
        simpl; try done; lia. }
  destruct (row_preserves X0 Y0 k v c1 0 restX) as (c2 & Hc2 & Hp2); [lia..| |done|].
  { intros sx Hsx. apply HrestX in Hsx. lia. }
  assert (forInM (stepsZ 0 (cwidth ctx) 512)
            (fun startX ctx0 =>
               processImageBlock ctx0 startX 0 (Z.min 512 (cwidth ctx - startX))
                 (Z.min 512 (cheight ctx - 0)) s) ctx = Some c2) as Hrow.
  { rewrite HeqX, forInM_cons, Hc1. exact Hc2. }
  destruct (forInM_preserves (holdsByte ctx X0 Y0 k v) restY
              (fun startY ctx0 =>
                 forInM (stepsZ 0 (cwidth ctx) 512)
                   (fun startX ctx1 =>
                      processImageBlock ctx1 startX startY
                        (Z.min 512 (cwidth ctx - startX))
                        (Z.min 512 (cheight ctx - startY)) s) ctx0) c2)
    as (out & Hout & Hwfo & Hcwo & Hcho & Hbyte); [done| |].
  { intros sy c0 Hsy Hc0. apply HrestY in Hsy.
    apply row_preserves; [lia..| |done].
    intros sx (j & -> & Hj0 & Hj)%elem_of_stepsZ; [|lia]. lia. }
  exists out, img. rewrite Hrow. simpl. rewrite Hout. done.
Qed.
End TiledSharpening.

(** The tiled path never raises on a well-formed canvas. *)
Lemma applyOptimizedSharpening_total ctx s :
  wellFormed ctx →
  ∃ out,
    applyOptimizedSharpening ctx (cwidth ctx) (cheight ctx) s = Some out
    ∧ wellFormed out ∧ cwidth out = cwidth ctx ∧ cheight out = cheight ctx.
Proof.
  intros Hwf. pose proof Hwf as (Hw0 & Hh0 & _).
  destruct (tiled_first_tile ctx s Hwf 0 0 0)
    as (out & img & Hout & Hwfo & Hcw & Hch & _); [lia..|].
  by exists out.
Qed.

(** ** Kernel, contrast and tiling *)

Lemma aget_in_range a i : 0 ≤ i < Z.of_nat (length a) → is_Some (aget a i).
Proof.
  intros Hi. unfold aget. destruct (Z.ltb_spec i 0); [lia|].
  apply lookup_lt_is_Some. lia.
Qed.

(** The convolution loops on any buffer of [w * h] pixels: an interior
    colour byte becomes the clamped five-point value of the source. *)
Lemma sharpenLoops_interior_value data s w h y x c :
  1 ≤ y < h - 1 → 1 ≤ x < w - 1 → 0 ≤ c < 3 →
  Z.of_nat (length data) = 4 * w * h →
  aget (sharpenLoops data (sharpenKernel s) w h data) ((y * w + x) * 4 + c)
  = Some (clampByte (sharpenValue s (byteAt data w y x c)
                       (byteAt data w (y - 1) x c) (byteAt data w (y + 1) x c)
                       (byteAt data w y (x - 1) c) (byteAt data w y (x + 1) c))).
Proof.
  intros Hy Hx Hc Hlen.
  rewrite aget_sharpenLoops_interior by (lia || nia).
  destruct (kernelSum_sharpenKernel data s w y x c) as (q & -> & Hq).
  { intros ky kx Hky Hkx. apply aget_in_range. nia. }
  f_equal. by apply clampByte_proper.
Qed.

Lemma blockLoops_sharpenLoops data kernel w h newData :
  blockLoops data kernel w h 1 newData = sharpenLoops data kernel w h newData.
Proof. reflexivity. Qed.

Lemma strength_exceeds_iff level s :
  level = 1 ∨ level = 2 ∨ level = 3 →
  enhancementLevels level = Some s →
  (JS.Qlt_bool (6 # 10) s = true ↔ level = 3)
  ∧ ((6 # 10 < s)%Q ↔ level = 3)
  ∧ Qeq_bool s 0 = false.
Proof.
  intros [-> | [-> | ->]] Hs; injection Hs as <-; (split; [|split]);
    try reflexivity; split; try discriminate; try reflexivity; lia.
Qed.

(** The two stages of the full enhancement at levels 1 to 3. *)
Lemma applyOptimizedEnhancement_stages ctx w h level s sharp :
  level = 1 ∨ level = 2 ∨ level = 3 →
  enhancementLevels level = Some s →
  (if w * h <? 1024 * 1024
   then applyHighQualitySharpening ctx w h s
   else applyOptimizedSharpening ctx w h s) = Some sharp →
  applyOptimizedEnhancement ctx w h level
  = (if level =? 3
     then applyContrastEnhancement sharp w h ((s - (6 # 10)) * (1 # 2))%Q
     else Some sharp).
Proof.
  intros Hlevel Hs Hsharp.
  destruct (strength_exceeds_iff level s Hlevel Hs) as (_ & _ & Hnz).
  unfold applyOptimizedEnhancement. rewrite Hs. simpl. rewrite Hnz, Hsharp. simpl.
  clear -Hlevel Hs.
  destruct Hlevel as [-> | [-> | ->]]; injection Hs as <-; reflexivity.
Qed.

(** Below 1024 x 1024 pixels the full enhancement is the single pass,
    followed at level 3, where alone the strength exceeds 0.6, by the
    contrast pass.  Each interior colour byte is stored as the value of
    the 3x3 kernel with centre weight [1 + 4 s], the four orthogonal
    neighbours weighted [- s] and no corner term; the contrast pass has
    the factor [f = (s - 0.6) * 0.5] and the coefficient
    [c = (f + 1)^2 / (f (f + 1) + 1)], and maps every colour byte [v] to
    [((v / 255 - 0.5) * c + 0.5) * 255], clamped. *)
Lemma enhancement_below_threshold ctx level s :
  wellFormed ctx →
  cwidth ctx * cheight ctx < 1024 * 1024 →
  level = 1 ∨ level = 2 ∨ level = 3 →
  enhancementLevels level = Some s →
  let w := cwidth ctx in
  let h := cheight ctx in
  let f := ((s - (6 # 10)) * (1 # 2))%Q in
  let c := ((f + 1) * (f + 1) / (f * (f + 1) + 1))%Q in
  s = (if level =? 1 then 3 # 10 else if level =? 2 then 6 # 10 else 1)%Q
  ∧ ((6 # 10 < s)%Q ↔ level = 3)
  ∧ contrastCoefficient f = c
  ∧ ∃ sharp out,
      applyHighQualitySharpening ctx w h s = Some sharp
      ∧ applyOptimizedEnhancement ctx w h level = Some out
      ∧ (∀ X Y k, interior w h X Y → 0 ≤ k < 3 →
           storedAs (canvasByte sharp X Y k)
             (sharpenValue s (canvasByte ctx X Y k)
                (canvasByte ctx X (Y - 1) k) (canvasByte ctx X (Y + 1) k)
                (canvasByte ctx (X - 1) Y k) (canvasByte ctx (X + 1) Y k)))
      ∧ (∀ X Y k, 0 ≤ X < w → 0 ≤ Y < h → 0 ≤ k < 3 →
           canvasByte out X Y k
           = if level =? 3
             then clampByte
                    (((inject_Z (canvasByte sharp X Y k) / 255 - (1 # 2)) * c
                      + (1 # 2)) * 255)%Q
             else canvasByte sharp X Y k).
Proof.
  intros Hwf Hsmall Hlevel Hs w h f c.
  destruct (strength_exceeds_iff level s Hlevel Hs) as (Hgt & Hgt' & Hnz).
  split.
  { destruct Hlevel as [-> | [-> | ->]]; by injection Hs as <-. }
  split; [done|]. split; [reflexivity|].
  destruct (applyHighQualitySharpening_spec ctx s Hwf)
    as (sharp & Hsharp & Hwfs & Hcw & Hch & Hint & _).
  destruct (applyContrastEnhancement_spec sharp f Hwfs) as (con & Hcon & _ & _ & _ & Hbytes).
  rewrite Hcw, Hch in Hcon, Hbytes.
  assert (applyOptimizedEnhancement ctx w h level
          = (if level =? 3 then applyContrastEnhancement sharp w h f else Some sharp))
    as Hfull.
  { apply applyOptimizedEnhancement_stages; [done..|].
    by destruct (Z.ltb_spec (w * h) (1024 * 1024)); [|unfold w, h in *; lia]. }
  exists sharp, (if level =? 3 then con else sharp).
  split; [done|]. split. { rewrite Hfull. by destruct (level =? 3). }
  split.
  - intros X Y k Hin Hk. rewrite (Hint X Y k Hin Hk). apply clampByte_storedAs.
  - intros X Y k HX HY Hk. destruct (level =? 3); [|done].
    rewrite Hbytes by lia. by destruct (Z.ltb_spec k 3); [|lia].
Qed.

Lemma canvasByte_range c X Y k : validBytes c → 0 ≤ canvasByte c X Y k ≤ 255.
Proof.
  intros Hb. unfold canvasByte. case_match; [|lia].
  destruct (pixels c !! _) as [b|] eqn:E; simpl; [|lia].
  by apply (Forall_lookup_1 _ _ _ _ Hb E).
Qed.

(** The buffer that the single pass writes back. *)
Lemma applyHighQualitySharpening_buffer ctx s img :
  wellFormed ctx →
  getImageData ctx 0 0 (cwidth ctx) (cheight ctx) = Some img →
  ∃ out,
    applyHighQualitySharpening ctx (cwidth ctx) (cheight ctx) s = Some out
    ∧ ∀ X Y k, 0 ≤ X < cwidth ctx → 0 ≤ Y < cheight ctx → 0 ≤ k < 3 →
        aget (sharpenLoops (idata img) (sharpenKernel s) (cwidth ctx) (cheight ctx)
                (idata img))
             ((Y * cwidth ctx + X) * 4 + k)
        = Some (canvasByte out X Y k).
Proof.
  intros Hwf Himg. pose proof Hwf as (Hw & Hh & _).
  destruct (getImageData_spec ctx 0 0 (cwidth ctx) (cheight ctx) Hw Hh)
    as (img' & Himg' & _ & _ & Hlen & _).
  rewrite Himg in Himg'. injection Himg' as <-.
  unfold applyHighQualitySharpening. rewrite Himg. simpl.
  unfold newImageData. rewrite length_sharpenLoops.
  destruct (Z.ltb_spec 0 (cwidth ctx)); [|lia]. destruct (Z.ltb_spec 0 (cheight ctx)); [|lia].
  destruct (Z.eqb_spec (Z.of_nat (length (idata img))) (4 * cwidth ctx * cheight ctx)); [|lia].
  simpl. eexists. split; [reflexivity|].
  intros X Y k HX HY Hk. rewrite canvasByte_putImageData by (done || lia). simpl.
  destruct (Z.leb_spec 0 X); [|lia]. destruct (Z.ltb_spec X (0 + cwidth ctx)); [|lia].
  destruct (Z.leb_spec 0 Y); [|lia]. destruct (Z.ltb_spec Y (0 + cheight ctx)); [|lia].
  destruct (Z.ltb_spec k 3); [|lia].
  simpl. rewrite !Z.sub_0_r.
  destruct (aget_in_range (sharpenLoops (idata img) (sharpenKernel s) (cwidth ctx)
                             (cheight ctx) (idata img))
              ((Y * cwidth ctx + X) * 4 + k)) as [v ->]; [|done].
  rewrite length_sharpenLoops.
  pose proof (index_bound (cwidth ctx) (cheight ctx) X Y k). lia.
Qed.

(** Inside one tile the tiled path returns the single-pass result moved
    one pixel up and to the left. *)
Lemma tiled_is_shifted_single_pass ctx s X Y k :
  wellFormed ctx → validBytes ctx →
  cwidth ctx ≤ 512 → cheight ctx ≤ 512 →
  0 ≤ X → X + 1 < cwidth ctx → 0 ≤ Y → Y + 1 < cheight ctx → 0 ≤ k < 3 →
  ∃ single tiled,
    applyHighQualitySharpening ctx (cwidth ctx) (cheight ctx) s = Some single
    ∧ applyOptimizedSharpening ctx (cwidth ctx) (cheight ctx) s = Some tiled
    ∧ canvasByte tiled X Y k = canvasByte single (X + 1) (Y + 1) k.
Proof.
  intros Hwf Hbytes Hw Hh HX0 HX HY0 HY Hk.
  destruct (tiled_first_tile ctx s Hwf X Y k)
    as (tiled & img & Htiled & _ & _ & _ & Himg & Hbyte); [lia..|].
  replace (Z.min (cwidth ctx) (Z.min 512 (cwidth ctx) + 2)) with (cwidth ctx) in * by lia.
  replace (Z.min (cheight ctx) (Z.min 512 (cheight ctx) + 2)) with (cheight ctx) in * by lia.
  destruct (applyHighQualitySharpening_buffer ctx s img Hwf Himg) as (single & Hsingle & Hbuf).
  exists single, tiled. do 2 (split; [done|]).
  rewrite Hbyte. unfold centerSource.
  destruct (Z.ltb_spec k 3); [|lia].
  rewrite blockLoops_sharpenLoops, Hbuf by lia. simpl.
  apply ToUint8Clamp_byte.
  destruct (applyHighQualitySharpening_spec ctx s Hwf)
    as (single' & Hsingle' & _ & _ & _ & Hint & Hrest).
  rewrite Hsingle in Hsingle'. injection Hsingle' as <-.
  destruct (decide (interior (cwidth ctx) (cheight ctx) (X + 1) (Y + 1))) as [Hin|Hout].
  - rewrite Hint by (done || lia). apply clampByte_range.
  - rewrite Hrest; [by apply canvasByte_range|lia..|]. intros [? _]. done.
Qed.

(** C1.  On the 4x4 sample, far below the tiling threshold and inside one
    512-pixel tile, the tiled path and the single-pass path disagree on
    the interior pixel (2,1) by more than one unit at each of the three
    strengths: the tile is written back one pixel up and to the left, so
    that (2,1) receives the untouched border pixel (3,2) and (0,0)
    receives the sharpened pixel (1,1). *)
Theorem tiled_path_differs_from_single_pass :
  ∀ level strength,
    level = 1 ∨ level = 2 ∨ level = 3 →
    enhancementLevels level = Some strength →
    ∃ single tiled,
      applyHighQualitySharpening Samples.canvas4 4 4 strength = Some single
      ∧ applyOptimizedSharpening Samples.canvas4 4 4 strength = Some tiled
      ∧ interior 4 4 2 1
      ∧ 1 < absDiff (canvasByte single 2 1 0) (canvasByte tiled 2 1 0)
      ∧ canvasByte tiled 2 1 0 = canvasByte Samples.canvas4 3 2 0
      ∧ canvasByte tiled 0 0 0 = canvasByte single 1 1 0.
Proof.
  intros level strength Hl Hs.
  destruct Hl as [-> | [-> | ->]]; injection Hs as <-;
    (eexists; eexists; split; [vm_compute; reflexivity |];
     split; [vm_compute; reflexivity |];
     split; [unfold interior; lia |]; repeat split).
Qed.

Lemma tiled_path_differs_from_single_pass_witness :
  ∃ single tiled,
    applyHighQualitySharpening Samples.canvas4 4 4 1 = Some single
    ∧ applyOptimizedSharpening Samples.canvas4 4 4 1 = Some tiled
    ∧ interior 4 4 2 1
    ∧ 1 < absDiff (canvasByte single 2 1 0) (canvasByte tiled 2 1 0)
    ∧ canvasByte tiled 2 1 0 = canvasByte Samples.canvas4 3 2 0
    ∧ canvasByte tiled 0 0 0 = canvasByte single 1 1 0.
Proof.
  apply (tiled_path_differs_from_single_pass 3 1%Q); [right; right; reflexivity | reflexivity].
Defined.

(** The first tile of the tiled path, seen from the canvas: pixel
    (X, Y) receives the kernel value of the pixel one to the right and
    one below. *)
Lemma tiled_first_tile_value ctx s X Y k :
  wellFormed ctx →
  0 ≤ X < Z.min 512 (cwidth ctx - 2) → 0 ≤ Y < Z.min 512 (cheight ctx - 2) → 0 ≤ k < 3 →
  ∃ sharp,
    applyOptimizedSharpening ctx (cwidth ctx) (cheight ctx) s = Some sharp
    ∧ canvasByte sharp X Y k
      = clampByte (sharpenValue s (canvasByte ctx (X + 1) (Y + 1) k)
                     (canvasByte ctx (X + 1) Y k) (canvasByte ctx (X + 1) (Y + 2) k)
                     (canvasByte ctx X (Y + 1) k) (canvasByte ctx (X + 2) (Y + 1) k)).
Proof.
  intros Hwf HX HY Hk. pose proof Hwf as (Hw0 & Hh0 & _).
  destruct (tiled_first_tile ctx s Hwf X Y k)
    as (sharp & img & Hsharp & _ & _ & _ & Himg & Hbyte); [lia..|].
  set (w := Z.min (cwidth ctx) (Z.min 512 (cwidth ctx) + 2)) in *.
  set (h := Z.min (cheight ctx) (Z.min 512 (cheight ctx) + 2)) in *.
  destruct (getImageData_spec ctx 0 0 w h) as (img' & Himg' & _ & _ & Hlen & Hdata);
    [unfold w; lia | unfold h; lia |].
  rewrite Himg in Himg'. injection Himg' as <-.
  exists sharp. split; [done|]. rewrite Hbyte. unfold centerSource.
  destruct (Z.ltb_spec k 3); [|lia].
  rewrite blockLoops_sharpenLoops.
  rewrite sharpenLoops_interior_value by (unfold w, h; lia). cbn [JS.ofElem].
  rewrite ToUint8Clamp_byte by apply clampByte_range.
  assert (∀ x y, 0 ≤ x < w → 0 ≤ y < h →
            byteAt (idata img) w y x k = canvasByte ctx x y k) as Hb.
  { intros x y Hx Hy. unfold byteAt. rewrite Hdata by lia. simpl.
    rewrite readByte_colour by lia. f_equal; lia. }
  rewrite !Hb by (unfold w, h; lia).
  do 2 f_equal; f_equal; lia.
Qed.

Lemma wellFormed_ramp : wellFormed Samples.ramp.
Proof.
  split; [reflexivity|]. split; [reflexivity|].
  unfold Samples.ramp. cbn [pixels cwidth cheight].
  rewrite length_fmap, length_seqZ. apply Z2Nat.id. lia.
Qed.

Lemma canvasByte_ramp X Y k :
  0 ≤ X < 2048 → 0 ≤ Y < 512 → 0 ≤ k < 4 →
  canvasByte Samples.ramp X Y k = Samples.rampByte ((Y * 2048 + X) * 4 + k).
Proof.
  intros HX HY Hk. unfold canvasByte, Samples.ramp. cbn [pixels cwidth cheight].
  destruct (Z.leb_spec 0 X); [|lia]. destruct (Z.ltb_spec X 2048); [|lia].
  destruct (Z.leb_spec 0 Y); [|lia]. destruct (Z.ltb_spec Y 512); [|lia].
  cbn [andb]. rewrite list_lookup_fmap, lookup_seqZ_lt by lia. simpl.
  f_equal. lia.
Qed.

(** C3.  From 1024 x 1024 pixels on the enhancement computes the stated
    kernel but does not leave its value at the pixel it was computed
    for.  In the first tile pixel (X, Y) is stored as the kernel value of
    pixel (X + 1, Y + 1): as a filter of the image, the output at (X, Y)
    gives the weight [1 + 4 s] to the lower right neighbour of (X, Y) and
    none to (X, Y) itself.  The contrast pass follows at level 3 as
    stated. *)
Theorem large_image_kernel_is_displaced ctx level s :
  wellFormed ctx →
  1024 * 1024 ≤ cwidth ctx * cheight ctx →
  level = 1 ∨ level = 2 ∨ level = 3 →
  enhancementLevels level = Some s →
  let w := cwidth ctx in
  let h := cheight ctx in
  let f := ((s - (6 # 10)) * (1 # 2))%Q in
  ∃ sharp out,
    applyOptimizedSharpening ctx w h s = Some sharp
    ∧ applyOptimizedEnhancement ctx w h level = Some out
    ∧ (∀ X Y k, 0 ≤ X < Z.min 512 (w - 2) → 0 ≤ Y < Z.min 512 (h - 2) → 0 ≤ k < 3 →
         storedAs (canvasByte sharp X Y k)
           (sharpenValue s (canvasByte ctx (X + 1) (Y + 1) k)
              (canvasByte ctx (X + 1) Y k) (canvasByte ctx (X + 1) (Y + 2) k)
              (canvasByte ctx X (Y + 1) k) (canvasByte ctx (X + 2) (Y + 1) k)))
    ∧ (∀ X Y k, 0 ≤ X < w → 0 ≤ Y < h → 0 ≤ k < 3 →
         canvasByte out X Y k
         = if level =? 3
           then contrastByte (contrastCoefficient f) (canvasByte sharp X Y k)
           else canvasByte sharp X Y k).
Proof.
  intros Hwf Hlarge Hlevel Hs w h f.
  destruct (applyOptimizedSharpening_total ctx s Hwf) as (sharp & Hsharp & Hwfs & Hcw & Hch).
  destruct (applyContrastEnhancement_spec sharp f Hwfs) as (con & Hcon & _ & _ & _ & Hbytes).
  rewrite Hcw, Hch in Hcon, Hbytes.
  assert (applyOptimizedEnhancement ctx w h level
          = (if level =? 3 then applyContrastEnhancement sharp w h f else Some sharp))
    as Hfull.
  { apply applyOptimizedEnhancement_stages; [done..|].
    by destruct (Z.ltb_spec (w * h) (1024 * 1024)); [unfold w, h in *; lia|]. }
  exists sharp, (if level =? 3 then con else sharp).
  split; [done|]. split. { rewrite Hfull. by destruct (level =? 3). }
  split.
  - intros X Y k HX HY Hk.
    destruct (tiled_first_tile_value ctx s X Y k Hwf HX HY Hk) as (sharp' & Hsharp' & Hval).
    rewrite Hsharp in Hsharp'. injection Hsharp' as <-.
    rewrite Hval. apply clampByte_storedAs.
  - intros X Y k HX HY Hk. destruct (level =? 3); [|done].
    rewrite Hbytes by lia. by destruct (Z.ltb_spec k 3); [|lia].
Qed.

Lemma large_image_kernel_is_displaced_witness :
  canvasByte Samples.ramp 1 1 0 = 30
  ∧ clampByte (sharpenValue (6 # 10) 30 20 40 10 50) = 30
  ∧ ∃ out,
      applyOptimizedEnhancement Samples.ramp 2048 512 2 = Some out
      ∧ canvasByte out 1 1 0 = 60.
Proof.
  split; [by rewrite canvasByte_ramp by lia|]. split; [reflexivity|].
  destruct (large_image_kernel_is_displaced Samples.ramp 2 (6 # 10)%Q)
    as (sharp & out & _ & Hout & Hvalue & Hbytes).
  - exact wellFormed_ramp.
  - discriminate.
  - right. left. reflexivity.
  - reflexivity.
  - exists out. split; [exact Hout|].
    rewrite (Hbytes 1 1 0) by (cbn; lia). cbn [Z.eqb Pos.eqb].
    apply (storedAs_whole _ 60 _ (Hvalue 1 1 0 ltac:(cbn; lia) ltac:(cbn; lia) ltac:(lia))).
    rewrite !canvasByte_ramp by lia. reflexivity.
Defined.

(** ** Alpha *)





(** ** Level 0 *)

(** C2.  At enhancement level 0 the single-image operation
    [enhanceImageSafely] returns the payload it was given and the batch
    operation [enhanceImagesBatch] returns the very list it was given:
    nothing is decoded, re-encoded or copied, whatever the platform, the
    memory readings and the progress callback. *)
Theorem level_zero_returns_input :
  (∀ pf mm heap imageDataUrl,
      enhanceImageSafely pf mm heap imageDataUrl 0 = Some imageDataUrl)
  ∧ (∀ pf mm tl memoryInfo files progressCallback,
      enhanceImagesBatch pf mm tl memoryInfo files 0 progressCallback = Returned files).
Proof. split; reflexivity. Qed.

(** ** The resource budget *)

Section Budget.
Import ImageEnhancerMobile.

(** C7, as stated: at tier low the budget would cap images at
    1,048,576 pixels.  It does not. *)
Lemma low_tier_budget_not_one_megapixel :
  ¬ (maxImageSize (getOptimizationSettings low) = 1048576
     ∧ maxBatchSize (getOptimizationSettings low) = 1
     ∧ processingDelay (getOptimizationSettings low) = 500
     ∧ (qualityReduction (getOptimizationSettings low) == 2 # 10)%Q).
Proof. intros [H _]. vm_compute in H. discriminate H. Qed.

(** C7, amended.  At tier low the budget is 1024 x 768 = 786,432
    pixels, batch size 1, a delay of 500 ms and a quality reduction of
    0.2. *)
Theorem low_tier_budget :
  maxImageSize (getOptimizationSettings low) = 786432
  ∧ maxImageSize (getOptimizationSettings low) = 1024 * 768
  ∧ maxBatchSize (getOptimizationSettings low) = 1
  ∧ processingDelay (getOptimizationSettings low) = 500
  ∧ (qualityReduction (getOptimizationSettings low) == 2 # 10)%Q.
Proof. repeat split. Qed.

(** The cap of one megapixel belongs to the memory manager, which keys
    it on the memory of a mobile device, not on the tier. *)
Lemma memory_manager_one_megapixel :
  MemoryManager.getMaxImageSize 2 true = 1048576
  ∧ MemoryManager.getMaxImageSize 8 false = 3840 * 2160.
Proof. split; reflexivity. Qed.

(** C8.  The battery override followed by the charging override, on
    the tier's base budget: tier low at battery 0.1, discharging, ends
    with a delay of at least 1000 ms and batch size 1; tier high at
    battery 0.9, charging, ends with a delay of exactly 100 ms and a
    batch size of 2 or 3.  Charging takes 100 ms off the delay, never
    going below 100 ms, and discharging adds 100 ms. *)
Theorem battery_and_charging_overrides :
  (let s := initialBatteryOptimization low (getOptimizationSettings low) (1 # 10) false in
   1000 ≤ processingDelay s ∧ maxBatchSize s = 1)
  ∧ (let s := initialBatteryOptimization high (getOptimizationSettings high) (9 # 10) true in
     processingDelay s = 100 ∧ (maxBatchSize s = 2 ∨ maxBatchSize s = 3))
  ∧ (∀ s, processingDelay (adjustForChargingState s true)
          = Z.max 100 (processingDelay s - 100)
          ∧ 100 ≤ processingDelay (adjustForChargingState s true))
  ∧ (∀ s, processingDelay (adjustForChargingState s false) = processingDelay s + 100).
Proof.
  split; [|split; [|split]].
  - vm_compute. split; [discriminate | reflexivity].
  - vm_compute. split; [reflexivity | left; reflexivity].
  - intros s. simpl. lia.
  - intros s. reflexivity.
Qed.
End Budget.

(** ** The lightweight variant *)

Lemma cpuSum_value data w s y x c :
  (∀ ky kx, -1 ≤ ky ≤ 1 → -1 ≤ kx ≤ 1 →
            is_Some (aget data (((y + ky) * w + (x + kx)) * 4 + c))) →
  ∃ q, cpuSum data w s y x c = JS.Num q
       ∧ (q == sharpenValue s (byteAt data w y x c)
                 (byteAt data w (y - 1) x c) (byteAt data w (y + 1) x c)
                 (byteAt data w y (x - 1) c) (byteAt data w y (x + 1) c))%Q.
Proof.
  intros Hin. unfold cpuSum, byteAt.
  replace ((y * w + x) * 4 + c - 4) with ((y * w + (x - 1)) * 4 + c) by lia.
  replace ((y * w + x) * 4 + c + 4) with ((y * w + (x + 1)) * 4 + c) by lia.
  replace ((y * w + x) * 4 + c - w * 4) with (((y - 1) * w + x) * 4 + c) by lia.
  replace ((y * w + x) * 4 + c + w * 4) with (((y + 1) * w + x) * 4 + c) by lia.
  destruct (Hin 0 0) as [v1 H1]; [lia..|].
  destruct (Hin 0 (-1)) as [v2 H2]; [lia..|].
  destruct (Hin 0 1) as [v3 H3]; [lia..|].
  destruct (Hin (-1) 0) as [v4 H4]; [lia..|].
  destruct (Hin 1 0) as [v5 H5]; [lia..|].
  replace ((y + 0) * w + (x + 0)) with (y * w + x) in H1 by lia.
  replace ((y + 0) * w + (x + -1)) with (y * w + (x - 1)) in H2 by lia.
  replace ((y + 0) * w + (x + 1)) with (y * w + (x + 1)) in H3 by lia.
  replace ((y + -1) * w + (x + 0)) with ((y - 1) * w + x) in H4 by lia.
  replace ((y + 1) * w + (x + 0)) with ((y + 1) * w + x) in H5 by lia.
  rewrite H1, H2, H3, H4, H5. simpl.
  eexists. split; [reflexivity|]. unfold sharpenValue. ring.
Qed.

(** The lightweight pass: the same five-point value, in one expression. *)
Lemma applyCPUSharpening_spec ctx s :
  wellFormed ctx →
  ∃ out,
    ImageEnhancerMobile.applyCPUSharpening ctx (cwidth ctx) (cheight ctx) s = Some out
    ∧ (∀ X Y k, interior (cwidth ctx) (cheight ctx) X Y → 0 ≤ k < 3 →
         canvasByte out X Y k
         = clampByte (sharpenValue s (canvasByte ctx X Y k)
                        (canvasByte ctx X (Y - 1) k) (canvasByte ctx X (Y + 1) k)
                        (canvasByte ctx (X - 1) Y k) (canvasByte ctx (X + 1) Y k)))
    ∧ (∀ X Y k, 0 ≤ X < cwidth ctx → 0 ≤ Y < cheight ctx → 0 ≤ k < 4 →
         ¬ (interior (cwidth ctx) (cheight ctx) X Y ∧ k < 3) →
         canvasByte out X Y k = canvasByte ctx X Y k).
Proof.
  intros Hwf. pose proof Hwf as (Hw & Hh & Hlen).
  set (w := cwidth ctx) in *. set (h := cheight ctx) in *.
  unfold ImageEnhancerMobile.applyCPUSharpening.
  destruct (getImageData_spec ctx 0 0 w h Hw Hh) as (img & -> & _ & _ & Hdlen & Hdata).
  simpl. set (data := idata img) in *.
  assert (∀ X Y k, 0 ≤ X < w → 0 ≤ Y < h → 0 ≤ k < 3 →
                   aget data ((Y * w + X) * 4 + k) = Some (canvasByte ctx X Y k)) as Hd.
  { intros X Y k HX HY Hk. rewrite Hdata by lia. by rewrite readByte_colour by lia. }
  rewrite (forZ3_writeAll (fun y x c => (y * w + x) * 4 + c)
             (fun y x c => clampNum (cpuSum data w s y x c))).
  set (pos := fun '(y, x, c) => (y * w + x) * 4 + c).
  set (val := fun '(y, x, c) => clampNum (cpuSum data w s y x c)).
  unfold newImageData. rewrite length_writeAll.
  destruct (Z.ltb_spec 0 w); [|lia]. destruct (Z.ltb_spec 0 h); [|lia].
  destruct (Z.eqb_spec (Z.of_nat (length data)) (4 * w * h)); [|lia]. simpl.
  eexists. split; [reflexivity|].
  assert (∀ X Y k, 0 ≤ X < w → 0 ≤ Y < h → 0 ≤ k < 4 →
            canvasByte (putImageData ctx
              (mkImageData w h (writeAll pos val (triples 1 (h - 1) 1 (w - 1)) data)) 0 0)
              X Y k
            = if k <? 3
              then default (canvasByte ctx X Y k)
                     (aget (writeAll pos val (triples 1 (h - 1) 1 (w - 1)) data)
                        ((Y * w + X) * 4 + k))
              else canvasByte ctx X Y k)
    as Hput.
  { intros X Y k HX HY Hk. rewrite canvasByte_putImageData by done. simpl.
    destruct (Z.leb_spec 0 X); [|lia]. destruct (Z.ltb_spec X (0 + w)); [|lia].
    destruct (Z.leb_spec 0 Y); [|lia]. destruct (Z.ltb_spec Y (0 + h)); [|lia].
    simpl. by rewrite !Z.sub_0_r. }
  split.
  - intros X Y k [HX HY] Hk. rewrite Hput by lia.
    destruct (Z.ltb_spec k 3); [|lia].
    rewrite (aget_writeAll_written pos val _ data (Y, X, k)).
    + simpl. destruct (cpuSum_value data w s Y X k) as (q & -> & Hq).
      { intros ky kx Hky Hkx. rewrite Hd by lia. done. }
      unfold byteAt in Hq. rewrite !Hd in Hq by lia. simpl in Hq.
      by apply clampByte_proper.
    + by apply elem_of_triples.
    + intros [[y' x'] c'] Hin Heq. apply elem_of_triples in Hin.
      apply position_inj in Heq as (-> & -> & ->); [done|lia..].
    + simpl. pose proof (index_bound w h X Y k). lia.
  - intros X Y k HX HY Hk Hnot. rewrite Hput by lia.
    destruct (Z.ltb_spec k 3); [|done].
    rewrite aget_writeAll_other.
    + by rewrite Hd by lia.
    + intros [[y x] c] Hin Heq. apply elem_of_triples in Hin. simpl in Heq.
      apply position_inj in Heq as (-> & -> & ->); [|lia..].
      apply Hnot. unfold interior. lia.
Qed.

(** At levels 1 to 3 the lightweight variant is that pass at strength
    0.2, 0.4 or 0.6, whether or not WebGL is available. *)
Lemma lightweight_variant_kernel canUseWebGL ctx level :
  wellFormed ctx →
  level = 1 ∨ level = 2 ∨ level = 3 →
  let s := ImageEnhancerMobile.lightweightStrength level in
  s = (if level =? 1 then 2 # 10 else if level =? 2 then 4 # 10 else 6 # 10)%Q
  ∧ ∃ out,
      ImageEnhancerMobile.applyLightweightSharpening canUseWebGL ctx
        (cwidth ctx) (cheight ctx) level = Some out
      ∧ ∀ X Y k, interior (cwidth ctx) (cheight ctx) X Y → 0 ≤ k < 3 →
          canvasByte out X Y k
          = clampByte (sharpenValue s (canvasByte ctx X Y k)
                         (canvasByte ctx X (Y - 1) k) (canvasByte ctx X (Y + 1) k)
                         (canvasByte ctx (X - 1) Y k) (canvasByte ctx (X + 1) Y k)).
Proof.
  intros Hwf Hlevel s.
  split; [by destruct Hlevel as [-> | [-> | ->]]|].
  destruct (applyCPUSharpening_spec ctx s Hwf) as (out & Hout & Hint & _).
  exists out. split; [|exact Hint].
  unfold ImageEnhancerMobile.applyLightweightSharpening,
    ImageEnhancerMobile.applyWebGLSharpening. fold s.
  assert (Qeq_bool s 0 = false) as -> by (by destruct Hlevel as [-> | [-> | ->]]).
  by destruct canUseWebGL.
Qed.

(** C10.  The lightweight variant as the program runs it, through
    [enhanceImageMobile].  At level 0 the image comes back as it is:
    nothing is decoded and nothing is sharpened.  At level 1, 2 or 3 the
    image, brought within the pixel budget, is drawn on a canvas and
    sharpened in a single pass with the plus-shaped five-point kernel,
    centre weight [1 + 4 s], the four orthogonal neighbours weighted
    [- s] and no corner term, clamped to [0, 255], at the strength 0.2,
    0.4 or 0.6 of the reduced table, whether or not WebGL is available;
    border pixels and alpha are left as they are, and the canvas is
    encoded. *)
Theorem lightweight_variant_at_every_level pf canUseWebGL settings imageDataUrl level :
  level = 0 ∨ level = 1 ∨ level = 2 ∨ level = 3 →
  let s := (if level =? 1 then 2 # 10 else if level =? 2 then 4 # 10 else 6 # 10)%Q in
  (level = 0 →
   ImageEnhancerMobile.enhanceImageMobile pf canUseWebGL settings imageDataUrl level
   = Some imageDataUrl)
  ∧ (level ≠ 0 →
     ∀ optimized img,
       ImageEnhancerMobile.optimizeImageForMobile pf settings imageDataUrl
         (ImageEnhancerMobile.maxImageSize settings) = Some optimized →
       decodeImage pf optimized = Some img →
       let canvas := drawImage pf img (cwidth img) (cheight img) in
       wellFormed canvas →
       ∃ out,
         ImageEnhancerMobile.applyLightweightSharpening canUseWebGL canvas
           (cwidth canvas) (cheight canvas) level = Some out
         ∧ ImageEnhancerMobile.enhanceImageMobile pf canUseWebGL settings imageDataUrl level
           = Some (toDataURL pf out
                     ((88 # 100) - ImageEnhancerMobile.qualityReduction settings)%Q)
         ∧ (∀ X Y k, interior (cwidth canvas) (cheight canvas) X Y → 0 ≤ k < 3 →
              canvasByte out X Y k
              = clampByte (sharpenValue s (canvasByte canvas X Y k)
                             (canvasByte canvas X (Y - 1) k) (canvasByte canvas X (Y + 1) k)
                             (canvasByte canvas (X - 1) Y k) (canvasByte canvas (X + 1) Y k)))
         ∧ (∀ X Y k, 0 ≤ X < cwidth canvas → 0 ≤ Y < cheight canvas → 0 ≤ k < 4 →
              ¬ (interior (cwidth canvas) (cheight canvas) X Y ∧ k < 3) →
              canvasByte out X Y k = canvasByte canvas X Y k)).
Proof.
  intros Hlevel s. split; [by intros ->|].
  intros Hl optimized img Hopt Himg canvas Hwf.
  assert (level = 1 ∨ level = 2 ∨ level = 3) as Hlevel' by lia.
  assert (ImageEnhancerMobile.lightweightStrength level = s) as Hs
    by (by destruct Hlevel' as [-> | [-> | ->]]).
  destruct (applyCPUSharpening_spec canvas s Hwf) as (out & Hout & Hint & Hrest).
  assert (ImageEnhancerMobile.applyLightweightSharpening canUseWebGL canvas
            (cwidth canvas) (cheight canvas) level = Some out) as Hlight.
  { unfold ImageEnhancerMobile.applyLightweightSharpening,
      ImageEnhancerMobile.applyWebGLSharpening. rewrite Hs.
    assert (Qeq_bool s 0 = false) as -> by (by destruct Hlevel' as [-> | [-> | ->]]).
    by destruct canUseWebGL. }
  exists out. split; [done|]. split; [|done].
  unfold ImageEnhancerMobile.enhanceImageMobile.
  destruct (Z.eqb_spec level 0); [done|]. rewrite Hopt. cbn [mbind option_bind].
  unfold ImageEnhancerMobile.applyMobileFriendlyEnhancement.
  rewrite Himg. cbn [mbind option_bind]. fold canvas. by rewrite Hlight.
Qed.

Lemma lightweight_variant_at_every_level_witness :
  ImageEnhancerMobile.enhanceImageMobile Samples.platform false
    (ImageEnhancerMobile.getOptimizationSettings ImageEnhancerMobile.low) "data:page" 0
  = Some "data:page"
  ∧ ∃ out,
      ImageEnhancerMobile.applyLightweightSharpening false Samples.canvas4 4 4 1 = Some out
      ∧ ImageEnhancerMobile.enhanceImageMobile Samples.platform false
          (ImageEnhancerMobile.getOptimizationSettings ImageEnhancerMobile.low) "data:page" 1
        = Some (toDataURL Samples.platform out ((88 # 100) - (2 # 10))%Q)
      ∧ canvasByte Samples.canvas4 1 1 0 = 120
      ∧ canvasByte out 1 1 0 = 172.
Proof.
  split.
  - apply (lightweight_variant_at_every_level Samples.platform false
             (ImageEnhancerMobile.getOptimizationSettings ImageEnhancerMobile.low)
             "data:page" 0); [by left|reflexivity].
  - destruct (lightweight_variant_at_every_level Samples.platform false
                (ImageEnhancerMobile.getOptimizationSettings ImageEnhancerMobile.low)
                "data:page" 1) as [_ Hrun]; [right; by left|].
    destruct (Hrun ltac:(discriminate) "data:page" Samples.canvas4 eq_refl eq_refl)
      as (out & Hout & Henc & Hint & _); [repeat split|].
    exists out. split; [exact Hout|]. split; [exact Henc|]. split; [reflexivity|].
    rewrite (Hint 1 1 0) by (unfold interior; cbn; lia). reflexivity.
Defined.

(** The strengths at the levels the table serves as written. *)
Lemma lightweight_strengths :
  ImageEnhancerMobile.lightweightStrength 1 = (2 # 10)%Q
  ∧ ImageEnhancerMobile.lightweightStrength 2 = (4 # 10)%Q
  ∧ ImageEnhancerMobile.lightweightStrength 3 = (6 # 10)%Q.
Proof. repeat split. Qed.

(** ** Batches *)

Lemma chunkSize_positive memoryInfo : 0 < chunkSize memoryInfo.
Proof.
  unfold chunkSize, PerformanceMonitor.optimizeForDevice.
  repeat case_match; simpl; lia.
Qed.

Lemma Qlt_bool_true (a b : Q) : JS.Qlt_bool a b = true ↔ (a < b)%Q.
Proof.
  unfold JS.Qlt_bool. rewrite negb_true_iff. split.
  - intros Hb. apply Qnot_le_lt. intros Hle. apply Qle_bool_iff in Hle. congruence.
  - intros Hlt. apply not_true_is_false. intros Hle. apply Qle_bool_iff in Hle.
    by apply Qlt_not_le in Hlt.
Qed.

(** [shouldPauseProcessing] asks for a pause exactly when a hard threshold
    is crossed, and then names one of the three reasons. *)
Lemma shouldPause_critical pm memoryInfo :
  PerformanceMonitor.should (PerformanceMonitor.shouldPauseProcessing pm memoryInfo) = true
  ↔ critical pm memoryInfo.
Proof.
  unfold PerformanceMonitor.shouldPauseProcessing, critical,
    PerformanceMonitor.gtOpt, PerformanceMonitor.ltOpt.
  destruct (memoryInfo ≫= usageRatio) as [ratio|] eqn:Hr;
    destruct (PerformanceMonitor.fps pm) as [rate|] eqn:Hf;
    repeat match goal with
           | |- context [JS.Qlt_bool ?a ?b] =>
               let E := fresh "E" in
               destruct (JS.Qlt_bool a b) eqn:E;
               [apply Qlt_bool_true in E
               |assert (¬ (a < b)%Q) by (rewrite <- Qlt_bool_true; congruence); clear E]
           end;
    destruct (Z.ltb_spec 5 (PerformanceMonitor.totalErrors pm)); simpl;
    split; try done; eauto 6;
    intros [(? & ? & ?) | [(? & ? & ?) | ?]]; simplify_eq; (done || lia).
Qed.


Section BatchLoop.
Variables (pf : Platform) (mm : MemoryManager.t) (tl : Timeline).
Variables (level : Z) (cb : ProgressCallback) (files : list File.t).
Variable bs : Z.
Hypothesis Hbs : 0 < bs.

Local Abbreviation total := (Z.of_nat (length files)).
Local Abbreviation item := (fun k file =>
  absorbed level (coreAttempt pf mm tl total level cb k file) file).

Lemma batchStep_thrown l message :
  foldl (batchStep pf mm tl level cb files bs) (Thrown message) l = Thrown message.
Proof. induction l; simpl; auto. Qed.

Lemma enhanceBatchItem_shift (k index : nat) file :
  enhanceBatchItem pf mm tl total level cb (Z.of_nat k) index file
  = item (k + index)%nat file.
Proof.
  unfold enhanceBatchItem, absorbed, coreAttempt.
  replace (Z.of_nat (k + index)) with (Z.of_nat k + Z.of_nat index) by lia.
  reflexivity.
Qed.

Lemma chunk_append (k : nat) :
  (k ≤ length files)%nat →
  imap item (take k files)
    ++ imap (enhanceBatchItem pf mm tl total level cb (Z.of_nat k))
         (slice files (Z.of_nat k) (Z.of_nat k + bs))
  = imap item (take (k + Z.to_nat bs) files).
Proof.
  intros Hk. unfold slice.
  replace (Z.to_nat (Z.of_nat k + bs - Z.of_nat k)) with (Z.to_nat bs) by lia.
  rewrite Nat2Z.id.
  rewrite <- (take_drop k (take (k + Z.to_nat bs) files)).
  rewrite take_take, Nat.min_l by lia.
  rewrite imap_app. f_equal.
  rewrite length_take, Nat.min_l by lia.
  rewrite <- take_drop_commute.
  apply imap_ext. intros i x _. simpl. apply enhanceBatchItem_shift.
Qed.

(** The loop after [m] chunks, none of which asked for a pause. *)
Lemma chunks_prefix (m : nat) :
  (Z.of_nat m - 1) * bs < total ∨ m = 0%nat →
  (∀ k : nat, (k < m)%nat →
      PerformanceMonitor.should (pauseAfter tl (Z.of_nat k * bs)) = false) →
  foldl (batchStep pf mm tl level cb files bs) (Returned [])
    ((fun k => 0 + k * bs) <$> seqZ 0 (Z.of_nat m))
  = Returned (imap item (take (m * Z.to_nat bs) files)).
Proof.
  induction m as [|m IH]; intros Hm Hcalm.
  - reflexivity.
  - rewrite seqZ_S, fmap_app, foldl_app. rewrite IH.
    + cbn [foldl fmap list_fmap]. rewrite !Z.add_0_l. unfold batchStep at 1.
      rewrite Hcalm by lia. f_equal.
      replace (Z.of_nat m * bs) with (Z.of_nat (m * Z.to_nat bs)) by lia.
      rewrite chunk_append.
      * do 2 f_equal. lia.
      * destruct Hm as [Hm|Hm]; [|lia].
        assert (Z.of_nat (m * Z.to_nat bs) = Z.of_nat m * bs) as Hmul
          by (rewrite Nat2Z.inj_mul, Z2Nat.id; lia).
        lia.
    + destruct m; [right; done|left]. destruct Hm as [Hm|Hm]; [|lia]. nia.
    + intros k Hk. apply Hcalm. lia.
Qed.
End BatchLoop.

Section Batch.
Variables (pf : Platform) (mm : MemoryManager.t) (tl : Timeline).
Variables (level : Z) (cb : ProgressCallback) (files : list File.t).
Variable memoryInfo : option MemoryInfo.

Local Abbreviation total := (Z.of_nat (length files)).
Local Abbreviation bs := (chunkSize memoryInfo).

Lemma enhanceImagesBatch_unfold :
  level ≠ 0 →
  enhanceImagesBatch pf mm tl memoryInfo files level cb
  = foldl (batchStep pf mm tl level cb files bs) (Returned []) (stepsZ 0 total bs).
Proof.
  intros Hl. unfold enhanceImagesBatch.
  destruct (Z.eqb_spec level 0) as [|_]; [done|].
  apply foldl_pointwise. intros [enhancedFiles|message] i; [|reflexivity].
  unfold batchStep, pauseAfter, abortMessage.
  destruct (PerformanceMonitor.should _); reflexivity.
Qed.

(** Without a pause the batch returns every item, in place. *)
Lemma enhanceImagesBatch_calm :
  level ≠ 0 →
  (∀ i, i ∈ stepsZ 0 total bs → PerformanceMonitor.should (pauseAfter tl i) = false) →
  enhanceImagesBatch pf mm tl memoryInfo files level cb
  = Returned (imap (fun k file =>
                      absorbed level (coreAttempt pf mm tl total level cb k file) file)
                   files).
Proof.
  intros Hl Hcalm.
  pose proof (chunkSize_positive memoryInfo) as Hbs.
  rewrite enhanceImagesBatch_unfold by done. unfold stepsZ.
  set (m := (total - 0 + bs - 1) `div` bs).
  assert (0 ≤ m ∧ (m = 0 ∨ (m - 1) * bs < total) ∧ total ≤ m * bs) as (Hm0 & Hm1 & Hm2)
    by (unfold m; Z.to_euclidean_division_equations; nia).
  rewrite <- (Z2Nat.id m) by done.
  rewrite chunks_prefix.
  - f_equal. f_equal. apply take_ge. nia.
  - done.
  - destruct Hm1; [right|left]; lia.
  - intros k Hk. apply Hcalm. apply elem_of_stepsZ; [done|].
    exists (Z.of_nat k). split; [done|]. split; [lia|]. nia.
Qed.

(** The first pause ends the batch with an error. *)
Lemma enhanceImagesBatch_abort (i : Z) :
  level ≠ 0 →
  i ∈ stepsZ 0 total bs →
  PerformanceMonitor.should (pauseAfter tl i) = true →
  (∀ j, j ∈ stepsZ 0 total bs → j < i →
        PerformanceMonitor.should (pauseAfter tl j) = false) →
  enhanceImagesBatch pf mm tl memoryInfo files level cb = Thrown (abortMessage tl i).
Proof.
  intros Hl Hi Hpause Hcalm.
  pose proof (chunkSize_positive memoryInfo) as Hbs.
  rewrite enhanceImagesBatch_unfold by done.
  pose proof Hi as Hi'. apply elem_of_stepsZ in Hi' as (k & -> & Hk0 & Hk); [|done].
  unfold stepsZ.
  set (m := (total - 0 + bs - 1) `div` bs).
  assert (k < m) as Hkm by (unfold m; Z.to_euclidean_division_equations; nia).
  replace m with (k + (1 + (m - k - 1))) by lia.
  rewrite seqZ_app, fmap_app, foldl_app by lia.
  rewrite seqZ_app, fmap_app, foldl_app by lia.
  rewrite <- (Z2Nat.id k) at 1 by done.
  rewrite chunks_prefix.
  - change (seqZ (0 + k) 1) with [0 + k]. cbn [foldl fmap list_fmap].
    rewrite !Z.add_0_l. unfold batchStep at 2. rewrite Hpause.
    apply batchStep_thrown.
  - done.
  - destruct (decide (k = 0)); [right; lia|left]. nia.
  - intros j Hj. apply Hcalm; [|nia].
    apply elem_of_stepsZ; [done|]. exists (Z.of_nat j). split; [done|]. split; [lia|]. nia.
Qed.
End Batch.

Section Mobile.
Import ImageEnhancerMobile.
Variables (pf : Platform) (canUseWebGL : bool) (settingsAt : Z → Settings).
Variables (level : Z) (cb : ProgressCallback) (files : list File.t).

Local Abbreviation total := (Z.of_nat (length files)).
Local Abbreviation item := (fun k file =>
  absorbed level (mobileAttempt pf canUseWebGL settingsAt total level cb k file) file).

Lemma processBatchMobile_prefix (m : nat) :
  (m ≤ length files)%nat →
  foldl (fun results i =>
    match files !! Z.to_nat i with
    | None => results
    | Some file =>
        match
          callProgress cb i total (File.name file) ≫= fun _ =>
          enhanceImageMobile pf canUseWebGL (settingsAt i) (File.imageData file) level
        with
        | Some enhancedImage =>
            results ++ [File.withEnhancement file enhancedImage level]
        | None => results ++ [file]
        end
    end) [] (seqZ 0 (Z.of_nat m))
  = imap item (take m files).
Proof.
  induction m as [|m IH]; intros Hm; [done|].
  rewrite seqZ_S, foldl_app, IH by lia. cbn [foldl]. rewrite Z.add_0_l, Nat2Z.id.
  destruct (lookup_lt_is_Some_2 files m) as [file Hfile]; [lia|].
  rewrite Hfile, (take_S_r _ _ _ Hfile), imap_app. simpl.
  rewrite length_take, Nat.min_l, Nat.add_0_r by lia.
  unfold absorbed, mobileAttempt. by case_match.
Qed.

Lemma processBatchMobile_imap :
  processBatchMobile pf canUseWebGL settingsAt files level cb = imap item files.
Proof.
  unfold processBatchMobile. rewrite processBatchMobile_prefix by done.
  by rewrite firstn_all.
Qed.
End Mobile.




(** C6.  A failure of one item, in decoding, in the filter or in the
    progress callback, never makes a batch operation raise.  As long as
    no chunk check finds a critical condition, [enhanceImagesBatch] returns
    a list of the length of its input in which position [k] holds the
    input item, either unchanged or with its payload replaced by the
    enhanced one and the enhancement flags set; at a level other than 0
    it is unchanged exactly when the attempt failed.  [processBatchMobile]
    always returns such a list. *)
Theorem item_failures_are_absorbed :
  (∀ pf mm tl memoryInfo files level cb,
      (∀ i, i ∈ stepsZ 0 (Z.of_nat (length files)) (chunkSize memoryInfo) →
            ¬ critical (monitorAfterChunk tl i) (memoryInfoAfterChunk tl i)) →
      ∃ results,
        enhanceImagesBatch pf mm tl memoryInfo files level cb = Returned results
        ∧ length results = length files
        ∧ ∀ k file, files !! k = Some file →
            ∃ r, results !! k = Some r
                 ∧ (r = file ∨ ∃ payload, r = File.withEnhancement file payload level)
                 ∧ (level ≠ 0 →
                    r = absorbed level
                          (coreAttempt pf mm tl (Z.of_nat (length files)) level cb k file)
                          file))
  ∧ (∀ pf canUseWebGL settingsAt files level cb,
      let results :=
        ImageEnhancerMobile.processBatchMobile pf canUseWebGL settingsAt files level cb in
      length results = length files
      ∧ ∀ k file, files !! k = Some file →
          ∃ r, results !! k = Some r
               ∧ (r = file ∨ ∃ payload, r = File.withEnhancement file payload level)
               ∧ r = absorbed level
                       (mobileAttempt pf canUseWebGL settingsAt
                          (Z.of_nat (length files)) level cb k file)
                       file).
Proof.
  split.
  - intros pf mm tl memoryInfo files level cb Hcalm.
    destruct (decide (level = 0)) as [->|Hl].
    + exists files. split; [reflexivity|]. split; [done|].
      intros k file Hk. exists file. split; [done|]. split; [by left|done].
    + rewrite enhanceImagesBatch_calm; [|done|].
      * eexists. split; [reflexivity|]. split; [apply length_imap|].
        intros k file Hk. rewrite list_lookup_imap, Hk. simpl.
        eexists. split; [reflexivity|]. split; [|done].
        unfold absorbed. case_match; [right; by eexists|by left].
      * intros i Hi. apply not_true_is_false. intros Hp.
        apply (Hcalm i Hi). by apply shouldPause_critical.
  - intros pf canUseWebGL settingsAt files level cb results. subst results.
    rewrite processBatchMobile_imap. split; [apply length_imap|].
    intros k file Hk. rewrite list_lookup_imap, Hk. simpl.
    eexists. split; [reflexivity|]. split; [|done].
    unfold absorbed. case_match; [right; by eexists|by left].
Qed.

Lemma item_failures_are_absorbed_witness :
  ∃ results,
    enhanceImagesBatch Samples.brokenPlatform Samples.manager Samples.calm
      (Samples.desktop (1 # 10)) Samples.tenFiles 1 None = Returned results
    ∧ length results = length Samples.tenFiles.
Proof.
  destruct (proj1 item_failures_are_absorbed Samples.brokenPlatform Samples.manager
              Samples.calm (Samples.desktop (1 # 10)) Samples.tenFiles 1 None)
    as (results & Hres & Hlen & _).
  - intros i _ Hcrit. apply shouldPause_critical in Hcrit. discriminate Hcrit.
  - exists results. split; [exact Hres | exact Hlen].
Defined.

(** ** Order inference *)

Section Order.
Import OrderDetector.
Local Open Scope string_scope.
Local Open Scope Z_scope.

Lemma coverFirst_analysis :
  analyzeFileNames Samples.coverFirst
  = mkAnalysis false true [(Samples.file "file_1" "cover.jpg", 0%nat)] [] none.
Proof. vm_compute. reflexivity. Qed.

(** The numeric detection does not fire on these names: two numbered
    names out of three are fewer than 70%. *)
Lemma coverFirst_has_no_numeric_order :
  hasValidOrder (analyzeFileNames Samples.coverFirst) = false
  ∧ ∀ pattern, isValid (extractNumbers Samples.coverFirst pattern) = false.
Proof. split; [reflexivity|]. intros []; reflexivity. Qed.

(** C9, as stated: order inference would produce the order cover.jpg,
    001.jpg, 002.jpg.  On these three names [detectOrder] finds the
    cover but no numeric order; it hands no order to the working
    list and opens the dialog instead. *)
Lemma inference_alone_orders_nothing :
  File.name <$> Samples.coverFirst = ["cover.jpg"; "001.jpg"; "002.jpg"]
  ∧ detectOrder Samples.codeUnitCompare Samples.coverFirst
    = UserAsked (analyzeFileNames Samples.coverFirst)
  ∧ detected (detectOrder Samples.codeUnitCompare Samples.coverFirst) = false
  ∧ ¬ ∃ ordered,
        detectOrder Samples.codeUnitCompare Samples.coverFirst = OrderApplied ordered.
Proof.
  split; [reflexivity|]. split; [reflexivity|]. split; [reflexivity|].
  intros [ordered Hordered]. discriminate Hordered.
Qed.

(** C9, amended.  For the names cover.jpg, 001.jpg, 002.jpg, selected
    in any order, the analysis finds the single cover cover.jpg and no
    numeric order: under every pattern two names of three carry a
    number, fewer than 70%, and [detectOrder] asks the user.  When the
    user continues, the order handed on is cover.jpg, 001.jpg,
    002.jpg: the cover first, then the other files sorted by name,
    under a collation that puts 001.jpg before 002.jpg and both before
    cover.jpg.  The numeric order is inferred once the numbered names
    reach 70%: on the same selection without the cover, [detectOrder]
    itself hands on 001.jpg, 002.jpg. *)
Theorem cover_first_after_confirmation (localeCompare : string → string → Z)
    (files : list File.t) :
  collatesBefore localeCompare "001.jpg" "002.jpg" →
  collatesBefore localeCompare "002.jpg" "cover.jpg" →
  collatesBefore localeCompare "001.jpg" "cover.jpg" →
  files ≡ₚ Samples.coverFirst →
  let analysis := analyzeFileNames files in
  File.name <$> (fst <$> coverFiles analysis) = ["cover.jpg"]
  ∧ hasValidOrder analysis = false
  ∧ detectOrder localeCompare files = UserAsked analysis
  ∧ File.name <$> continueProcessing localeCompare files analysis
    = ["cover.jpg"; "001.jpg"; "002.jpg"]
  ∧ (∀ pattern, isValid (extractNumbers files pattern) = false)
  ∧ (let numbered :=
       List.filter (fun file => negb (isCoverFile (File.name file))) files in
     (∃ pattern, isValid (extractNumbers numbered pattern) = true)
     ∧ hasValidOrder (analyzeFileNames numbered) = true
     ∧ ∃ ordered,
         detectOrder localeCompare numbered = OrderApplied ordered
         ∧ File.name <$> ordered = ["001.jpg"; "002.jpg"]).
Proof.
  intros [Hab Hba] [Hbc Hcb] [Hac Hca] Hperm analysis. subst analysis.
  assert ((localeCompare "001.jpg" "002.jpg" <=? 0) = true) as Eab by (apply Z.leb_le; lia).
  assert ((localeCompare "002.jpg" "001.jpg" <=? 0) = false) as Eba by (apply Z.leb_gt; lia).
  assert ((localeCompare "002.jpg" "cover.jpg" <=? 0) = true) as Ebc by (apply Z.leb_le; lia).
  assert ((localeCompare "cover.jpg" "002.jpg" <=? 0) = false) as Ecb by (apply Z.leb_gt; lia).
  assert ((localeCompare "001.jpg" "cover.jpg" <=? 0) = true) as Eac by (apply Z.leb_le; lia).
  assert ((localeCompare "cover.jpg" "001.jpg" <=? 0) = false) as Eca by (apply Z.leb_gt; lia).
  symmetry in Hperm. apply permutations_Permutation in Hperm.
  set (ps := permutations Samples.coverFirst) in Hperm. vm_compute in ps. subst ps.
  repeat (apply elem_of_cons in Hperm as [->|Hperm]);
    [..|by apply elem_of_nil in Hperm];
    (split; [reflexivity|]; split; [reflexivity|]; split; [reflexivity|]);
    (split; [unfold continueProcessing; cbn;
             repeat (rewrite ?Eab, ?Eba, ?Ebc, ?Ecb, ?Eac, ?Eca; cbn); reflexivity|]);
    (split; [intros []; reflexivity|]);
    (split; [exists LeadingDigits; reflexivity|]); (split; [reflexivity|]);
    eexists; (split; [reflexivity|]); reflexivity.
Qed.

Lemma cover_first_after_confirmation_witness :
  File.name <$> continueProcessing Samples.codeUnitCompare
                  [Samples.file "file_3" "002.jpg"; Samples.file "file_1" "cover.jpg";
                   Samples.file "file_2" "001.jpg"]
                  (analyzeFileNames
                     [Samples.file "file_3" "002.jpg"; Samples.file "file_1" "cover.jpg";
                      Samples.file "file_2" "001.jpg"])
  = ["cover.jpg"; "001.jpg"; "002.jpg"].
Proof.
  apply (cover_first_after_confirmation Samples.codeUnitCompare
           [Samples.file "file_3" "002.jpg"; Samples.file "file_1" "cover.jpg";
            Samples.file "file_2" "001.jpg"]); try (split; reflexivity).
  unfold Samples.coverFirst.
  etrans; [apply Permutation_swap|]. apply Permutation_skip, Permutation_swap.
Defined.
End Order.
(** * Further properties of the code *)

(** ** Rational comparisons *)

Lemma Qle_bool_false (a b : Q) : Qle_bool a b = false ↔ (b < a)%Q.
Proof.
  split.
  - intros Hb. apply Qnot_le_lt. intros Hle. apply Qle_bool_iff in Hle. congruence.
  - intros Hlt. apply not_true_is_false. intros Hle. apply Qle_bool_iff in Hle.
    by apply Qlt_not_le in Hlt.
Qed.

Lemma Qlt_bool_false (a b : Q) : JS.Qlt_bool a b = false ↔ (b <= a)%Q.
Proof.
  unfold JS.Qlt_bool. rewrite negb_false_iff. apply Qle_bool_iff.
Qed.

Lemma inject_Z_pos (z : Z) : 0 < z → (0 < inject_Z z)%Q.
Proof. intros Hz. rewrite <- (Zlt_Qlt 0). lia. Qed.

Ltac q_bools :=
  repeat match goal with
         | H : Qle_bool _ _ = true |- _ => apply Qle_bool_iff in H
         | H : Qle_bool _ _ = false |- _ => apply Qle_bool_false in H
         | H : JS.Qlt_bool _ _ = true |- _ => apply Qlt_bool_true in H
         | H : JS.Qlt_bool _ _ = false |- _ => apply Qlt_bool_false in H
         end.


(** ** MemoryManager: sizes and limits *)

Lemma scaled_side_bounds (w h M : Z) :
  0 < w → 0 < h → 0 ≤ M → M < w * h →
  let nw := Z.sqrt ((w * w * M) `div` (w * h)) in
  let nh := Z.sqrt ((h * h * M) `div` (w * h)) in
  0 ≤ nw ≤ w ∧ 0 ≤ nh ≤ h ∧ nw * nh ≤ M.
Proof.
  intros Hw Hh HM Hlt nw nh.
  set (p := w * h) in *.
  set (a := (w * w * M) `div` p) in *.
  set (b := (h * h * M) `div` p) in *.
  assert (0 < p) as Hp by nia.
  assert (0 ≤ a ∧ a * p ≤ w * w * M) as [Ha0 Ha].
  { unfold a. split; [apply Z.div_pos; nia|].
    rewrite Z.mul_comm. apply Z.mul_div_le. lia. }
  assert (0 ≤ b ∧ b * p ≤ h * h * M) as [Hb0 Hb].
  { unfold b. split; [apply Z.div_pos; nia|].
    rewrite Z.mul_comm. apply Z.mul_div_le. lia. }
  pose proof (Z.sqrt_spec a Ha0) as [Hnw _]. fold nw in Hnw.
  pose proof (Z.sqrt_spec b Hb0) as [Hnh _]. fold nh in Hnh.
  pose proof (Z.sqrt_nonneg a) as Hnw0. fold nw in Hnw0.
  pose proof (Z.sqrt_nonneg b) as Hnh0. fold nh in Hnh0.
  assert (a ≤ w * w) as Haw by nia.
  assert (b ≤ h * h) as Hbh by nia.
  assert (nw ≤ w) as Hnww.
  { unfold nw. rewrite <- (Z.sqrt_square w) by lia. by apply Z.sqrt_le_mono. }
  assert (nh ≤ h) as Hnhh.
  { unfold nh. rewrite <- (Z.sqrt_square h) by lia. by apply Z.sqrt_le_mono. }
  split; [lia|]. split; [lia|].
  assert (a * b ≤ M * M) as Hab.
  { assert ((a * p) * (b * p) ≤ (w * w * M) * (h * h * M)) as H1
      by (apply Z.mul_le_mono_nonneg; nia).
    assert ((a * b) * (p * p) ≤ (M * M) * (p * p)) as H2 by (unfold p in *; nia).
    apply Z.mul_le_mono_pos_r in H2; [done|nia]. }
  assert ((nw * nh) * (nw * nh) ≤ M * M) as Hsq.
  { transitivity (a * b); [|done].
    replace (nw * nh * (nw * nh)) with ((nw * nw) * (nh * nh)) by ring.
    apply Z.mul_le_mono_nonneg; nia. }
  nia.
Qed.

(** X1.  [getOptimalImageSize] never hands out more pixels than the
    manager's budget and never enlarges a side; it leaves an image alone
    exactly when [canProcessImage] accepts it, and the mobile module's
    [calculateOptimalSize] computes the same size from the same budget. *)
Theorem optimal_size_within_budget (mm : MemoryManager.t) (w h : Z) :
  0 < w → 0 < h → 0 ≤ MemoryManager.maxImageSize mm →
  let size := MemoryManager.getOptimalImageSize mm w h in
  MemoryManager.width size * MemoryManager.height size ≤ MemoryManager.maxImageSize mm
  ∧ 0 ≤ MemoryManager.width size ≤ w
  ∧ 0 ≤ MemoryManager.height size ≤ h
  ∧ MemoryManager.needsResize size = negb (MemoryManager.canProcessImage mm w h)
  ∧ (MemoryManager.canProcessImage mm w h = true →
     MemoryManager.width size = w ∧ MemoryManager.height size = h)
  ∧ ImageEnhancerMobile.calculateOptimalSize w h (MemoryManager.maxImageSize mm) = size.
Proof.
  intros Hw Hh HM size. subst size.
  unfold MemoryManager.getOptimalImageSize, MemoryManager.canProcessImage,
    ImageEnhancerMobile.calculateOptimalSize.
  destruct (Z.leb_spec (w * h) (MemoryManager.maxImageSize mm)) as [Hle|Hgt]; simpl.
  - repeat split; (done || lia).
  - destruct (scaled_side_bounds w h (MemoryManager.maxImageSize mm)) as (? & ? & ?);
      [done..|].
    repeat split; (done || lia).
Qed.

Lemma optimal_size_within_budget_witness :
  let size := MemoryManager.getOptimalImageSize Samples.manager 4000 3000 in
  MemoryManager.width size * MemoryManager.height size ≤ 2048 * 1536
  ∧ MemoryManager.needsResize size = true.
Proof.
  destruct (optimal_size_within_budget Samples.manager 4000 3000)
    as (Hfit & _ & _ & Hneeds & _); [lia | lia | discriminate |].
  split; [exact Hfit | exact Hneeds].
Defined.

Lemma getMemoryThreshold_range memory isMobile :
  (5 # 10 <= MemoryManager.getMemoryThreshold memory isMobile)%Q
  ∧ (MemoryManager.getMemoryThreshold memory isMobile <= 8 # 10)%Q.
Proof.
  unfold MemoryManager.getMemoryThreshold.
  repeat case_match; split; by apply Qle_bool_iff.
Qed.

Lemma getMaxImageSize_range memory isMobile :
  1024 * 1024 ≤ MemoryManager.getMaxImageSize memory isMobile ≤ 7680 * 4320.
Proof.
  unfold MemoryManager.getMaxImageSize. repeat case_match; lia.
Qed.

Lemma Qle_bool_trans_true (a b c : Q) :
  (a <= b)%Q → Qle_bool b c = true → Qle_bool a c = true.
Proof.
  intros Hab Hbc. apply Qle_bool_iff. apply Qle_bool_iff in Hbc.
  by apply Qle_trans with b.
Qed.

(** X2.  The limits a manager is built with grow with the device memory:
    on the same kind of device, more memory never lowers the pixel
    budget, the number of images processed together or the heap
    threshold; the budget is between 1 and 33 megapixels and the
    threshold between 50% and 80%. *)
Theorem manager_limits_grow_with_memory (m1 m2 : Q) (isMobile : bool) :
  (m1 <= m2)%Q →
  MemoryManager.getMaxImageSize m1 isMobile ≤ MemoryManager.getMaxImageSize m2 isMobile
  ∧ MemoryManager.getMaxProcessingImages m1 isMobile
    ≤ MemoryManager.getMaxProcessingImages m2 isMobile
  ∧ (MemoryManager.getMemoryThreshold m1 isMobile
     <= MemoryManager.getMemoryThreshold m2 isMobile)%Q
  ∧ 1024 * 1024 ≤ MemoryManager.getMaxImageSize m1 isMobile ≤ 7680 * 4320
  ∧ (5 # 10 <= MemoryManager.getMemoryThreshold m1 isMobile)%Q
  ∧ (MemoryManager.getMemoryThreshold m1 isMobile <= 8 # 10)%Q.
Proof.
  intros Hle.
  assert (∀ c, Qle_bool m2 c = true → Qle_bool m1 c = true) as Hmono
    by (intros c; by apply Qle_bool_trans_true).
  split; [|split; [|split; [|split; [apply getMaxImageSize_range
                                    |apply getMemoryThreshold_range]]]].
  - unfold MemoryManager.getMaxImageSize.
    destruct isMobile;
      repeat match goal with
             | |- context [Qle_bool m2 ?c] =>
                 let E := fresh "E" in
                 destruct (Qle_bool m2 c) eqn:E; [rewrite (Hmono c E)|]
             | |- context [Qle_bool m1 ?c] => destruct (Qle_bool m1 c)
             end; lia.
  - unfold MemoryManager.getMaxProcessingImages.
    destruct isMobile;
      repeat match goal with
             | |- context [Qle_bool m2 ?c] =>
                 let E := fresh "E" in
                 destruct (Qle_bool m2 c) eqn:E; [rewrite (Hmono c E)|]
             | |- context [Qle_bool m1 ?c] => destruct (Qle_bool m1 c)
             end; lia.
  - unfold MemoryManager.getMemoryThreshold.
    destruct isMobile;
      repeat match goal with
             | |- context [Qle_bool m2 ?c] =>
                 let E := fresh "E" in
                 destruct (Qle_bool m2 c) eqn:E; [rewrite (Hmono c E)|]
             | |- context [Qle_bool m1 ?c] => destruct (Qle_bool m1 c)
             end; by apply Qle_bool_iff.
Qed.

Lemma manager_limits_grow_with_memory_witness :
  MemoryManager.getMaxImageSize 2 true ≤ MemoryManager.getMaxImageSize 8 true
  ∧ MemoryManager.getMaxImageSize 2 true = 1048576
  ∧ MemoryManager.getMaxImageSize 8 true = 4915200.
Proof.
  destruct (manager_limits_grow_with_memory 2 8 true) as (Hsize & _);
    [by apply Qle_bool_iff|].
  split; [exact Hsize|]. split; reflexivity.
Defined.

(** X3.  A manager built by the constructor refuses an image before the
    monitor calls memory critical: whenever [shouldPauseProcessing], fed
    with the manager's own [getMemoryInfo], reports [memory_critical],
    [checkMemoryUsage] on the same heap reading returns [false]; and
    without a heap reading [checkMemoryUsage] always returns [false]. *)
Theorem manager_refuses_before_monitor_pauses :
  (∀ nav heap pm,
      PerformanceMonitor.reason
        (PerformanceMonitor.shouldPauseProcessing pm
           (Some (MemoryManager.getMemoryInfo nav heap)))
      = Some "memory_critical"%string →
      MemoryManager.checkMemoryUsage (MemoryManager.new nav) heap = false)
  ∧ (∀ mm, MemoryManager.checkMemoryUsage mm None = false).
Proof.
  split; [|reflexivity].
  intros nav [heap|] pm; [|reflexivity].
  unfold PerformanceMonitor.shouldPauseProcessing, MemoryManager.checkMemoryUsage,
    MemoryManager.getMemoryInfo, MemoryManager.new.
  cbn [mbind option_bind usageRatio fmap option_fmap option_map
         MemoryManager.memoryThreshold PerformanceMonitor.gtOpt].
  set (ratio := (usedJSHeapSize heap / jsHeapSizeLimit heap)%Q).
  destruct (JS.Qlt_bool (9 # 10) ratio) eqn:Hcrit.
  - intros _. apply Qlt_bool_true in Hcrit.
    destruct (getMemoryThreshold_range (MemoryManager.getDeviceMemory nav)
                (MemoryManager.isMobileDevice nav)) as [_ Hthr].
    assert (JS.Qlt_bool (MemoryManager.getMemoryThreshold
                           (MemoryManager.getDeviceMemory nav)
                           (MemoryManager.isMobileDevice nav)) ratio = true) as ->; [|done].
    apply Qlt_bool_true. eapply Qle_lt_trans; [exact Hthr|].
    eapply Qlt_trans; [|exact Hcrit]. reflexivity.
  - repeat case_match; simpl; intros Hr; discriminate Hr.
Qed.

Lemma estimate_within_budget mm (w h : Z) :
  0 ≤ MemoryManager.maxImageSize mm → 0 ≤ w → 0 ≤ h →
  let size := MemoryManager.getOptimalImageSize mm w h in
  0 ≤ MemoryManager.estimateMemoryUsage (MemoryManager.width size)
        (MemoryManager.height size) 4
    ≤ 8 * MemoryManager.maxImageSize mm.
Proof.
  intros HM Hw Hh size. subst size.
  unfold MemoryManager.getOptimalImageSize, MemoryManager.estimateMemoryUsage.
  destruct (Z.leb_spec (w * h) (MemoryManager.maxImageSize mm)) as [Hle|Hgt]; simpl.
  - nia.
  - destruct (scaled_side_bounds w h (MemoryManager.maxImageSize mm)) as (? & ? & ?);
      [nia | nia | done | done |]. nia.
Qed.

Lemma batch_estimate_bound mm (files : list File.t) (acc : Z) :
  0 ≤ MemoryManager.maxImageSize mm →
  Forall (fun file => 0 ≤ (File.dimensions file).1 ∧ 0 ≤ (File.dimensions file).2) files →
  acc ≤ foldl (fun totalMemoryNeeded file =>
                 let optimalSize :=
                   MemoryManager.getOptimalImageSize mm (File.dimensions file).1
                     (File.dimensions file).2 in
                 totalMemoryNeeded
                 + MemoryManager.estimateMemoryUsage (MemoryManager.width optimalSize)
                     (MemoryManager.height optimalSize) 4)
              acc files
      ≤ acc + 8 * MemoryManager.maxImageSize mm * Z.of_nat (length files).
Proof.
  intros HM Hall. revert acc.
  induction Hall as [|file files [Hw Hh] _ IH]; intros acc; [simpl; lia|].
  cbn [foldl length]. cbv zeta in IH |- *.
  pose proof (estimate_within_budget mm _ _ HM Hw Hh) as Hest. cbv zeta in Hest.
  specialize (IH (acc + MemoryManager.estimateMemoryUsage
                          (MemoryManager.width
                             (MemoryManager.getOptimalImageSize mm (File.dimensions file).1
                                (File.dimensions file).2))
                          (MemoryManager.height
                             (MemoryManager.getOptimalImageSize mm (File.dimensions file).1
                                (File.dimensions file).2)) 4)).
  lia.
Qed.

(** X4.  Every image is counted at its size after the resize to the
    budget, at most 8 bytes for each pixel of the budget, so
    [canProcessBatch] can only refuse by the number of files: a batch of
    n files is accepted whenever n times 8 times the pixel budget fits in
    the usable share of the device memory.  The empty batch is accepted
    whenever that share is not negative. *)
Theorem bounded_batch_is_accepted mm nav (files : list File.t) :
  0 ≤ MemoryManager.maxImageSize mm →
  Forall (fun file => 0 ≤ (File.dimensions file).1 ∧ 0 ≤ (File.dimensions file).2) files →
  (inject_Z (8 * MemoryManager.maxImageSize mm * Z.of_nat (length files))
   <= MemoryManager.getDeviceMemory nav * 1024 * 1024 * 1024
      * MemoryManager.memoryThreshold mm)%Q →
  MemoryManager.canProcessBatch mm nav files = true.
Proof.
  intros HM Hall Hfit. unfold MemoryManager.canProcessBatch. cbv zeta.
  apply Qle_bool_iff. eapply Qle_trans; [|exact Hfit].
  rewrite <- Zle_Qle.
  pose proof (batch_estimate_bound mm files 0 HM Hall) as Hb. cbv zeta in Hb. lia.
Qed.

Lemma bounded_batch_is_accepted_witness :
  MemoryManager.maxImageSize (MemoryManager.new Samples.phone) = 1048576
  ∧ MemoryManager.canProcessBatch (MemoryManager.new Samples.phone) Samples.phone
      (replicate 128 (Samples.file "file_1" "1.jpg")) = true.
Proof.
  split; [reflexivity|].
  apply (bounded_batch_is_accepted (MemoryManager.new Samples.phone) Samples.phone).
  - discriminate.
  - apply Forall_replicate. split; discriminate.
  - by apply Qle_bool_iff.
Defined.

(** ** PerformanceMonitor: errors and advice *)

Lemma sum_permutation (l1 l2 : list Z) :
  l1 ≡ₚ l2 → foldr Z.add 0 l1 = foldr Z.add 0 l2.
Proof. induction 1; simpl; lia. Qed.

Lemma total_insert (m : gmap string Z) (k : string) (v : Z) :
  foldr Z.add 0 ((map_to_list (<[k:=v]> m)).*2)
  = foldr Z.add 0 ((map_to_list m).*2) - default 0 (m !! k) + v.
Proof.
  destruct (m !! k) as [c|] eqn:Hk; simpl.
  - rewrite <- (insert_delete_eq m).
    rewrite (sum_permutation _ ((k, v) :: map_to_list (delete k m)).*2).
    + rewrite (sum_permutation ((map_to_list m).*2) ((k, c) :: map_to_list (delete k m)).*2).
      * rewrite !fmap_cons. cbn [foldr snd]. lia.
      * apply fmap_Permutation. symmetry. by apply map_to_list_delete.
    + apply fmap_Permutation. apply map_to_list_insert, lookup_delete_eq.
  - rewrite (sum_permutation _ ((k, v) :: map_to_list m).*2).
    + rewrite fmap_cons. cbn [foldr snd]. lia.
    + apply fmap_Permutation. by apply map_to_list_insert.
Qed.

Lemma totalErrors_recordError pm type message :
  PerformanceMonitor.totalErrors (PerformanceMonitor.recordError pm type message).1
  = PerformanceMonitor.totalErrors pm + 1.
Proof.
  unfold PerformanceMonitor.totalErrors, PerformanceMonitor.recordError. simpl.
  rewrite total_insert. lia.
Qed.

(** X5.  [recordError] files an error under its source and message (an
    absent or empty message under "unknown"): that one count goes up by
    one, every other count and the frame rate are untouched, the total
    read by [shouldPauseProcessing] goes up by exactly one, and the
    frequent-errors warning is raised exactly from the third error of the
    same key on. *)
Theorem recordError_counts pm type message :
  let key := PerformanceMonitor.errorKey type message in
  let before := default 0 (PerformanceMonitor.errorCounts pm !! key) in
  let after := (PerformanceMonitor.recordError pm type message).1 in
  PerformanceMonitor.errorCounts after !! key = Some (before + 1)
  ∧ (∀ other, other ≠ key →
       PerformanceMonitor.errorCounts after !! other
       = PerformanceMonitor.errorCounts pm !! other)
  ∧ PerformanceMonitor.fps after = PerformanceMonitor.fps pm
  ∧ PerformanceMonitor.totalErrors after = PerformanceMonitor.totalErrors pm + 1
  ∧ ((PerformanceMonitor.recordError pm type message).2 = true ↔ 2 ≤ before)
  ∧ PerformanceMonitor.errorKey type None = PerformanceMonitor.errorKey type (Some ""%string).
Proof.
  intros key before after.
  split; [apply lookup_insert_eq|].
  split; [intros other Hne; by apply lookup_insert_ne|].
  split; [reflexivity|].
  split; [apply totalErrors_recordError|].
  split; [|reflexivity].
  unfold PerformanceMonitor.recordError. simpl. fold key. fold before.
  rewrite Z.leb_le. lia.
Qed.

Lemma totalErrors_recordAll pm errors :
  PerformanceMonitor.totalErrors (recordAll pm errors)
  = PerformanceMonitor.totalErrors pm + Z.of_nat (length errors).
Proof.
  revert pm. induction errors as [|[type message] errors IH]; intros pm.
  - simpl. lia.
  - unfold recordAll in *. cbn [foldl length]. rewrite IH, totalErrors_recordError. lia.
Qed.

Lemma totalErrors_reset pm :
  PerformanceMonitor.totalErrors (PerformanceMonitor.reset pm) = 0.
Proof.
  unfold PerformanceMonitor.totalErrors, PerformanceMonitor.reset. simpl.
  by rewrite map_to_list_empty.
Qed.

(** X6.  Errors only accumulate: after any run of reported errors the
    total is the old total plus their number (so a monitor that was reset
    and then saw n errors counts n), and once the total is above five
    [shouldPauseProcessing] asks for a pause after every further error,
    whatever the memory and the frame rate read.  A reset monitor with no
    heap reading asks for none. *)
Theorem recorded_errors_accumulate :
  (∀ pm errors,
      PerformanceMonitor.totalErrors (recordAll pm errors)
      = PerformanceMonitor.totalErrors pm + Z.of_nat (length errors))
  ∧ (∀ pm errors,
      PerformanceMonitor.totalErrors (recordAll (PerformanceMonitor.reset pm) errors)
      = Z.of_nat (length errors))
  ∧ (∀ pm errors memoryInfo,
      5 < PerformanceMonitor.totalErrors pm →
      PerformanceMonitor.should
        (PerformanceMonitor.shouldPauseProcessing (recordAll pm errors) memoryInfo) = true)
  ∧ (∀ pm,
      PerformanceMonitor.shouldPauseProcessing (PerformanceMonitor.reset pm) None
      = PerformanceMonitor.mkPause false None).
Proof.
  split; [apply totalErrors_recordAll|].
  split; [intros pm errors; by rewrite totalErrors_recordAll, totalErrors_reset|].
  split.
  - intros pm errors memoryInfo Hpm. apply shouldPause_critical. right. right.
    rewrite totalErrors_recordAll. lia.
  - intros pm. unfold PerformanceMonitor.shouldPauseProcessing.
    rewrite totalErrors_reset. reflexivity.
Qed.

Lemma elem_of_recommendations pm durations memoryInfo r :
  r ∈ PerformanceMonitor.getPerformanceRecommendations pm durations memoryInfo
  ↔ (r = PerformanceMonitor.processing_time
     ∧ JS.Qlt_bool 5000 (PerformanceMonitor.getAverageProcessingTime durations) = true)
    ∨ (r = PerformanceMonitor.memory_usage
       ∧ PerformanceMonitor.gtOpt (memoryInfo ≫= usageRatio) (7 # 10) = true)
    ∨ (r = PerformanceMonitor.mobile_optimization
       ∧ from_option isMobile false memoryInfo = true)
    ∨ (r = PerformanceMonitor.error_frequency
       ∧ 2 < PerformanceMonitor.totalErrors pm).
Proof.
  unfold PerformanceMonitor.getPerformanceRecommendations.
  destruct (JS.Qlt_bool 5000 _), (PerformanceMonitor.gtOpt _ _),
    (from_option isMobile false memoryInfo),
    (Z.ltb_spec 2 (PerformanceMonitor.totalErrors pm));
    simpl; rewrite ?elem_of_cons, ?elem_of_nil;
    destruct r; split; intros; try discriminate;
    repeat match goal with
           | H : _ ∨ _ |- _ => destruct H
           | H : _ ∧ _ |- _ => destruct H
           end; try discriminate; try lia; try contradiction; eauto 8.
Qed.

(** X7.  The advice of [getPerformanceRecommendations] covers the pauses:
    whenever [shouldPauseProcessing] gives memory or errors as its reason
    the list holds the memory or the error entry; the error entry is
    present exactly when more than two errors were recorded, the mobile
    entry exactly on a mobile device, and the entries come in the fixed
    order time, memory, mobile, errors without repetition. *)
Theorem recommendations_cover_pauses pm durations memoryInfo :
  let decision := PerformanceMonitor.shouldPauseProcessing pm memoryInfo in
  let advice := PerformanceMonitor.getPerformanceRecommendations pm durations memoryInfo in
  (PerformanceMonitor.reason decision = Some "memory_critical"%string →
   PerformanceMonitor.memory_usage ∈ advice)
  ∧ (PerformanceMonitor.reason decision = Some "errors_critical"%string →
     PerformanceMonitor.error_frequency ∈ advice)
  ∧ (PerformanceMonitor.error_frequency ∈ advice ↔ 2 < PerformanceMonitor.totalErrors pm)
  ∧ (PerformanceMonitor.mobile_optimization ∈ advice
     ↔ from_option isMobile false memoryInfo = true)
  ∧ advice `sublist_of`
      [ PerformanceMonitor.processing_time; PerformanceMonitor.memory_usage;
        PerformanceMonitor.mobile_optimization; PerformanceMonitor.error_frequency ].
Proof.
  intros decision advice. subst decision advice.
  split; [|split; [|split; [|split]]].
  - intros Hr. apply elem_of_recommendations. right. left. split; [done|].
    revert Hr. unfold PerformanceMonitor.shouldPauseProcessing, PerformanceMonitor.gtOpt.
    destruct (memoryInfo ≫= usageRatio) as [ratio|]; simpl.
    + destruct (JS.Qlt_bool (9 # 10) ratio) eqn:Hcrit.
      * intros _. apply Qlt_bool_true in Hcrit. apply Qlt_bool_true.
        eapply Qlt_trans; [|exact Hcrit]. reflexivity.
      * repeat case_match; simpl; intros Hr; discriminate Hr.
    + repeat case_match; simpl; intros Hr; discriminate Hr.
  - intros Hr. apply elem_of_recommendations. do 3 right. split; [done|].
    revert Hr. unfold PerformanceMonitor.shouldPauseProcessing.
    destruct (Z.ltb_spec 5 (PerformanceMonitor.totalErrors pm)); [intros _; lia|].
    repeat case_match; simpl; intros Hr; discriminate Hr.
  - rewrite elem_of_recommendations. split; [|intros; do 3 right; done].
    intros [[? _]|[[? _]|[[? _]|[_ ?]]]]; (done || discriminate).
  - rewrite elem_of_recommendations. split; [|intros; right; right; left; done].
    intros [[? _]|[[? _]|[[_ ?]|[? _]]]]; (done || discriminate).
  - unfold PerformanceMonitor.getPerformanceRecommendations.
    destruct (JS.Qlt_bool 5000 _), (PerformanceMonitor.gtOpt _ _),
      (from_option isMobile false memoryInfo),
      (2 <? PerformanceMonitor.totalErrors pm); simpl;
      repeat constructor.
Qed.

(** X8.  Whatever [optimizeForDevice] is told about the device, it
    proposes between one and five images a chunk, never more concurrent
    work than a chunk holds, and an enhancement level that is a key of
    the table of levels; it asks for resizing only together with level 0
    (a mobile device of at most 2 GB).  With no memory information at all
    it answers with the largest settings: 3 concurrent, level 3, chunks
    of 5. *)
Theorem device_optimization_ranges (memoryInfo : option MemoryInfo) :
  let optimization := PerformanceMonitor.optimizeForDevice memoryInfo in
  1 ≤ PerformanceMonitor.maxConcurrentProcessing optimization
    ≤ PerformanceMonitor.batchSize optimization
  ∧ PerformanceMonitor.batchSize optimization ≤ 5
  ∧ is_Some (enhancementLevels (PerformanceMonitor.recommendedEnhancementLevel optimization))
  ∧ (PerformanceMonitor.shouldResizeImages optimization = true
     ↔ PerformanceMonitor.recommendedEnhancementLevel optimization = 0)
  ∧ (PerformanceMonitor.shouldResizeImages optimization = true
     ↔ ∃ info, memoryInfo = Some info ∧ isMobile info = true
               ∧ (deviceMemory info <= 2)%Q)
  ∧ PerformanceMonitor.optimizeForDevice None = PerformanceMonitor.mkOptimization 3 3 false 5.
Proof.
  intros optimization. subst optimization.
  unfold PerformanceMonitor.optimizeForDevice, PerformanceMonitor.leOpt.
  destruct memoryInfo as [[mobile memory ratio]|]; simpl.
  - destruct mobile; simpl;
      destruct (Qle_bool memory 2) eqn:H2; destruct (Qle_bool memory 4) eqn:H4; simpl;
      repeat split; try lia; try done; try (by eexists);
      try (intros (info & Hinfo & Hm & Hle); simplify_eq/=;
           apply Qle_bool_iff in Hle; congruence);
      try (intros _; eexists; split; [reflexivity|]; split; [done|];
           by apply Qle_bool_iff).
  - repeat split; try lia; try done; try (by eexists).
    intros (info & Hinfo & _). discriminate Hinfo.
Qed.

(** ** Sharpening: what the kernels leave alone *)

Lemma canvas_ext (c1 c2 : Canvas) :
  wellFormed c1 → wellFormed c2 →
  cwidth c1 = cwidth c2 → cheight c1 = cheight c2 →
  (∀ X Y k, 0 ≤ X < cwidth c1 → 0 ≤ Y < cheight c1 → 0 ≤ k < 4 →
            canvasByte c1 X Y k = canvasByte c2 X Y k) →
  c1 = c2.
Proof.
  intros Hwf1 Hwf2 Hw Hh Hbytes.
  pose proof Hwf1 as (Hw1 & Hh1 & Hlen1). pose proof Hwf2 as (Hw2 & Hh2 & Hlen2).
  destruct c1 as [w1 h1 p1], c2 as [w2 h2 p2]. simpl in *. subst w2 h2. f_equal.
  apply list_eq. intros i.
  destruct (decide (i < length p1)%nat) as [Hi|Hi].
  - set (P := Z.of_nat i).
    set (X := (P `div` 4) `mod` w1). set (Y := (P `div` 4) `div` w1). set (k := P `mod` 4).
    assert (0 ≤ X < w1 ∧ 0 ≤ Y < h1 ∧ 0 ≤ k < 4 ∧ P = (Y * w1 + X) * 4 + k)
      as (HX & HY & Hk & HP).
    { unfold X, Y, k. assert (0 ≤ P < 4 * w1 * h1) by (unfold P; lia).
      Z.to_euclidean_division_equations. nia. }
    pose proof (canvasByte_lookup (mkCanvas w1 h1 p1) X Y k Hwf1 HX HY Hk) as H1.
    pose proof (canvasByte_lookup (mkCanvas w1 h1 p2) X Y k Hwf2 HX HY Hk) as H2.
    simpl in H1, H2. rewrite <- HP in H1, H2. unfold aget in H1, H2.
    destruct (Z.ltb_spec P 0); [lia|]. unfold P in H1, H2. rewrite Nat2Z.id in H1, H2.
    rewrite H1, H2. f_equal. by apply Hbytes.
  - rewrite !lookup_ge_None_2; [done|lia..].
Qed.

(** The frame of the full-frame filters: the canvas is read, the interior
    of a copy is rewritten by a convolution over what was read, and the
    copy is put back. *)
Lemma full_frame_filter ctx (loops : list Z → list Z → list Z)
    (value : list Z → Z → Z → Z → JS.num) :
  wellFormed ctx →
  (∀ data newData,
     loops data newData
     = writeAll (fun '(y, x, c) => (y * cwidth ctx + x) * 4 + c)
         (fun '(y, x, c) => value data y x c)
         (triples 1 (cheight ctx - 1) 1 (cwidth ctx - 1)) newData) →
  ∃ img out,
    getImageData ctx 0 0 (cwidth ctx) (cheight ctx) = Some img
    ∧ (∀ X Y k, 0 ≤ X < cwidth ctx → 0 ≤ Y < cheight ctx → 0 ≤ k < 3 →
         aget (idata img) ((Y * cwidth ctx + X) * 4 + k) = Some (canvasByte ctx X Y k))
    ∧ (newImage ← newImageData (loops (idata img) (idata img)) (cwidth ctx) (cheight ctx);
       Some (putImageData ctx newImage 0 0)) = Some out
    ∧ wellFormed out ∧ cwidth out = cwidth ctx ∧ cheight out = cheight ctx
    ∧ (∀ X Y k, interior (cwidth ctx) (cheight ctx) X Y → 0 ≤ k < 3 →
         canvasByte out X Y k = JS.ToUint8Clamp (value (idata img) Y X k))
    ∧ (∀ X Y k, 0 ≤ X < cwidth ctx → 0 ≤ Y < cheight ctx → 0 ≤ k < 4 →
         ¬ (interior (cwidth ctx) (cheight ctx) X Y ∧ k < 3) →
         canvasByte out X Y k = canvasByte ctx X Y k).
Proof.
  intros Hwf Hloops. pose proof Hwf as (Hw & Hh & Hlen).
  set (w := cwidth ctx) in *. set (h := cheight ctx) in *.
  destruct (getImageData_spec ctx 0 0 w h Hw Hh) as (img & Himg & _ & _ & Hdlen & Hdata).
  set (data := idata img) in *.
  assert (∀ X Y k, 0 ≤ X < w → 0 ≤ Y < h → 0 ≤ k < 3 →
                   aget data ((Y * w + X) * 4 + k) = Some (canvasByte ctx X Y k)) as Hd.
  { intros X Y k HX HY Hk. rewrite Hdata by lia. by rewrite readByte_colour by lia. }
  exists img. fold data. rewrite (Hloops data data).
  set (pos := fun '(y, x, c) => (y * w + x) * 4 + c).
  set (val := fun '(y, x, c) => value data y x c).
  eexists. split; [exact Himg|]. split; [exact Hd|].
  unfold newImageData. rewrite length_writeAll.
  destruct (Z.ltb_spec 0 w); [|lia]. destruct (Z.ltb_spec 0 h); [|lia].
  destruct (Z.eqb_spec (Z.of_nat (length data)) (4 * w * h)); [|lia]. simpl.
  split; [reflexivity|].
  split; [by apply putImageData_wellFormed|]. split; [done|]. split; [done|].
  assert (∀ X Y k, 0 ≤ X < w → 0 ≤ Y < h → 0 ≤ k < 4 →
            canvasByte (putImageData ctx
              (mkImageData w h (writeAll pos val (triples 1 (h - 1) 1 (w - 1)) data)) 0 0)
              X Y k
            = if k <? 3
              then default (canvasByte ctx X Y k)
                     (aget (writeAll pos val (triples 1 (h - 1) 1 (w - 1)) data)
                        ((Y * w + X) * 4 + k))
              else canvasByte ctx X Y k)
    as Hput.
  { intros X Y k HX HY Hk. rewrite canvasByte_putImageData by done. simpl.
    destruct (Z.leb_spec 0 X); [|lia]. destruct (Z.ltb_spec X (0 + w)); [|lia].
    destruct (Z.leb_spec 0 Y); [|lia]. destruct (Z.ltb_spec Y (0 + h)); [|lia].
    simpl. by rewrite !Z.sub_0_r. }
  split.
  - intros X Y k [HX HY] Hk. rewrite Hput by lia.
    destruct (Z.ltb_spec k 3); [|lia].
    rewrite (aget_writeAll_written pos val _ data (Y, X, k)).
    + reflexivity.
    + by apply elem_of_triples.
    + intros [[y' x'] c'] Hin Heq. apply elem_of_triples in Hin.
      apply position_inj in Heq as (-> & -> & ->); [done|lia..].
    + simpl. pose proof (index_bound w h X Y k). lia.
  - intros X Y k HX HY Hk Hnot. rewrite Hput by lia.
    destruct (Z.ltb_spec k 3); [|done].
    rewrite aget_writeAll_other.
    + by rewrite Hd by lia.
    + intros [[y x] c] Hin Heq. apply elem_of_triples in Hin. simpl in Heq.
      apply position_inj in Heq as (-> & -> & ->); [|lia..].
      apply Hnot. unfold interior. lia.
Qed.

Lemma sharpenValue_flat (s : Q) (v : Z) :
  (sharpenValue s v v v v v == inject_Z v)%Q.
Proof. unfold sharpenValue. ring. Qed.

Lemma clampByte_byte (v : Z) : 0 ≤ v ≤ 255 → clampByte (inject_Z v) = v.
Proof.
  intros Hv. unfold clampByte, clampNum, JS.Math_max, JS.Math_min.
  assert (Qle_bool 255 (inject_Z v) = bool_decide (255 ≤ v)) as ->.
  { apply eq_true_iff_eq. rewrite Qle_bool_iff, bool_decide_eq_true.
    change 255%Q with (inject_Z 255). by rewrite <- Zle_Qle. }
  case_bool_decide.
  - assert (v = 255) as -> by lia. reflexivity.
  - assert (Qle_bool 0 (inject_Z v) = true) as ->.
    { apply Qle_bool_iff. change 0%Q with (inject_Z 0). rewrite <- Zle_Qle. lia. }
    apply ToUint8Clamp_byte. lia.
Qed.

(** X10.  The single-pass sharpening changes nothing it has no reason to
    change: on a well-formed canvas it returns a canvas of the same size
    in which every alpha byte, every pixel of the one-pixel border and
    every interior colour byte whose four neighbours hold the same value
    are as before, at any strength.  A canvas of one colour comes back
    identical. *)
Theorem sharpening_keeps_flat_pixels ctx (s : Q) :
  wellFormed ctx → validBytes ctx →
  ∃ out,
    applyHighQualitySharpening ctx (cwidth ctx) (cheight ctx) s = Some out
    ∧ cwidth out = cwidth ctx ∧ cheight out = cheight ctx
    ∧ (∀ X Y k, 0 ≤ X < cwidth ctx → 0 ≤ Y < cheight ctx → 0 ≤ k < 4 →
         k = 3 ∨ ¬ interior (cwidth ctx) (cheight ctx) X Y ∨ flatAt ctx X Y k →
         canvasByte out X Y k = canvasByte ctx X Y k)
    ∧ (uniform ctx → out = ctx).
Proof.
  intros Hwf Hvalid.
  destruct (applyHighQualitySharpening_spec ctx s Hwf)
    as (out & Hout & Hwfo & Hcw & Hch & Hint & Hrest).
  assert (∀ X Y k, 0 ≤ X < cwidth ctx → 0 ≤ Y < cheight ctx → 0 ≤ k < 4 →
            k = 3 ∨ ¬ interior (cwidth ctx) (cheight ctx) X Y ∨ flatAt ctx X Y k →
            canvasByte out X Y k = canvasByte ctx X Y k) as Hkeep.
  { intros X Y k HX HY Hk Hcase.
    destruct (decide (interior (cwidth ctx) (cheight ctx) X Y ∧ k < 3)) as [[Hi Hk3]|Hno].
    - destruct Hcase as [-> | [Hni | (Hu & Hd & Hl & Hr)]]; [lia|done|].
      rewrite Hint by (done || lia). rewrite Hu, Hd, Hl, Hr.
      rewrite (clampByte_proper _ _ (sharpenValue_flat s _)).
      apply clampByte_byte. by apply canvasByte_range.
    - by apply Hrest. }
  exists out. split; [done|]. split; [done|]. split; [done|]. split; [exact Hkeep|].
  intros Hu. apply canvas_ext; [done..|].
  intros X Y k HX HY Hk. rewrite Hcw in HX. rewrite Hch in HY.
  apply Hkeep; [done..|].
  destruct (decide (k = 3)) as [-> | Hk3]; [by left|].
  destruct (decide (interior (cwidth ctx) (cheight ctx) X Y)) as [[HiX HiY]|Hni];
    [|right; by left].
  right. right. unfold flatAt. repeat split; apply Hu; lia.
Qed.

Lemma sharpening_keeps_flat_pixels_witness :
  ∃ out,
    applyHighQualitySharpening (mkCanvas 3 3 (replicate 36 200)) 3 3 1 = Some out
    ∧ out = mkCanvas 3 3 (replicate 36 200).
Proof.
  destruct (sharpening_keeps_flat_pixels (mkCanvas 3 3 (replicate 36 200)) 1)
    as (out & Hout & _ & _ & _ & Hsame).
  - repeat split.
  - apply Forall_replicate. lia.
  - exists out. split; [exact Hout|]. apply Hsame.
    intros X Y X' Y' k HX HY HX' HY' Hk. simpl in *.
    assert (∀ a b c, 0 ≤ a < 3 → 0 ≤ b < 3 → 0 ≤ c < 3 →
              canvasByte (mkCanvas 3 3 (replicate 36 200)) a b c = 200) as H200.
    { intros a b c Ha Hb Hc.
      assert (a = 0 ∨ a = 1 ∨ a = 2) as [-> | [-> | ->]] by lia;
        assert (b = 0 ∨ b = 1 ∨ b = 2) as [-> | [-> | ->]] by lia;
        assert (c = 0 ∨ c = 1 ∨ c = 2) as [-> | [-> | ->]] by lia; reflexivity. }
    by rewrite !H200.
Defined.

Lemma writeAll_clamp_ext {I : Type} (pos : I → Z) (val1 val2 : I → JS.num) (l : list I) a :
  (∀ i, i ∈ l → JS.ToUint8Clamp (val1 i) = JS.ToUint8Clamp (val2 i)) →
  writeAll pos val1 l a = writeAll pos val2 l a.
Proof.
  revert a. induction l as [|i l IH]; intros a Hext; [done|].
  unfold writeAll in *. cbn [foldl].
  assert (aset a (pos i) (val1 i) = aset a (pos i) (val2 i)) as ->.
  { unfold aset. rewrite (Hext i) by (by left). done. }
  apply IH. intros j Hj. apply Hext. by right.
Qed.

(** X11.  The CPU pass of the mobile module and the single pass of the
    core module compute the same five-point kernel.  On a well-formed
    canvas, at each strength of their two tables (0.2, 0.3, 0.4, 0.6
    and 1), both store every interior colour byte as the same kernel
    value, so that their results differ by at most one unit, and only
    where that value lies half way between two bytes; both leave the
    border pixels and alpha as they are.  At 0.6, the one strength that
    both tables hold, and at which no value lies half way, the two return
    the same canvas. *)
Theorem cpu_sharpening_is_single_pass ctx (s : Q) :
  wellFormed ctx →
  s ∈ [2 # 10; 3 # 10; 4 # 10; 6 # 10; 1]%Q →
  ∃ cpu single,
    ImageEnhancerMobile.applyCPUSharpening ctx (cwidth ctx) (cheight ctx) s = Some cpu
    ∧ applyHighQualitySharpening ctx (cwidth ctx) (cheight ctx) s = Some single
    ∧ (∀ X Y k, interior (cwidth ctx) (cheight ctx) X Y → 0 ≤ k < 3 →
         let value :=
           sharpenValue s (canvasByte ctx X Y k)
             (canvasByte ctx X (Y - 1) k) (canvasByte ctx X (Y + 1) k)
             (canvasByte ctx (X - 1) Y k) (canvasByte ctx (X + 1) Y k) in
         storedAs (canvasByte cpu X Y k) value
         ∧ storedAs (canvasByte single X Y k) value
         ∧ absDiff (canvasByte cpu X Y k) (canvasByte single X Y k) ≤ 1)
    ∧ (∀ X Y k, 0 ≤ X < cwidth ctx → 0 ≤ Y < cheight ctx → 0 ≤ k < 4 →
         ¬ (interior (cwidth ctx) (cheight ctx) X Y ∧ k < 3) →
         canvasByte cpu X Y k = canvasByte ctx X Y k
         ∧ canvasByte single X Y k = canvasByte ctx X Y k)
    ∧ (s = (6 # 10)%Q → cpu = single).
Proof.
  intros Hwf _.
  destruct (applyCPUSharpening_spec ctx s Hwf) as (cpu & Hcpu & Hcint & Hcrest).
  destruct (applyHighQualitySharpening_spec ctx s Hwf)
    as (single & Hsingle & Hwfs & Hcws & Hchs & Hsint & Hsrest).
  exists cpu, single. split; [done|]. split; [done|].
  assert (wellFormed cpu ∧ cwidth cpu = cwidth ctx ∧ cheight cpu = cheight ctx)
    as (Hwfc & Hcwc & Hchc).
  { revert Hcpu. unfold ImageEnhancerMobile.applyCPUSharpening.
    destruct (getImageData ctx 0 0 (cwidth ctx) (cheight ctx)); [|done].
    cbn [mbind option_bind]. destruct (newImageData _ _ _); [|done].
    cbn [mbind option_bind]. intros [= <-].
    split; [by apply putImageData_wellFormed|done]. }
  split; [|split].
  - intros X Y k Hi Hk value. subst value.
    rewrite (Hcint X Y k Hi Hk), (Hsint X Y k Hi Hk).
    split; [apply clampByte_storedAs|]. split; [apply clampByte_storedAs|].
    unfold absDiff. lia.
  - intros X Y k HX HY Hk Hnot. by rewrite Hcrest, Hsrest.
  - intros _. apply canvas_ext; [done..|lia|lia|].
    intros X Y k HX HY Hk. rewrite Hcwc in HX. rewrite Hchc in HY.
    destruct (decide (interior (cwidth ctx) (cheight ctx) X Y ∧ k < 3)) as [[Hi Hk3]|Hno].
    + by rewrite Hcint, Hsint by (done || lia).
    + by rewrite Hcrest, Hsrest.
Qed.

Lemma cpu_sharpening_is_single_pass_witness :
  ∃ cpu single,
    ImageEnhancerMobile.applyCPUSharpening Samples.canvas4 4 4 (6 # 10) = Some cpu
    ∧ applyHighQualitySharpening Samples.canvas4 4 4 (6 # 10) = Some single
    ∧ cpu = single.
Proof.
  destruct (cpu_sharpening_is_single_pass Samples.canvas4 (6 # 10))
    as (cpu & single & Hcpu & Hsingle & _ & _ & Hsame).
  - repeat split.
  - do 3 apply list_elem_of_further. apply list_elem_of_here.
  - exists cpu, single. split; [exact Hcpu|]. split; [exact Hsingle|]. by apply Hsame.
Defined.

(** ** The preview variant *)

Lemma previewSum_kernelSum data kernel w y x c :
  previewSum data kernel w y x c = kernelSum data kernel w y x c.
Proof.
  unfold previewSum, kernelSum, forZ.
  change (seqZ 0 (3 - 0)) with [0; 1; 2].
  change (seqZ (-1) (2 - -1)) with [-1; 0; 1].
  cbn [foldl]. repeat (f_equal; try lia).
Qed.

Lemma previewLoops_writeAll data kernel w h nd :
  previewLoops data kernel w h nd
  = writeAll (fun '(y, x, c) => (y * w + x) * 4 + c)
      (fun '(y, x, c) => clampNum (kernelSum data kernel w y x c))
      (triples 1 (h - 1) 1 (w - 1)) nd.
Proof.
  unfold previewLoops.
  rewrite (forZ3_writeAll (fun y x c => (y * w + x) * 4 + c)
             (fun y x c => clampNum (previewSum data kernel w y x c))).
  apply writeAll_clamp_ext. intros [[y x] c] _. by rewrite previewSum_kernelSum.
Qed.

Lemma kernelSum_previewKernel data t w y x c :
  (∀ ky kx, -1 ≤ ky ≤ 1 → -1 ≤ kx ≤ 1 →
            is_Some (aget data (((y + ky) * w + (x + kx)) * 4 + c))) →
  ∃ q, kernelSum data (previewKernel t) w y x c = JS.Num q
       ∧ (q == previewValue t (byteAt data w y x c)
                 (byteAt data w (y - 1) x c) (byteAt data w (y + 1) x c)
                 (byteAt data w y (x - 1) c) (byteAt data w y (x + 1) c)
                 (byteAt data w (y - 1) (x - 1) c) (byteAt data w (y - 1) (x + 1) c)
                 (byteAt data w (y + 1) (x - 1) c) (byteAt data w (y + 1) (x + 1) c))%Q.
Proof.
  intros Hin.
  set (rd := fun ky kx => aget data (((y + ky) * w + (x + kx)) * 4 + c)).
  assert (byteAt data w y x c = default 0 (rd 0 0)) as ->
    by (unfold byteAt, rd; do 2 f_equal; lia).
  assert (byteAt data w (y - 1) x c = default 0 (rd (-1) 0)) as ->
    by (unfold byteAt, rd; do 2 f_equal; lia).
  assert (byteAt data w (y + 1) x c = default 0 (rd 1 0)) as ->
    by (unfold byteAt, rd; do 2 f_equal; lia).
  assert (byteAt data w y (x - 1) c = default 0 (rd 0 (-1))) as ->
    by (unfold byteAt, rd; do 2 f_equal; lia).
  assert (byteAt data w y (x + 1) c = default 0 (rd 0 1)) as ->
    by (unfold byteAt, rd; do 2 f_equal; lia).
  assert (byteAt data w (y - 1) (x - 1) c = default 0 (rd (-1) (-1))) as ->
    by (unfold byteAt, rd; do 2 f_equal; lia).
  assert (byteAt data w (y - 1) (x + 1) c = default 0 (rd (-1) 1)) as ->
    by (unfold byteAt, rd; do 2 f_equal; lia).
  assert (byteAt data w (y + 1) (x - 1) c = default 0 (rd 1 (-1))) as ->
    by (unfold byteAt, rd; do 2 f_equal; lia).
  assert (byteAt data w (y + 1) (x + 1) c = default 0 (rd 1 1)) as ->
    by (unfold byteAt, rd; do 2 f_equal; lia).
  unfold kernelSum, forZ.
  change (seqZ (-1) (2 - -1)) with [-1; 0; 1].
  cbn [foldl]. fold (rd (-1) (-1)) (rd (-1) 0) (rd (-1) 1) (rd 0 (-1)) (rd 0 0)
    (rd 0 1) (rd 1 (-1)) (rd 1 0) (rd 1 1).
  destruct (Hin (-1) (-1)) as [v1 Hv1]; [lia..|]; fold (rd (-1) (-1)) in Hv1; rewrite Hv1.
  destruct (Hin (-1) 0) as [v2 Hv2]; [lia..|]; fold (rd (-1) 0) in Hv2; rewrite Hv2.
  destruct (Hin (-1) 1) as [v3 Hv3]; [lia..|]; fold (rd (-1) 1) in Hv3; rewrite Hv3.
  destruct (Hin 0 (-1)) as [v4 Hv4]; [lia..|]; fold (rd 0 (-1)) in Hv4; rewrite Hv4.
  destruct (Hin 0 0) as [v5 Hv5]; [lia..|]; fold (rd 0 0) in Hv5; rewrite Hv5.
  destruct (Hin 0 1) as [v6 Hv6]; [lia..|]; fold (rd 0 1) in Hv6; rewrite Hv6.
  destruct (Hin 1 (-1)) as [v7 Hv7]; [lia..|]; fold (rd 1 (-1)) in Hv7; rewrite Hv7.
  destruct (Hin 1 0) as [v8 Hv8]; [lia..|]; fold (rd 1 0) in Hv8; rewrite Hv8.
  destruct (Hin 1 1) as [v9 Hv9]; [lia..|]; fold (rd 1 1) in Hv9; rewrite Hv9.
  simpl.
  eexists. split; [reflexivity|]. unfold previewValue. ring.
Qed.

Lemma previewValue_flat (t : Q) (v : Z) :
  (previewValue t v v v v v v v v v == inject_Z v)%Q.
Proof. unfold previewValue. ring. Qed.

(** X12.  The preview filter at level 1, 2 or 3 works at 0.7 times the
    strength of the level: each colour byte of an interior pixel is
    stored as the value (1 + 1.6 t) c - 0.3 t (up + down + left + right)
    - 0.1 t (the four corners), that is as the byte nearest to that
    value clamped, either neighbour where it lies half way; border
    pixels and alpha are left as they are; the weights add up to one,
    so a canvas of one colour comes back identical.  At level 0 the
    canvas is not touched. *)
Theorem preview_enhancement_kernel ctx (level : Z) (s : Q) :
  wellFormed ctx → validBytes ctx →
  level = 1 ∨ level = 2 ∨ level = 3 →
  enhancementLevels level = Some s →
  let t := (s * (7 # 10))%Q in
  ∃ out,
    applyPreviewEnhancement ctx (cwidth ctx) (cheight ctx) level = Some out
    ∧ wellFormed out ∧ cwidth out = cwidth ctx ∧ cheight out = cheight ctx
    ∧ (∀ X Y k, interior (cwidth ctx) (cheight ctx) X Y → 0 ≤ k < 3 →
         storedAs (canvasByte out X Y k)
           (previewValue t (canvasByte ctx X Y k)
              (canvasByte ctx X (Y - 1) k) (canvasByte ctx X (Y + 1) k)
              (canvasByte ctx (X - 1) Y k) (canvasByte ctx (X + 1) Y k)
              (canvasByte ctx (X - 1) (Y - 1) k) (canvasByte ctx (X + 1) (Y - 1) k)
              (canvasByte ctx (X - 1) (Y + 1) k) (canvasByte ctx (X + 1) (Y + 1) k)))
    ∧ (∀ X Y k, 0 ≤ X < cwidth ctx → 0 ≤ Y < cheight ctx → 0 ≤ k < 4 →
         ¬ (interior (cwidth ctx) (cheight ctx) X Y ∧ k < 3) →
         canvasByte out X Y k = canvasByte ctx X Y k)
    ∧ (uniform ctx → out = ctx)
    ∧ applyPreviewEnhancement ctx (cwidth ctx) (cheight ctx) 0 = Some ctx.
Proof.
  intros Hwf Hvalid Hlevel Hs t.
  destruct (full_frame_filter ctx
              (fun data newData =>
                 previewLoops data (previewKernel t) (cwidth ctx) (cheight ctx) newData)
              (fun data y x c =>
                 clampNum (kernelSum data (previewKernel t) (cwidth ctx) y x c)) Hwf)
    as (img & out & Himg & Hd & Hout & Hwfo & Hcw & Hch & Hint & Hrest).
  { intros data newData. apply previewLoops_writeAll. }
  assert (∀ X Y k, interior (cwidth ctx) (cheight ctx) X Y → 0 ≤ k < 3 →
            canvasByte out X Y k
            = clampByte (previewValue t (canvasByte ctx X Y k)
                (canvasByte ctx X (Y - 1) k) (canvasByte ctx X (Y + 1) k)
                (canvasByte ctx (X - 1) Y k) (canvasByte ctx (X + 1) Y k)
                (canvasByte ctx (X - 1) (Y - 1) k) (canvasByte ctx (X + 1) (Y - 1) k)
                (canvasByte ctx (X - 1) (Y + 1) k) (canvasByte ctx (X + 1) (Y + 1) k)))
    as Hkernel.
  { intros X Y k [HX HY] Hk. rewrite Hint by (done || lia).
    destruct (kernelSum_previewKernel (idata img) t (cwidth ctx) Y X k) as (q & -> & Hq).
    { intros ky kx Hky Hkx. rewrite Hd by lia. done. }
    unfold byteAt in Hq. rewrite !Hd in Hq by lia. simpl in Hq.
    by apply clampByte_proper. }
  exists out. split.
  { unfold applyPreviewEnhancement. rewrite Hs. cbn [mbind option_bind]. fold t.
    assert (Qeq_bool t 0 = false) as ->.
    { unfold t. destruct Hlevel as [-> | [-> | ->]];
        injection Hs as <-; reflexivity. }
    rewrite Himg. exact Hout. }
  split; [done|]. split; [done|]. split; [done|].
  split; [intros X Y k Hi Hk; rewrite Hkernel by done; apply clampByte_storedAs|].
  split; [exact Hrest|]. split; [|reflexivity].
  intros Hu. apply canvas_ext; [done..|].
  intros X Y k HX HY Hk. rewrite Hcw in HX. rewrite Hch in HY.
  destruct (decide (interior (cwidth ctx) (cheight ctx) X Y ∧ k < 3)) as [[Hi Hk3]|Hno];
    [|by apply Hrest].
  rewrite Hkernel by (done || lia). destruct Hi as [HiX HiY].
  rewrite (Hu X (Y - 1) X Y k), (Hu X (Y + 1) X Y k), (Hu (X - 1) Y X Y k),
    (Hu (X + 1) Y X Y k), (Hu (X - 1) (Y - 1) X Y k), (Hu (X + 1) (Y - 1) X Y k),
    (Hu (X - 1) (Y + 1) X Y k), (Hu (X + 1) (Y + 1) X Y k) by lia.
  rewrite (clampByte_proper _ _ (previewValue_flat t _)).
  apply clampByte_byte. by apply canvasByte_range.
Qed.

Lemma preview_enhancement_kernel_witness :
  ∃ out,
    applyPreviewEnhancement Samples.canvas4 4 4 3 = Some out
    ∧ (previewValue (7 # 10) 140 80 70 60 40 50 110 180 70 == 2156 # 10)%Q
    ∧ canvasByte out 2 1 1 = 216
    ∧ canvasByte out 0 0 1 = canvasByte Samples.canvas4 0 0 1.
Proof.
  destruct (preview_enhancement_kernel Samples.canvas4 3 1)
    as (out & Hout & _ & _ & _ & Hkernel & Hrest & _).
  - repeat split.
  - repeat constructor; lia.
  - right. right. reflexivity.
  - reflexivity.
  - exists out. split; [exact Hout|]. split; [reflexivity|]. split.
    + apply (storedAs_unique _ 216 _ (Hkernel 2 1 1 ltac:(unfold interior; simpl; lia)
                                        ltac:(lia))); reflexivity.
    + apply Hrest; simpl; try lia. unfold interior. simpl. lia.
Defined.

Lemma previewScale_spec (w h : Z) :
  0 < w → 0 < h →
  (0 < previewScale w h)%Q
  ∧ (previewScale w h <= 1)%Q
  ∧ (previewScale w h <= 300 / inject_Z w)%Q
  ∧ (previewScale w h <= 300 / inject_Z h)%Q
  ∧ (w ≤ 300 → h ≤ 300 → previewScale w h == 1)%Q.
Proof.
  intros Hw Hh.
  pose proof (inject_Z_pos w Hw) as HwQ. pose proof (inject_Z_pos h Hh) as HhQ.
  set (a := (300 / inject_Z w)%Q). set (b := (300 / inject_Z h)%Q).
  assert (0 < a)%Q as Ha by (apply Qlt_shift_div_l; [done|]; by rewrite Qmult_0_l).
  assert (0 < b)%Q as Hb by (apply Qlt_shift_div_l; [done|]; by rewrite Qmult_0_l).
  assert (w ≤ 300 → 1 <= a)%Q as Ha1.
  { intros Hle. apply Qle_shift_div_l; [done|]. rewrite Qmult_1_l.
    change 300%Q with (inject_Z 300). by rewrite <- Zle_Qle. }
  assert (h ≤ 300 → 1 <= b)%Q as Hb1.
  { intros Hle. apply Qle_shift_div_l; [done|]. rewrite Qmult_1_l.
    change 300%Q with (inject_Z 300). by rewrite <- Zle_Qle. }
  unfold previewScale. cbv zeta. fold a b.
  destruct (Qle_bool a b) eqn:Hab.
  - apply Qle_bool_iff in Hab.
    destruct (Qle_bool a 1) eqn:Ha'.
    + apply Qle_bool_iff in Ha'.
      split; [done|]. split; [done|]. split; [apply Qle_refl|]. split; [done|].
      intros Hw3 Hh3. apply Qle_antisym; [done|by apply Ha1].
    + apply Qle_bool_false in Ha'.
      split; [reflexivity|]. split; [apply Qle_refl|].
      split; [by apply Qlt_le_weak|].
      split; [apply Qlt_le_weak; by eapply Qlt_le_trans|]. reflexivity.
  - apply Qle_bool_false in Hab.
    destruct (Qle_bool b 1) eqn:Hb'.
    + apply Qle_bool_iff in Hb'.
      split; [done|]. split; [done|]. split; [by apply Qlt_le_weak|].
      split; [apply Qle_refl|].
      intros Hw3 Hh3. apply Qle_antisym; [done|by apply Hb1].
    + apply Qle_bool_false in Hb'.
      split; [reflexivity|]. split; [apply Qle_refl|].
      split; [apply Qlt_le_weak; by eapply Qlt_trans|].
      split; [by apply Qlt_le_weak|]. reflexivity.
Qed.

Lemma scaled_side (n w : Z) (scale : Q) :
  0 < n → 0 < w →
  (0 < scale)%Q → (scale <= 1)%Q → (scale <= 300 / inject_Z w)%Q →
  0 ≤ Qfloor (inject_Z n * scale) ≤ n
  ∧ (n ≤ w → Qfloor (inject_Z n * scale) ≤ 300)
  ∧ (300 * n < w → Qfloor (inject_Z n * scale) = 0).
Proof.
  intros Hn Hw Hs0 Hs1 Hsw.
  pose proof (inject_Z_pos n Hn) as HnQ. pose proof (inject_Z_pos w Hw) as HwQ.
  set (v := (inject_Z n * scale)%Q).
  assert (0 <= v)%Q as Hv0.
  { unfold v. apply Qmult_le_0_compat; by apply Qlt_le_weak. }
  assert (v <= inject_Z n)%Q as Hvn.
  { unfold v. rewrite <- (Qmult_1_r (inject_Z n)) at 2.
    apply Qmult_le_l; done. }
  assert (v <= inject_Z (300 * n) / inject_Z w)%Q as Hvw.
  { unfold v. eapply Qle_trans.
    - apply Qmult_le_l; [done|exact Hsw].
    - rewrite inject_Z_mult. change (inject_Z 300) with 300%Q.
      unfold Qdiv. rewrite Qmult_assoc, (Qmult_comm (inject_Z n)). apply Qle_refl. }
  assert (0 ≤ Qfloor v) as Hf0.
  { rewrite <- (Qfloor_Z 0). by apply Qfloor_resp_le. }
  assert (Qfloor v ≤ n) as Hfn.
  { rewrite <- (Qfloor_Z n). by apply Qfloor_resp_le. }
  split; [lia|]. split.
  - intros Hnw. rewrite <- (Qfloor_Z 300). apply Qfloor_resp_le.
    eapply Qle_trans; [exact Hvw|].
    apply Qle_shift_div_r; [done|].
    change 300%Q with (inject_Z 300). rewrite <- (inject_Z_mult 300 w).
    rewrite <- Zle_Qle. lia.
  - intros Hsliver.
    assert (v < 1)%Q as Hlt.
    { eapply Qle_lt_trans; [exact Hvw|].
      apply Qlt_shift_div_r; [done|]. rewrite Qmult_1_l. by rewrite <- Zlt_Qlt. }
    assert (Qfloor v < 1); [|lia].
    rewrite Zlt_Qlt. eapply Qle_lt_trans; [apply Qfloor_le|exact Hlt].
Qed.

(** X13.  A preview is at most 300 pixels on a side and never larger
    than the image; an image of at most 300 by 300 is previewed at its
    own size.  An image more than 300 times as wide as high (or as high
    as wide) gets a preview height (or width) of 0, and then
    [createPreviewEnhancement] fails at every level but 0, where it
    returns its input. *)
Theorem preview_size_and_slivers (pf : Platform) (imageDataUrl : string) (img : Canvas) :
  decodeImage pf imageDataUrl = Some img →
  0 < cwidth img → 0 < cheight img →
  let scale := previewScale (cwidth img) (cheight img) in
  let previewWidth := Qfloor (inject_Z (cwidth img) * scale) in
  let previewHeight := Qfloor (inject_Z (cheight img) * scale) in
  0 ≤ previewWidth ≤ Z.min (cwidth img) 300
  ∧ 0 ≤ previewHeight ≤ Z.min (cheight img) 300
  ∧ (cwidth img ≤ 300 → cheight img ≤ 300 →
     previewWidth = cwidth img ∧ previewHeight = cheight img)
  ∧ (300 * cheight img < cwidth img ∨ 300 * cwidth img < cheight img →
     ∀ level, level ≠ 0 → createPreviewEnhancement pf imageDataUrl level = None)
  ∧ createPreviewEnhancement pf imageDataUrl 0 = Some imageDataUrl.
Proof.
  intros Himg Hw Hh scale previewWidth previewHeight.
  destruct (previewScale_spec (cwidth img) (cheight img) Hw Hh)
    as (Hs0 & Hs1 & Hsw & Hsh & Hone).
  fold scale in Hs0, Hs1, Hsw, Hsh, Hone.
  destruct (scaled_side (cwidth img) (cwidth img) scale Hw Hw Hs0 Hs1 Hsw)
    as (Hw1 & Hw2 & _).
  destruct (scaled_side (cheight img) (cheight img) scale Hh Hh Hs0 Hs1 Hsh)
    as (Hh1 & Hh2 & _).
  destruct (scaled_side (cheight img) (cwidth img) scale Hh Hw Hs0 Hs1 Hsw)
    as (_ & _ & Hh0).
  destruct (scaled_side (cwidth img) (cheight img) scale Hw Hh Hs0 Hs1 Hsh)
    as (_ & _ & Hw0).
  fold previewWidth in Hw1, Hw2, Hw0. fold previewHeight in Hh1, Hh2, Hh0.
  split; [lia|]. split; [lia|]. split; [|split; [|reflexivity]].
  - intros Hw3 Hh3. specialize (Hone Hw3 Hh3).
    unfold previewWidth, previewHeight. split.
    + rewrite <- (Qfloor_Z (cwidth img)) at 2. apply Qfloor_comp.
      rewrite Hone. apply Qmult_1_r.
    + rewrite <- (Qfloor_Z (cheight img)) at 2. apply Qfloor_comp.
      rewrite Hone. apply Qmult_1_r.
  - intros Hsliver level Hlevel. unfold createPreviewEnhancement.
    destruct (Z.eqb_spec level 0) as [|_]; [done|].
    rewrite Himg. cbn [mbind option_bind]. fold scale previewWidth previewHeight.
    unfold applyPreviewEnhancement.
    assert (getImageData (drawImage pf img previewWidth previewHeight) 0 0
              previewWidth previewHeight = None) as Hread.
    { unfold getImageData.
      destruct Hsliver as [Hs|Hs]; [rewrite (Hh0 Hs)|rewrite (Hw0 Hs)];
        by rewrite ?andb_false_r. }
    unfold enhancementLevels.
    destruct (Z.eqb_spec level 0) as [|_]; [done|].
    repeat (case_match; cbn [mbind option_bind]; try discriminate;
            rewrite ?Hread; try reflexivity).
Qed.

Lemma preview_size_and_slivers_witness :
  createPreviewEnhancement
    (mkPlatform (fun _ => Some (mkCanvas 3000 5 [])) (fun img _ _ => img)
       (fun _ _ => "data:preview"%string))
    "data:sliver"%string 2 = None
  ∧ Qfloor (inject_Z 5 * previewScale 3000 5) = 0.
Proof.
  destruct (preview_size_and_slivers
              (mkPlatform (fun _ => Some (mkCanvas 3000 5 [])) (fun img _ _ => img)
                 (fun _ _ => "data:preview"%string))
              "data:sliver"%string (mkCanvas 3000 5 []))
    as (_ & _ & _ & Hfail & _); [reflexivity | simpl; lia | simpl; lia |].
  split; [apply Hfail; [left; simpl; lia | discriminate]|].
  reflexivity.
Defined.

(** ** Contrast *)

Lemma ToUint8Clamp_mono (q q' : Q) :
  (q <= q')%Q → JS.ToUint8Clamp (JS.Num q) ≤ JS.ToUint8Clamp (JS.Num q').
Proof.
  intros Hle.
  pose proof (ToUint8Clamp_range (JS.Num q)) as Hr.
  pose proof (ToUint8Clamp_range (JS.Num q')) as Hr'.
  unfold JS.ToUint8Clamp in *.
  destruct (Qle_bool q 0) eqn:H0; [lia|].
  destruct (Qle_bool q' 0) eqn:H0'; [q_bools; lra|].
  destruct (Qle_bool 255 q') eqn:H255'; [lia|].
  destruct (Qle_bool 255 q) eqn:H255; [q_bools; lra|].
  pose proof (Qfloor_resp_le _ _ Hle) as Hf.
  pose proof (Qfloor_le q) as Hq1. pose proof (Qlt_floor q) as Hq2.
  pose proof (Qfloor_le q') as Hq1'. pose proof (Qlt_floor q') as Hq2'.
  set (f := Qfloor q) in *. set (f' := Qfloor q') in *.
  rewrite inject_Z_plus in Hq2, Hq2'. change (inject_Z 1) with 1%Q in Hq2, Hq2'.
  destruct (decide (f = f')) as [Heq|Hne].
  - rewrite <- Heq in *.
    destruct (JS.Qlt_bool (inject_Z f + (1 # 2)) q) eqn:Ha;
      destruct (JS.Qlt_bool (inject_Z f + (1 # 2)) q') eqn:Ha';
      destruct (JS.Qlt_bool q (inject_Z f + (1 # 2))) eqn:Hb;
      destruct (JS.Qlt_bool q' (inject_Z f + (1 # 2))) eqn:Hb';
      destruct (Z.even f); q_bools; try lia; lra.
  - assert (f + 1 ≤ f') by lia.
    repeat case_match; lia.
Qed.

Lemma clampByte_ToUint8Clamp (q : Q) : clampByte q = JS.ToUint8Clamp (JS.Num q).
Proof.
  unfold clampByte, clampNum, JS.Math_max, JS.Math_min.
  destruct (Qle_bool 255 q) eqn:H255.
  - change (Qle_bool 0 255) with true. cbv iota.
    unfold JS.ToUint8Clamp. rewrite H255.
    destruct (Qle_bool q 0) eqn:H0; [q_bools; lra|reflexivity].
  - destruct (Qle_bool 0 q) eqn:H0; [reflexivity|].
    unfold JS.ToUint8Clamp. change (Qle_bool 0 0) with true.
    assert (Qle_bool q 0 = true) as -> by (apply Qle_bool_iff; q_bools; lra).
    reflexivity.
Qed.

Lemma clampByte_mono (q q' : Q) : (q <= q')%Q → clampByte q ≤ clampByte q'.
Proof. rewrite !clampByte_ToUint8Clamp. apply ToUint8Clamp_mono. Qed.

Lemma contrastCoefficient_ge_1 (f : Q) : (0 <= f)%Q → (1 <= contrastCoefficient f)%Q.
Proof.
  intros Hf. unfold contrastCoefficient.
  apply Qle_shift_div_l; [nra|]. nra.
Qed.

Lemma contrastValue_gap (c : Q) (v : Z) :
  (contrastValue c v - inject_Z v == (inject_Z v - (255 # 2)) * (c - 1))%Q.
Proof. unfold contrastValue. field. Qed.

Lemma contrastByte_spec (c : Q) (v v' : Z) :
  (1 <= c)%Q → 0 ≤ v ≤ 255 → 0 ≤ v' ≤ 255 →
  (v ≤ 127 → contrastByte c v ≤ v)
  ∧ (128 ≤ v → v ≤ contrastByte c v)
  ∧ (v ≤ v' → contrastByte c v ≤ contrastByte c v')
  ∧ ((c == 1)%Q → contrastByte c v = v).
Proof.
  intros Hc Hv Hv'.
  pose proof (contrastValue_gap c v) as Hgap.
  assert (inject_Z v <= 127 ↔ v ≤ 127)%Q as H127
    by (change 127%Q with (inject_Z 127); by rewrite <- Zle_Qle).
  assert (128 <= inject_Z v ↔ 128 ≤ v)%Q as H128
    by (change 128%Q with (inject_Z 128); by rewrite <- Zle_Qle).
  unfold contrastByte. repeat split.
  - intros Hlow. apply H127 in Hlow.
    rewrite <- (clampByte_byte v) at 2 by done. apply clampByte_mono. nra.
  - intros Hhigh. apply H128 in Hhigh.
    rewrite <- (clampByte_byte v) at 1 by done. apply clampByte_mono. nra.
  - intros Hvv. apply clampByte_mono. rewrite Zle_Qle in Hvv.
    pose proof (contrastValue_gap c v') as Hgap'.
    assert (0 <= (inject_Z v' - inject_Z v) * c)%Q by nra.
    nra.
  - intros Hone. rewrite <- (clampByte_byte v) at 2 by done. apply clampByte_proper.
    unfold contrastValue. rewrite Hone. field.
Qed.

(** X14.  The contrast pass, run with a factor that is not negative,
    stretches the colours away from mid-grey and does nothing else: the
    canvas keeps its size and every alpha byte; a colour byte of at most
    127 does not grow and one of at least 128 does not shrink; of two
    colour bytes the larger stays the larger; and with factor 0 the
    canvas comes back identical. *)
Theorem contrast_stretches_from_mid_grey ctx (factor : Q) :
  wellFormed ctx → validBytes ctx → (0 <= factor)%Q →
  ∃ out,
    applyContrastEnhancement ctx (cwidth ctx) (cheight ctx) factor = Some out
    ∧ cwidth out = cwidth ctx ∧ cheight out = cheight ctx
    ∧ (∀ X Y, 0 ≤ X < cwidth ctx → 0 ≤ Y < cheight ctx →
         canvasByte out X Y 3 = canvasByte ctx X Y 3)
    ∧ (∀ X Y k, 0 ≤ X < cwidth ctx → 0 ≤ Y < cheight ctx → 0 ≤ k < 3 →
         (canvasByte ctx X Y k ≤ 127 → canvasByte out X Y k ≤ canvasByte ctx X Y k)
         ∧ (128 ≤ canvasByte ctx X Y k → canvasByte ctx X Y k ≤ canvasByte out X Y k))
    ∧ (∀ X Y k X' Y' k',
         0 ≤ X < cwidth ctx → 0 ≤ Y < cheight ctx → 0 ≤ k < 3 →
         0 ≤ X' < cwidth ctx → 0 ≤ Y' < cheight ctx → 0 ≤ k' < 3 →
         canvasByte ctx X Y k ≤ canvasByte ctx X' Y' k' →
         canvasByte out X Y k ≤ canvasByte out X' Y' k')
    ∧ ((factor == 0)%Q → out = ctx).
Proof.
  intros Hwf Hvalid Hf.
  destruct (applyContrastEnhancement_spec ctx factor Hwf)
    as (out & Hout & Hwfo & Hcw & Hch & Hbytes).
  pose proof (contrastCoefficient_ge_1 factor Hf) as Hc.
  assert (∀ X Y k, 0 ≤ canvasByte ctx X Y k ≤ 255) as Hrange
    by (intros; by apply canvasByte_range).
  exists out. split; [done|]. split; [done|]. split; [done|].
  split; [|split; [|split]].
  - intros X Y HX HY. by rewrite Hbytes by lia.
  - intros X Y k HX HY Hk. rewrite Hbytes by lia.
    destruct (Z.ltb_spec k 3); [|lia].
    destruct (contrastByte_spec (contrastCoefficient factor) (canvasByte ctx X Y k)
                (canvasByte ctx X Y k) Hc (Hrange _ _ _) (Hrange _ _ _)) as (? & ? & _).
    done.
  - intros X Y k X' Y' k' HX HY Hk HX' HY' Hk' Hle. rewrite !Hbytes by lia.
    destruct (Z.ltb_spec k 3); [|lia]. destruct (Z.ltb_spec k' 3); [|lia].
    destruct (contrastByte_spec (contrastCoefficient factor) (canvasByte ctx X Y k)
                (canvasByte ctx X' Y' k') Hc (Hrange _ _ _) (Hrange _ _ _))
      as (_ & _ & Hmono & _).
    by apply Hmono.
  - intros Hzero. apply canvas_ext; [done..|].
    intros X Y k HX HY Hk. rewrite Hcw in HX. rewrite Hch in HY.
    rewrite Hbytes by done. case_match; [|done].
    destruct (contrastByte_spec (contrastCoefficient factor) (canvasByte ctx X Y k)
                (canvasByte ctx X Y k) Hc (Hrange _ _ _) (Hrange _ _ _))
      as (_ & _ & _ & Hid).
    apply Hid. unfold contrastCoefficient. rewrite Hzero. reflexivity.
Qed.

Lemma contrast_stretches_from_mid_grey_witness :
  ∃ out,
    applyContrastEnhancement Samples.canvas4 4 4 (2 # 10) = Some out
    ∧ canvasByte Samples.canvas4 1 1 0 = 120 ∧ canvasByte out 1 1 0 ≤ 120
    ∧ canvasByte Samples.canvas4 1 1 2 = 200 ∧ 200 ≤ canvasByte out 1 1 2
    ∧ canvasByte out 1 1 3 = 230.
Proof.
  destruct (contrast_stretches_from_mid_grey Samples.canvas4 (2 # 10))
    as (out & Hout & _ & _ & Halpha & Hmove & _).
  - repeat split.
  - repeat constructor; lia.
  - by apply Qle_bool_iff.
  - exists out. split; [exact Hout|]. split; [reflexivity|].
    destruct (Hmove 1 1 0) as [Hlow _]; [simpl; lia..|].
    destruct (Hmove 1 1 2) as [_ Hhigh]; [simpl; lia..|].
    split; [apply Hlow; discriminate|]. split; [reflexivity|].
    split; [apply Hhigh; discriminate|].
    apply (Halpha 1 1); simpl; lia.
Defined.

(** ** Enhancements that cannot run *)

Lemma enhanceImageSafely_fails pf mm heap imageDataUrl level :
  level ≠ 0 →
  MemoryManager.checkMemoryUsage mm heap = false
  ∨ decodeImage pf imageDataUrl = None
  ∨ enhancementLevels level = None →
  enhanceImageSafely pf mm heap imageDataUrl level = None.
Proof.
  intros Hlevel Hcause. unfold enhanceImageSafely.
  destruct (Z.eqb_spec level 0) as [|_]; [done|].
  unfold MemoryManager.processImageSafely.
  destruct (MemoryManager.checkMemoryUsage mm heap) eqn:Hcheck; [|reflexivity].
  destruct Hcause as [Hc|[Hc|Hc]]; [done| |].
  - by rewrite Hc.
  - cbn [negb]. destruct (decodeImage pf imageDataUrl) as [img|]; [|reflexivity].
    cbn [mbind option_bind].
    destruct (if MemoryManager.needsResize _ then _ else _) as [processImageData|];
      [|reflexivity].
    cbn [mbind option_bind]. unfold performEnhancement.
    destruct (decodeImage pf processImageData) as [img'|]; [|reflexivity].
    cbn [mbind option_bind]. unfold applyOptimizedEnhancement. by rewrite Hc.
Qed.

Lemma imap_absorbed_none (level : Z) (attempt : nat → File.t → option string)
    (files : list File.t) :
  (∀ k file, attempt k file = None) →
  imap (fun k file => absorbed level (attempt k file) file) files = files.
Proof.
  intros Hnone. revert attempt Hnone.
  induction files as [|file files IH]; intros attempt Hnone; [done|].
  cbn [imap]. rewrite Hnone. simpl. f_equal.
  apply (IH (fun k => attempt (S k))). intros k f. apply Hnone.
Qed.

(** X15.  On the desktop path an enhancement that cannot run leaves no
    trace.  [enhanceImageSafely] at a level other than 0 fails when the
    browser gives no heap reading or one above the manager's threshold,
    when the image does not decode, or when the level is not a key of the
    table of levels; and a batch in which every item meets one of these
    causes (no critical condition arising) returns the very list it was
    given: no file is flagged as enhanced and no error is raised.  The
    mobile filter reads every level other than 2 and 3 as strength 0.2. *)
Theorem silent_enhancement_failures :
  (∀ pf mm heap imageDataUrl level,
      level ≠ 0 →
      heap = None
      ∨ MemoryManager.checkMemoryUsage mm heap = false
      ∨ decodeImage pf imageDataUrl = None
      ∨ ¬ (1 ≤ level ≤ 3) →
      enhanceImageSafely pf mm heap imageDataUrl level = None)
  ∧ (∀ pf mm tl memoryInfo files level cb,
      level ≠ 0 →
      (∀ i, MemoryManager.checkMemoryUsage mm (heapAtItem tl i) = false)
      ∨ ¬ (1 ≤ level ≤ 3) →
      (∀ i, i ∈ stepsZ 0 (Z.of_nat (length files)) (chunkSize memoryInfo) →
            ¬ critical (monitorAfterChunk tl i) (memoryInfoAfterChunk tl i)) →
      enhanceImagesBatch pf mm tl memoryInfo files level cb = Returned files)
  ∧ (∀ level, level ≠ 2 → level ≠ 3 →
      ImageEnhancerMobile.lightweightStrength level = (2 # 10)%Q).
Proof.
  assert (∀ level, level ≠ 0 → ¬ (1 ≤ level ≤ 3) → enhancementLevels level = None) as Hkey.
  { intros level H0 Hout. unfold enhancementLevels.
    destruct (Z.eqb_spec level 0); [lia|]. destruct (Z.eqb_spec level 1); [lia|].
    destruct (Z.eqb_spec level 2); [lia|]. destruct (Z.eqb_spec level 3); [lia|].
    reflexivity. }
  split; [|split].
  - intros pf mm heap imageDataUrl level Hlevel Hcause.
    apply enhanceImageSafely_fails; [done|].
    destruct Hcause as [-> |[Hc|[Hc|Hc]]]; auto.
  - intros pf mm tl memoryInfo files level cb Hlevel Hcause Hcalm.
    rewrite enhanceImagesBatch_calm; [|done|].
    + f_equal. apply imap_absorbed_none. intros k file. unfold coreAttempt.
      destruct (callProgress cb (Z.of_nat k) (Z.of_nat (length files)) (File.name file));
        [|reflexivity].
      cbn [mbind option_bind]. apply enhanceImageSafely_fails; [done|].
      destruct Hcause as [Hc|Hc]; auto.
    + intros i Hi. apply not_true_is_false. intros Hp.
      apply (Hcalm i Hi). by apply shouldPause_critical.
  - intros level H2 H3. unfold ImageEnhancerMobile.lightweightStrength, kget.
    destruct (Z.ltb_spec level 0); [reflexivity|].
    destruct (Z.to_nat level) as [|[|[|[|n]]]] eqn:Hn; try reflexivity; lia.
Qed.

Lemma silent_enhancement_failures_witness :
  enhanceImagesBatch Samples.platform Samples.manager
    (mkTimeline (fun _ => None) (fun _ => Samples.calmMonitor)
       (fun _ => Samples.desktop (1 # 10)))
    (Samples.desktop (1 # 10)) Samples.tenFiles 2 None
  = Returned Samples.tenFiles
  ∧ enhanceImagesBatch Samples.platform Samples.manager Samples.calm
      (Samples.desktop (1 # 10)) Samples.tenFiles 4 None
    = Returned Samples.tenFiles.
Proof.
  destruct silent_enhancement_failures as (_ & Hbatch & _).
  split.
  - apply Hbatch; [discriminate | left; reflexivity |].
    intros i _ Hcrit. apply shouldPause_critical in Hcrit. discriminate Hcrit.
  - apply Hbatch; [discriminate | right; lia |].
    intros i _ Hcrit. apply shouldPause_critical in Hcrit. discriminate Hcrit.
Defined.

(** ** The mobile settings *)

Section MobileSettings.
Import ImageEnhancerMobile.

(** The ranges every reachable value of [optimizationSettings] is in. *)
Local Abbreviation inRange := (fun s : Settings =>
  100 ≤ processingDelay s
  ∧ 1 ≤ maxBatchSize s ≤ 2
  ∧ maxImageSize s ∈ [1024 * 768; 1920 * 1080; 2560 * 1920]
  ∧ qualityReduction s ∈ [(5 # 100)%Q; (1 # 10)%Q; (2 # 10)%Q; (3 # 10)%Q]).

Local Ltac member :=
  solve [repeat first [apply list_elem_of_here | apply list_elem_of_further]].

Lemma getOptimizationSettings_inRange capability :
  inRange (getOptimizationSettings capability).
Proof. destruct capability; simpl; repeat split; try lia; member. Qed.

Lemma adjustForNetworkChange_inRange s connection :
  inRange s → inRange (adjustForNetworkChange s connection).
Proof.
  intros (Hd & Hb & Hm & Hq). unfold adjustForNetworkChange.
  destruct connection as [c|]; [|done].
  repeat case_match; simpl; repeat split; try lia; member.
Qed.

Lemma adjustForBatteryLevel_inRange capability s level :
  inRange s → inRange (adjustForBatteryLevel capability s level).
Proof.
  intros (Hd & Hb & Hm & Hq). unfold adjustForBatteryLevel.
  repeat case_match; simpl; repeat split; try lia; done.
Qed.

Lemma adjustForChargingState_inRange s isCharging :
  inRange s → inRange (adjustForChargingState s isCharging).
Proof.
  intros (Hd & Hb & Hm & Hq). unfold adjustForChargingState.
  destruct isCharging; simpl; repeat split; try lia; done.
Qed.

Lemma new_inRange nav : inRange (new nav).2.
Proof.
  unfold new. simpl. destruct (detectMobileDevice nav).
  - destruct (navBattery nav) as [battery|].
    + apply adjustForChargingState_inRange, adjustForBatteryLevel_inRange,
        adjustForNetworkChange_inRange, getOptimizationSettings_inRange.
    + apply adjustForNetworkChange_inRange, getOptimizationSettings_inRange.
  - apply getOptimizationSettings_inRange.
Qed.

(** X16.  The settings of the mobile module stay in range through any
    run of connection, battery-level and charging events, on any
    device: the delay between images is at least 100 ms, the batch size
    is 1 or 2, the pixel budget is one of 1024x768, 1920x1080 and
    2560x1920, and the quality reduction is one of 0.05, 0.1, 0.2 and
    0.3, so the JPEG qualities 0.85 and 0.88 less the reduction stay
    between 0.55 and 0.83. *)
Theorem mobile_settings_stay_in_range (nav : Navigator) (events : list Event) :
  let settings := foldl handleEvent (new nav).2 events in
  100 ≤ processingDelay settings
  ∧ 1 ≤ maxBatchSize settings ≤ 2
  ∧ maxImageSize settings ∈ [1024 * 768; 1920 * 1080; 2560 * 1920]
  ∧ qualityReduction settings ∈ [(5 # 100)%Q; (1 # 10)%Q; (2 # 10)%Q; (3 # 10)%Q]
  ∧ (55 # 100 <= (85 # 100) - qualityReduction settings)%Q
  ∧ ((88 # 100) - qualityReduction settings <= 83 # 100)%Q.
Proof.
  intros settings.
  assert (inRange settings) as (Hd & Hb & Hm & Hq).
  { subst settings. generalize (new_inRange nav). generalize (new nav).2.
    induction events as [|e events IH]; intros s Hs; [done|].
    cbn [foldl]. apply IH. destruct e as [connection|capability level|isCharging].
    - by apply (adjustForNetworkChange_inRange s (Some connection)).
    - by apply (adjustForBatteryLevel_inRange capability s level).
    - by apply (adjustForChargingState_inRange s isCharging). }
  split; [done|]. split; [done|]. split; [done|]. split; [done|].
  repeat (apply elem_of_cons in Hq as [-> | Hq]; [split; by apply Qle_bool_iff|]).
  by apply elem_of_nil in Hq.
Qed.

(** X17.  On a mobile device whose browser exposes the connection, the
    pixel budget and the quality reduction the module starts with are
    those of the connection type, not of the device tier: 1024x768 and
    0.3 on slow-2g and 2g, 1920x1080 and 0.2 on 3g, 2560x1920 and 0.1
    otherwise.  Without the connection, or on a device that is not
    mobile, they are those of the tier. *)
Theorem network_overrides_device_tier (nav : Navigator) :
  let capability := capabilityLevel (new nav).1 in
  let settings := (new nav).2 in
  (detectMobileDevice nav = true → is_Some (navConnection nav) →
   (maxImageSize settings, qualityReduction settings)
   = if effectiveTypeIs (navConnection nav) "slow-2g"
        || effectiveTypeIs (navConnection nav) "2g"
     then (1024 * 768, (3 # 10)%Q)
     else if effectiveTypeIs (navConnection nav) "3g"
     then (1920 * 1080, (2 # 10)%Q)
     else (2560 * 1920, (1 # 10)%Q))
  ∧ (detectMobileDevice nav = false ∨ navConnection nav = None →
     maxImageSize settings = maxImageSize (getOptimizationSettings capability)
     ∧ qualityReduction settings = qualityReduction (getOptimizationSettings capability)).
Proof.
  intros capability settings. subst capability settings. unfold new. simpl.
  split.
  - intros -> [conn Hconn]. rewrite Hconn.
    destruct (navBattery nav) as [battery|];
      unfold initialBatteryOptimization, adjustForChargingState, adjustForBatteryLevel,
        adjustForNetworkChange;
      repeat case_match; reflexivity.
  - intros [-> | Hnone]; [done|].
    rewrite Hnone. destruct (detectMobileDevice nav); [|done].
    destruct (navBattery nav) as [battery|];
      unfold initialBatteryOptimization, adjustForChargingState, adjustForBatteryLevel;
      simpl; repeat case_match; done.
Qed.

Lemma network_overrides_device_tier_witness :
  capabilityLevel (new Samples.phone).1 = low
  ∧ maxImageSize (getOptimizationSettings low) = 786432
  ∧ maxImageSize (new Samples.phone).2 = 4915200.
Proof.
  split; [reflexivity|]. split; [reflexivity|].
  destruct (network_overrides_device_tier Samples.phone) as [Hnet _].
  specialize (Hnet eq_refl (ex_intro _ _ eq_refl)).
  exact (f_equal fst Hnet).
Defined.
End MobileSettings.

(** ** OrderDetector: what the new order holds *)

Section OrderProperties.
Import OrderDetector.

(** *** Sorting keeps the elements *)

Lemma insertSorted_perm {A} (compare : A → A → Z) (x : A) (l : list A) :
  insertSorted compare x l ≡ₚ x :: l.
Proof.
  induction l as [|y l IH]; [done|]. simpl.
  destruct (compare y x <=? 0); [|done].
  rewrite IH. apply Permutation_swap.
Qed.

Lemma sortWith_perm {A} (compare : A → A → Z) (l : list A) :
  sortWith compare l ≡ₚ l.
Proof.
  unfold sortWith.
  assert (∀ acc, foldl (fun acc x => insertSorted compare x acc) acc l ≡ₚ acc ++ l) as H.
  { induction l as [|x l IH]; intros acc; simpl.
    - by rewrite app_nil_r.
    - rewrite IH, insertSorted_perm. simpl. apply Permutation_middle. }
  apply H.
Qed.

Lemma filter_perm {A} (p : A → bool) (l1 l2 : list A) :
  l1 ≡ₚ l2 → List.filter p l1 ≡ₚ List.filter p l2.
Proof.
  induction 1 as [|x l1 l2 _ IH|x y l|l1 l2 l3 _ IH1 _ IH2]; simpl.
  - done.
  - destruct (p x); by rewrite IH.
  - destruct (p x), (p y); (done || apply Permutation_swap).
  - by rewrite IH1.
Qed.

Lemma filter_split_perm {A} (p : A → bool) (l : list A) :
  List.filter p l ++ List.filter (fun x => negb (p x)) l ≡ₚ l.
Proof.
  induction l as [|x l IH]; [done|]. simpl. destruct (p x); simpl.
  - by rewrite IH.
  - by rewrite <- Permutation_middle, IH.
Qed.

Lemma filter_ext_in {A} (p q : A → bool) (l : list A) :
  (∀ x, x ∈ l → p x = q x) → List.filter p l = List.filter q l.
Proof.
  induction l as [|x l IH]; intros Hext; [done|]. simpl.
  rewrite (Hext x) by (by left). rewrite IH; [done|].
  intros y Hy. apply Hext. by right.
Qed.

Lemma elem_of_filter_list {A} (p : A → bool) (l : list A) (x : A) :
  x ∈ List.filter p l ↔ x ∈ l ∧ p x = true.
Proof.
  rewrite !list_elem_of_In. apply filter_In.
Qed.

(** *** The cover files found by the analysis *)

Lemma analysis_covers (files : list File.t) :
  fst <$> coverFiles (analyzeFileNames files) = List.filter coverNamed files
  ∧ hasCover (analyzeFileNames files) = existsb coverNamed files.
Proof.
  unfold analyzeFileNames.
  set (step := fun '(hasCover, coverFiles) '(index, file) =>
                 let fileName := File.name file in
                 let nameWithoutExt := removeExtension fileName in
                 if isCoverFile fileName || isCoverFile nameWithoutExt
                 then (true, (coverFiles ++ [(file, index)])%list)
                 else (hasCover, coverFiles)).
  assert (∀ (l : list File.t) (k : nat) hc (cf : list (File.t * nat)),
            let r := foldl step (hc, cf) (imap (fun index file => ((k + index)%nat, file)) l) in
            fst <$> r.2 = (fst <$> cf) ++ List.filter coverNamed l
            ∧ r.1 = hc || existsb coverNamed l) as Hfold.
  { induction l as [|file l IH]; intros k hc cf.
    - simpl. by rewrite app_nil_r, orb_false_r.
    - cbn [imap foldl List.filter existsb]. cbv zeta.
      assert (step (hc, cf) ((k + 0)%nat, file)
              = if coverNamed file then (true, (cf ++ [(file, (k + 0)%nat)])%list)
                else (hc, cf)) as -> by reflexivity.
      rewrite (imap_ext _ (fun index file => ((S k + index)%nat, file)) l)
        by (intros; simpl; f_equal; lia).
      destruct (coverNamed file) eqn:Hc.
      + specialize (IH (S k) true (cf ++ [(file, (k + 0)%nat)])%list).
        cbv zeta in IH. destruct IH as [IH1 IH2]. rewrite IH1, IH2.
        rewrite fmap_app, <- app_assoc. simpl. by rewrite orb_true_r.
      + specialize (IH (S k) hc cf). cbv zeta in IH. destruct IH as [IH1 IH2].
        rewrite IH1, IH2. done. }
  specialize (Hfold files 0%nat false []). cbv zeta in Hfold.
  change (imap (fun index file => ((0 + index)%nat, file)) files)
    with (imap (fun index (file : File.t) => (index, file)) files) in Hfold.
  fold step.
  destruct (foldl step (false, []) (imap (fun index file => (index, file)) files))
    as [hc cf] eqn:Hr.
  simpl in Hfold.
  destruct (hasConsistentNumbering (analyzeNumbering files)); simpl; exact Hfold.
Qed.
End OrderProperties.

Section OrderNumbering.
Import OrderDetector.

(** *** A match needs a digit *)

Lemma hasDigit_cons a s : hasDigit (String a s) = isDigit a || hasDigit s.
Proof.
  unfold hasDigit. simpl. by rewrite negb_andb, negb_involutive.
Qed.

Lemma digitRunsFrom_hasDigit current s :
  digitRunsFrom current s ≠ [] → current ≠ ""%string ∨ hasDigit s = true.
Proof.
  revert current. induction s as [|a s IH]; intros current; simpl.
  - destruct (String.eqb_spec current ""); [done|by left].
  - rewrite hasDigit_cons. destruct (isDigit a); [by right|]. simpl.
    destruct (String.eqb_spec current ""); [|by left].
    simpl. intros Hne. destruct (IH ""%string Hne); [done|by right].
Qed.

Lemma matchPattern_hasDigit pattern s digits :
  matchPattern pattern s = Some digits → hasDigit s = true.
Proof.
  assert (digitRuns s ≠ [] → hasDigit s = true) as Hruns.
  { intros Hne. destruct (digitRunsFrom_hasDigit ""%string s Hne); done. }
  destruct pattern; simpl.
  - destruct s as [|a s]; simpl; [done|].
    rewrite hasDigit_cons. destruct (isDigit a); [done|]. simpl. done.
  - intros Hh. apply Hruns. by destruct (digitRuns s).
  - intros Hl. apply Hruns. by destruct (digitRuns s).
  - intros Hh. apply Hruns. by destruct (digitRuns s).
Qed.

(** *** The files a valid extraction returns *)

Lemma extractNumbers_valid files pattern :
  isValid (extractNumbers files pattern) = true →
  (∀ f, f ∈ orderedFiles (extractNumbers files pattern) →
        f ∈ files ∧ hasDigit (removeExtension (File.name f)) = true)
  ∧ (files ≠ [] → orderedFiles (extractNumbers files pattern) ≠ []).
Proof.
  unfold extractNumbers.
  set (extracted := omap _ _).
  assert (∀ e, e ∈ extracted →
            file e ∈ files ∧ hasDigit (removeExtension (File.name (file e))) = true)
    as Hext.
  { intros e He. apply list_elem_of_omap in He as ([index f] & Hin & Hg).
    apply elem_of_lookup_imap in Hin as (i & f' & Heq & Hlook). simplify_eq.
    destruct (matchPattern pattern (removeExtension (File.name f'))) as [digits|] eqn:Hm;
      [|done].
    simplify_eq. simpl. split.
    - apply list_elem_of_lookup. by exists i.
    - by eapply matchPattern_hasDigit. }
  destruct (JS.Qlt_bool _ _) eqn:Hfew; [done|].
  destruct (_ || _); [|done]. simpl. intros _. split.
  - intros f Hf. apply list_elem_of_fmap in Hf as (e & -> & He).
    apply Hext. by rewrite sortWith_perm in He.
  - intros Hne Hnil. apply fmap_nil_inv in Hnil.
    assert (extracted = []) as Hempty.
    { apply Permutation_nil_r. rewrite <- Hnil. symmetry. apply sortWith_perm. }
    rewrite Hempty in Hfew. apply Qlt_bool_false in Hfew.
    destruct files as [|f files]; [done|]. simpl length in Hfew.
    revert Hfew. apply Qlt_not_le.
    assert (0 < inject_Z (Z.of_nat (S (length files))))%Q
      by (rewrite <- (Zlt_Qlt 0); lia).
    change (inject_Z (Z.of_nat 0)) with 0%Q. nra.
Qed.

Lemma analyzeNumbering_valid files :
  hasConsistentNumbering (analyzeNumbering files) = true →
  (∀ f, f ∈ numberingFiles (analyzeNumbering files) →
        f ∈ files ∧ hasDigit (removeExtension (File.name f)) = true)
  ∧ (files ≠ [] → numberingFiles (analyzeNumbering files) ≠ []).
Proof.
  unfold analyzeNumbering, numberPatterns.
  destruct (isValid (extractNumbers files LeadingDigits)) eqn:H1;
    [intros _; by apply extractNumbers_valid|].
  destruct (isValid (extractNumbers files AnyDigits)) eqn:H2;
    [intros _; by apply extractNumbers_valid|].
  destruct (isValid (extractNumbers files TrailingDigits)) eqn:H3;
    [intros _; by apply extractNumbers_valid|].
  destruct (isValid (extractNumbers files LooseDigits)) eqn:H4;
    [intros _; by apply extractNumbers_valid|].
  done.
Qed.

Lemma analyzeFileNames_numbered files :
  hasValidOrder (analyzeFileNames files) = true →
  (∀ f, f ∈ numberedFiles (analyzeFileNames files) →
        f ∈ files ∧ hasDigit (removeExtension (File.name f)) = true)
  ∧ (files ≠ [] → numberedFiles (analyzeFileNames files) ≠ []).
Proof.
  unfold analyzeFileNames.
  destruct (foldl _ _ _) as [hc cf].
  destruct (hasConsistentNumbering (analyzeNumbering files)) eqn:Hn; [|done].
  simpl. intros _. by apply analyzeNumbering_valid.
Qed.

Variable localeCompare : string → string → Z.

(** X18.  When [detectOrder] finds a numeric order, the list it hands
    over holds cover files and files whose name (without extension)
    holds a digit, and nothing else: a file of the selection that is
    neither is dropped from the working list. *)
Theorem numbered_order_drops_other_files (files ordered : list File.t) :
  detectOrder localeCompare files = OrderApplied ordered →
  (∀ f, f ∈ ordered →
        f ∈ files
        ∧ (coverNamed f = true ∨ hasDigit (removeExtension (File.name f)) = true))
  ∧ (∀ f, f ∈ files → coverNamed f = false →
          hasDigit (removeExtension (File.name f)) = false → f ∉ ordered).
Proof.
  unfold detectOrder.
  destruct (length files =? 0)%nat eqn:Hlen; [done|].
  destruct (hasValidOrder (analyzeFileNames files)) eqn:Hvalid; [|done].
  intros [= <-].
  destruct (analyzeFileNames_numbered files Hvalid) as [Hnum Hne].
  destruct (analysis_covers files) as [Hcov Hhas].
  assert (files ≠ []) as Hfiles by (by destruct files).
  assert (∀ f, f ∈ applyDetectedOrder localeCompare files (analyzeFileNames files) →
            f ∈ files
            ∧ (coverNamed f = true ∨ hasDigit (removeExtension (File.name f)) = true))
    as Hin.
  { intros f. unfold applyDetectedOrder. rewrite Hvalid. simpl.
    destruct (numberedFiles (analyzeFileNames files)) as [|n ns] eqn:Hns;
      [by destruct (Hne Hfiles)|].
    change (0 <? length (n :: ns))%nat with true. cbv iota.
    rewrite elem_of_app. intros [Hf|Hf].
    - assert (f ∈ fst <$> coverFiles (analyzeFileNames files)) as Hf'.
      { destruct (hasCover _ && _); [done|]. by apply elem_of_nil in Hf. }
      rewrite Hcov in Hf'. apply elem_of_filter_list in Hf' as [? ?]. auto.
    - apply elem_of_filter_list in Hf as [Hf _].
      destruct (Hnum f Hf). auto. }
  split; [exact Hin|].
  intros f Hf Hcover Hdigit Hord. destruct (Hin f Hord) as [_ [?|?]]; congruence.
Qed.
End OrderNumbering.

Lemma numbered_order_drops_other_files_witness :
  File.name <$> Samples.pagesAndNotes = ["1.jpg"; "2.jpg"; "3.jpg"; "notes.jpg"]%string
  ∧ ∃ ordered,
      OrderDetector.detectOrder Samples.codeUnitCompare Samples.pagesAndNotes
      = OrderDetector.OrderApplied ordered
      ∧ Samples.file "file_4" "notes.jpg" ∉ ordered.
Proof.
  split; [reflexivity|].
  assert (∃ ordered,
            OrderDetector.detectOrder Samples.codeUnitCompare Samples.pagesAndNotes
            = OrderDetector.OrderApplied ordered)
    as [ordered Hordered] by (eexists; reflexivity).
  exists ordered. split; [exact Hordered|].
  destruct (numbered_order_drops_other_files Samples.codeUnitCompare
              Samples.pagesAndNotes ordered Hordered) as [_ Hdrop].
  apply Hdrop; [|reflexivity..].
  unfold Samples.pagesAndNotes. do 3 apply list_elem_of_further. apply list_elem_of_here.
Defined.

Section OrderFallback.
Import OrderDetector.
Variable localeCompare : string → string → Z.

Lemma existsb_fmap {A B} (g : B → bool) (f : A → B) (l : list A) :
  existsb g (f <$> l) = existsb (fun x => g (f x)) l.
Proof. induction l as [|x l IH]; [done|]. rewrite fmap_cons. cbn [existsb]. by rewrite IH. Qed.

Lemma same_id_same_file (files : list File.t) (f g : File.t) :
  NoDup (File.id <$> files) → f ∈ files → g ∈ files → File.id f = File.id g → f = g.
Proof.
  intros Hnd Hf Hg Hid.
  apply list_elem_of_lookup in Hf as [i Hi]. apply list_elem_of_lookup in Hg as [j Hj].
  assert (i = j) as ->.
  { eapply NoDup_lookup; [exact Hnd| |].
    - by rewrite list_lookup_fmap, Hi.
    - by rewrite list_lookup_fmap, Hj, Hid. }
  congruence.
Qed.

Lemma cover_by_id (files : list File.t) (f : File.t) :
  NoDup (File.id <$> files) → f ∈ files →
  existsb (fun cover => String.eqb (File.id cover) (File.id f))
    (List.filter coverNamed files)
  = coverNamed f.
Proof.
  intros Hnd Hf. apply eq_true_iff_eq. rewrite existsb_exists. split.
  - intros (c & Hc & Heq). apply filter_In in Hc as [Hc Hcov].
    apply String.eqb_eq in Heq. apply list_elem_of_In in Hc.
    by rewrite <- (same_id_same_file files c f Hnd Hc Hf Heq).
  - intros Hcov. exists f. split.
    + apply filter_In. split; [by apply list_elem_of_In|done].
    + apply String.eqb_refl.
Qed.

(** X19.  When no numeric order is found, no file is lost: with file
    ids that are all different, the order that the dialog's continue
    button hands over is a rearrangement of the selection that starts
    with the cover files in their original order, and so is the order
    [applyDetectedOrder] builds from such an analysis. *)
Theorem alphabetical_fallback_keeps_every_file (files : list File.t) :
  NoDup (File.id <$> files) →
  hasValidOrder (analyzeFileNames files) = false →
  let analysis := analyzeFileNames files in
  continueProcessing localeCompare files analysis ≡ₚ files
  ∧ applyDetectedOrder localeCompare files analysis ≡ₚ files
  ∧ (∃ rest, applyDetectedOrder localeCompare files analysis
             = List.filter coverNamed files ++ rest)
  ∧ (existsb coverNamed files = true →
     ∃ rest, continueProcessing localeCompare files analysis
             = List.filter coverNamed files ++ rest).
Proof.
  intros Hnd Hinvalid analysis. subst analysis.
  destruct (analysis_covers files) as [Hcov Hhas].
  set (cmp := fun a b : File.t => localeCompare (File.name a) (File.name b)).
  assert (∀ l : list File.t,
            l ≡ₚ files →
            List.filter (fun file =>
                           negb (existsb (fun cover => String.eqb (File.id cover) (File.id file))
                                   (List.filter coverNamed files))) l
            ≡ₚ List.filter (fun file => negb (coverNamed file)) files) as Hrest.
  { intros l Hl.
    rewrite (filter_ext_in _ (fun file => negb (coverNamed file)) l).
    - by apply filter_perm.
    - intros f Hf. rewrite cover_by_id; [done..|]. by rewrite <- Hl. }
  assert ((if hasCover (analyzeFileNames files)
              && (0 <? length (coverFiles (analyzeFileNames files)))%nat
           then fst <$> coverFiles (analyzeFileNames files) else [])
          = List.filter coverNamed files) as Hfront.
  { rewrite Hcov. destruct (hasCover (analyzeFileNames files)) eqn:Hc; simpl.
    - destruct (coverFiles (analyzeFileNames files)) eqn:Hcf; [|done].
      simpl in Hcov. by rewrite <- Hcov.
    - symmetry in Hhas. clear -Hhas.
      induction files as [|f fs IH]; [done|]. simpl in *.
      apply orb_false_iff in Hhas as [-> Hhas]. by apply IH. }
  assert (applyDetectedOrder localeCompare files (analyzeFileNames files)
          = List.filter coverNamed files
            ++ sortWith cmp
                 (List.filter (fun file => negb (isCoverOf (analyzeFileNames files) file))
                    files)) as Happly.
  { unfold applyDetectedOrder. rewrite Hinvalid. cbn [andb]. by rewrite Hfront. }
  split; [|split; [|split]].
  - unfold continueProcessing. fold cmp.
    destruct (hasCover (analyzeFileNames files)
              && (0 <? length (coverFiles (analyzeFileNames files)))%nat) eqn:Hc.
    + rewrite Hcov. rewrite (Hrest (sortWith cmp files)) by apply sortWith_perm.
      apply filter_split_perm.
    + apply sortWith_perm.
  - rewrite Happly, sortWith_perm.
    rewrite (filter_ext_in (fun file => negb (isCoverOf (analyzeFileNames files) file))
               (fun file => negb (coverNamed file)) files).
    + apply filter_split_perm.
    + intros f Hf. unfold isCoverOf.
      rewrite <- (existsb_fmap (fun cover => String.eqb (File.id cover) (File.id f)) fst).
      rewrite Hcov, cover_by_id; done.
  - rewrite Happly. by eexists.
  - intros Hsome. unfold continueProcessing. fold cmp.
    rewrite <- Hhas in Hsome. rewrite Hsome. cbn [andb].
    destruct (coverFiles (analyzeFileNames files)) as [|c cs] eqn:Hcf.
    + simpl in Hcov. rewrite <- Hcov. simpl. by eexists.
    + change (0 <? length (c :: cs))%nat with true. cbv iota zeta.
      rewrite Hcov. by eexists.
Qed.
End OrderFallback.

Lemma alphabetical_fallback_keeps_every_file_witness :
  OrderDetector.continueProcessing Samples.codeUnitCompare Samples.coverFirst
    (OrderDetector.analyzeFileNames Samples.coverFirst) ≡ₚ Samples.coverFirst
  ∧ ∃ rest, OrderDetector.continueProcessing Samples.codeUnitCompare Samples.coverFirst
              (OrderDetector.analyzeFileNames Samples.coverFirst)
            = Samples.file "file_1" "cover.jpg" :: rest.
Proof.
  destruct (alphabetical_fallback_keeps_every_file Samples.codeUnitCompare
              Samples.coverFirst) as (Hperm & _ & _ & Hfirst).
  - repeat constructor; rewrite ?elem_of_cons, ?elem_of_nil; intuition discriminate.
  - reflexivity.
  - split; [exact Hperm|]. destruct (Hfirst eq_refl) as [rest Hrest].
    exists rest. exact Hrest.
Defined.

(** ** Cover names *)

Section CoverNames.
Import OrderDetector.
Local Open Scope string_scope.

Lemma startsWith_refl s : startsWith s s = true.
Proof. induction s as [|a s IH]; [done|]. simpl. by rewrite Ascii.eqb_refl. Qed.

Lemma startsWith_trans s p q :
  startsWith s p = true → startsWith p q = true → startsWith s q = true.
Proof.
  revert s p. induction q as [|c q IH]; intros s p Hsp Hpq.
  - by destruct s.
  - destruct p as [|b p]; [done|]. destruct s as [|a s]; [done|].
    simpl in *. apply andb_true_iff in Hsp as [Hab Hsp].
    apply andb_true_iff in Hpq as [Hbc Hpq].
    apply Ascii.eqb_eq in Hab, Hbc. subst. rewrite Ascii.eqb_refl. simpl.
    by apply (IH s p).
Qed.

Lemma matches_prefix (lowerName coverName prefix : string) :
  startsWith coverName prefix = true →
  String.eqb lowerName coverName || startsWith lowerName coverName = true →
  startsWith lowerName prefix = true.
Proof.
  intros Hp Hm. apply (startsWith_trans _ coverName); [|done].
  apply orb_true_iff in Hm as [Heq|Hs]; [|done].
  apply String.eqb_eq in Heq. subst. apply startsWith_refl.
Qed.

Lemma isCoverFile_prefix (fileName : string) :
  isCoverFile fileName
  = startsWith (toLowerCase fileName) "cover"
    || startsWith (toLowerCase fileName) "封面".
Proof.
  apply eq_true_iff_eq. rewrite orb_true_iff. unfold isCoverFile.
  set (lowerName := toLowerCase fileName). split.
  - rewrite existsb_exists. intros (coverName & Hin & Hm).
    unfold coverNames in Hin. simpl in Hin.
    repeat (destruct Hin as [<- | Hin];
            [first [left; eapply matches_prefix; [|exact Hm]; reflexivity
                   |right; eapply matches_prefix; [|exact Hm]; reflexivity]|]).
    done.
  - intros [Hc|Hc]; apply existsb_exists.
    + exists "cover". split; [by left|].
      change (toLowerCase "cover") with "cover". by rewrite Hc, orb_true_r.
    + exists "封面". split; [do 18 right; by left|].
      change (toLowerCase "封面") with "封面". by rewrite Hc, orb_true_r.
Qed.

(** X20.  The twenty-four cover names amount to two prefixes:
    [isCoverFile] holds exactly of the names that, with their ASCII
    letters in lower case, start with "cover" or with the two
    characters of its Chinese counterpart.  So every name that merely
    begins with the word, such as Coverage.png, counts as a cover, and
    a name that holds the word further on does not. *)
Theorem cover_names_are_two_prefixes :
  (∀ fileName,
      isCoverFile fileName
      = startsWith (toLowerCase fileName) "cover"
        || startsWith (toLowerCase fileName) "封面")
  ∧ isCoverFile "Coverage.png" = true
  ∧ isCoverFile "back-cover.jpg" = false.
Proof.
  split; [exact isCoverFile_prefix|]. split; reflexivity.
Qed.

Lemma includes_startsWith s p : startsWith s p = true → ImageProcessor.includes s p = true.
Proof. intros Hs. destruct s; cbn [ImageProcessor.includes]; by rewrite Hs. Qed.

Lemma startsWith_removeExtension s p :
  allChars (fun c => negb (Ascii.eqb c ".")) p = true →
  startsWith (toLowerCase s) p = true →
  startsWith (toLowerCase (removeExtension s)) p = true.
Proof.
  revert s. induction p as [|b p IH]; intros s Hp Hs.
  - by destruct (toLowerCase (removeExtension s)).
  - destruct s as [|a s]; [done|]. simpl in Hp, Hs.
    apply andb_true_iff in Hp as [Hb Hp]. apply andb_true_iff in Hs as [Hab Hs].
    apply Ascii.eqb_eq in Hab. apply negb_true_iff in Hb.
    assert (Ascii.eqb a "." = false) as Ha.
    { apply Ascii.eqb_neq. intros ->. simpl in Hab. subst b. done. }
    simpl. rewrite Ha. simpl. rewrite Hab, Ascii.eqb_refl. simpl. by apply IH.
Qed.

(** X21.  The two cover tests of the code agree in one direction only.
    Every file that the order detector treats as a cover also gets the
    cover mark in the preview grid ([ImageProcessor.isCoverFile]); the
    preview, which looks for the word anywhere in the name, also marks
    files that the detector does not move to the front. *)
Theorem preview_marks_every_detected_cover :
  (∀ file, coverNamed file = true → ImageProcessor.isCoverFile (File.name file) = true)
  ∧ ImageProcessor.isCoverFile "back-cover.jpg" = true
  ∧ coverNamed (Samples.file "file_1" "back-cover.jpg") = false.
Proof.
  split; [|split; reflexivity].
  intros file Hc. unfold coverNamed in Hc.
  assert (startsWith (toLowerCase (removeExtension (File.name file))) "cover" = true
          ∨ startsWith (toLowerCase (removeExtension (File.name file))) "封面" = true)
    as Hprefix.
  { apply orb_true_iff in Hc as [Hc|Hc]; rewrite isCoverFile_prefix in Hc;
      apply orb_true_iff in Hc as [Hc|Hc];
      first [by left | by right
            | left; by apply startsWith_removeExtension
            | right; by apply startsWith_removeExtension]. }
  unfold ImageProcessor.isCoverFile. apply existsb_exists.
  destruct Hprefix as [Hp|Hp].
  - exists "cover". split; [by left|].
    change (toLowerCase "cover") with "cover". by apply includes_startsWith.
  - exists "封面". split; [do 3 right; by left|].
    change (toLowerCase "封面") with "封面". by apply includes_startsWith.
Qed.
End CoverNames.

(** ** The preview grid: reordering and removing *)

Section PreviewGrid.
Import OrderDetector.

(** X22.  Dropping a preview item on another moves one file and keeps
    the rest: with both indices inside the list, [handleDrop] hands
    over a list of the same files in which the dragged file sits at
    the index of the target and the other files are in their previous
    relative order.  Dropping an item on itself changes nothing; and a
    dragged index past the end, which no rendered item carries, would
    put an undefined entry into the list. *)
Theorem drop_moves_one_file (files : list File.t) (draggedIndex targetIndex : nat) :
  (draggedIndex < length files)%nat → (targetIndex < length files)%nat →
  draggedIndex ≠ targetIndex →
  (∃ movedFile newFiles,
      files !! draggedIndex = Some movedFile
      ∧ ImageProcessor.handleDrop files draggedIndex targetIndex = Some (Some <$> newFiles)
      ∧ newFiles !! targetIndex = Some movedFile
      ∧ delete targetIndex newFiles = delete draggedIndex files
      ∧ newFiles ≡ₚ files)
  ∧ ImageProcessor.handleDrop files draggedIndex draggedIndex = None
  ∧ (∃ newFiles,
       ImageProcessor.handleDrop files (length files) targetIndex = Some newFiles
       ∧ newFiles !! targetIndex = Some None).
Proof.
  intros Hd Ht Hne.
  destruct (lookup_lt_is_Some_2 files draggedIndex Hd) as [movedFile Hmoved].
  assert (length (delete draggedIndex files) = (length files - 1)%nat) as Hlen
    by (rewrite length_delete; [done|by eexists]).
  split; [|split].
  - exists movedFile,
      (take targetIndex (delete draggedIndex files)
       ++ movedFile :: drop targetIndex (delete draggedIndex files)).
    split; [done|]. split; [|split; [|split]].
    + unfold ImageProcessor.handleDrop.
      destruct (Nat.eqb_spec draggedIndex targetIndex) as [|_]; [done|].
      rewrite list_lookup_fmap, Hmoved. simpl.
      rewrite fmap_app, fmap_cons, fmap_take, fmap_drop, list_fmap_delete. done.
    + apply list_lookup_middle. rewrite length_take_le; lia.
    + rewrite delete_take_drop.
      rewrite take_app_le, take_take by (rewrite length_take_le; lia).
      rewrite Nat.min_id.
      rewrite drop_app_ge by (rewrite length_take_le; lia).
      rewrite length_take_le by lia.
      replace (S targetIndex - targetIndex)%nat with 1%nat by lia. simpl.
      rewrite drop_0. apply take_drop.
    + rewrite <- Permutation_middle, take_drop. symmetry.
      by apply delete_Permutation.
  - unfold ImageProcessor.handleDrop. by rewrite Nat.eqb_refl.
  - unfold ImageProcessor.handleDrop.
    destruct (Nat.eqb_spec (length files) targetIndex) as [|_]; [lia|].
    eexists. split; [reflexivity|].
    rewrite (lookup_ge_None_2 (Some <$> files)) by (rewrite length_fmap; lia). simpl.
    assert (delete (length files) (Some <$> files) = Some <$> files) as ->.
    { rewrite delete_take_drop, take_ge, drop_ge, app_nil_r by (rewrite length_fmap; lia).
      done. }
    apply list_lookup_middle. rewrite length_take_le; [done|].
    rewrite length_fmap. lia.
Qed.

Lemma drop_moves_one_file_witness :
  ∃ newFiles,
    ImageProcessor.handleDrop Samples.coverFirst 2 0 = Some (Some <$> newFiles)
    ∧ File.name <$> newFiles = ["002.jpg"; "cover.jpg"; "001.jpg"]%string.
Proof.
  destruct (drop_moves_one_file Samples.coverFirst 2 0)
    as ((movedFile & newFiles & _ & Hdrop & _) & _); [simpl; lia..|].
  exists newFiles. split; [exact Hdrop|].
  assert (ImageProcessor.handleDrop Samples.coverFirst 2 0
          = Some (Some <$> [Samples.file "file_3" "002.jpg";
                            Samples.file "file_1" "cover.jpg";
                            Samples.file "file_2" "001.jpg"])) as Hrun by reflexivity.
  rewrite Hdrop in Hrun. injection Hrun as Hrun.
  destruct newFiles as [|a [|b [|c [|e newFiles]]]]; try discriminate Hrun.
  injection Hrun as -> -> ->. reflexivity.
Defined.
End PreviewGrid.

Section PreviewLists.
Import OrderDetector.

Lemma insertSorted_ascending {A} (key : A → Z) (x : A) (l : list A) :
  ascending (key <$> l) →
  ascending (key <$> insertSorted (fun a b => key a - key b) x l).
Proof.
  induction l as [|y l IH]; [done|]. intros [Hy Hl]. cbn [insertSorted].
  destruct (Z.leb_spec (key y - key x) 0) as [Hle|Hgt].
  - rewrite fmap_cons. split; [|by apply IH].
    rewrite (insertSorted_perm _ x l). rewrite fmap_cons.
    constructor; [lia|done].
  - rewrite !fmap_cons. split; [|done].
    constructor; [lia|]. eapply Forall_impl; [exact Hy|]. simpl. lia.
Qed.

Lemma sortWith_ascending {A} (key : A → Z) (l : list A) :
  ascending (key <$> sortWith (fun a b => key a - key b) l).
Proof.
  unfold sortWith.
  assert (∀ acc, ascending (key <$> acc) →
            ascending (key <$> foldl (fun acc x =>
                         insertSorted (fun a b => key a - key b) x acc) acc l)) as H.
  { induction l as [|x l IH]; intros acc Hacc; [done|].
    cbn [foldl]. apply IH. by apply insertSorted_ascending. }
  by apply H.
Qed.

Lemma filter_sublist {A} (p : A → bool) (l : list A) : List.filter p l `sublist_of` l.
Proof.
  induction l as [|x l IH]; [done|]. simpl.
  destruct (p x); [by apply sublist_skip|by apply sublist_cons].
Qed.

(** X23.  The buttons of the preview grid rearrange or thin out the
    list and do nothing else to it.  Sorting by name or by date and
    reversing return a rearrangement of the same files; after sorting
    by date the modification times are in non-decreasing order;
    reversing twice gives the list back.  Removing a file by its id
    keeps exactly the files with another id, in their order; when the
    ids are all different and the id is present that is one file
    fewer. *)
Theorem grid_operations_keep_the_files (files : list File.t) :
  (∀ localeCompare, ImageProcessor.sortByName localeCompare files ≡ₚ files)
  ∧ ImageProcessor.sortByDate files ≡ₚ files
  ∧ ascending (File.lastModified <$> ImageProcessor.sortByDate files)
  ∧ ImageProcessor.reverseOrder files ≡ₚ files
  ∧ ImageProcessor.reverseOrder (ImageProcessor.reverseOrder files) = files
  ∧ (∀ fileId,
       ImageProcessor.removeFile files fileId `sublist_of` files
       ∧ (∀ f, f ∈ ImageProcessor.removeFile files fileId
               ↔ f ∈ files ∧ File.id f ≠ fileId)
       ∧ (NoDup (File.id <$> files) → fileId ∈ File.id <$> files →
          S (length (ImageProcessor.removeFile files fileId)) = length files)).
Proof.
  split; [intros; apply sortWith_perm|]. split; [apply sortWith_perm|].
  split; [apply (sortWith_ascending File.lastModified)|].
  split; [apply reverse_Permutation|]. split; [apply reverse_involutive|].
  intros fileId. split; [apply filter_sublist|]. split.
  - intros f. unfold ImageProcessor.removeFile. rewrite elem_of_filter_list.
    rewrite negb_true_iff. by destruct (String.eqb_spec (File.id f) fileId); split;
      intros [? ?].
  - unfold ImageProcessor.removeFile.
    induction files as [|f files IH]; intros Hnd Hin.
    + by apply elem_of_nil in Hin.
    + rewrite fmap_cons in Hnd, Hin. apply NoDup_cons in Hnd as [Hf Hnd].
      cbn [List.filter length].
      destruct (String.eqb_spec (File.id f) fileId) as [<-|Hne]; simpl.
      * f_equal. rewrite (filter_ext_in _ (fun _ => true)).
        -- clear. induction files as [|g gs IH]; [done|]. simpl. by rewrite IH.
        -- intros g Hg. apply negb_true_iff. apply String.eqb_neq. intros Heq.
           apply Hf. rewrite <- Heq. apply list_elem_of_fmap. by exists g.
      * f_equal. apply IH; [done|].
        apply elem_of_cons in Hin as [Heq|Hin]; [congruence|done].
Qed.
End PreviewLists.

Section PDFSettings.
Import PDFGenerator.
Local Open Scope Q_scope.

Lemma orQ_nonzero (v : JS.num) (d : Q) : ¬ d == 0 → ¬ JS.orQ v d == 0.
Proof.
  intros Hd. destruct v as [|q]; simpl; [done|].
  destruct (Qeq_bool q 0) eqn:Hq; [done|].
  intros Heq. apply Qeq_bool_iff in Heq. congruence.
Qed.

Lemma orZ_nonzero (v : option Z) (d : Z) : d ≠ 0%Z → JS.orZ v d ≠ 0%Z.
Proof.
  intros Hd. destruct v as [z|]; simpl; [|done].
  by destruct (Z.eqb_spec z 0).
Qed.

Lemma pageFormats_portrait (name : string) (width height : Q) :
  pageFormats !! name = Some (width, height) →
  148 <= width ∧ width < height ∧ height <= 420.
Proof.
  intros Hl. apply elem_of_list_to_map_2 in Hl.
  repeat (apply elem_of_cons in Hl as [Hl|Hl];
          [injection Hl as _ -> ->; repeat split; by vm_compute|]).
  by apply elem_of_nil in Hl.
Qed.

(** X25.  The settings read from the form never hold a zero: a margin,
    a quality or a sharpening level of 0, like an unreadable field,
    is replaced by 10, 0.8 and 1.  So the level that would skip the
    enhancement never reaches [applyImageEnhancement]: with the
    enhancer loaded it is always called.  The orientation goes through
    unchanged and does not swap the sides.  A page size that names one
    of the five formats gives its sides, the width below the height;
    custom sides are taken as typed once both are at least 50.  The
    guard on the page size refuses a name that is no property of the
    table at all; a name that every object inherits, such as
    "constructor", passes it, and the settings then hold dimensions
    that have no sides. *)
Theorem pdf_settings_never_zero (form : Form) :
  (∀ settings, getPDFSettings form = Returned settings →
     ¬ pageMargin settings == 0 ∧ ¬ imageQuality settings == 0
     ∧ imageSharpness settings ≠ 0%Z
     ∧ (formImageSharpness form = Some 0%Z → imageSharpness settings = 1%Z)
     ∧ (formPageMargin form = JS.Num 0 → pageMargin settings = 10)
     ∧ orientation settings = formOrientation form
     ∧ (∀ width height, dimensions settings = Sides width height →
          50 <= width ∧ 50 <= height
          ∧ (formPageSize form ≠ "custom"%string →
             pageFormats !! formPageSize form = Some (width, height) ∧ width < height)
          ∧ (formPageSize form = "custom"%string →
             formCustomWidth form = JS.Num width
             ∧ formCustomHeight form = JS.Num height))
     ∧ (dimensions settings = Inherited →
          formPageSize form ∈ objectPrototypeNames
          ∧ side (dimensions settings) 0 = JS.NaN
          ∧ side (dimensions settings) 1 = JS.NaN)
     ∧ ∀ enhanceImages files,
         applyImageEnhancement (Some enhanceImages) files settings
         = match enhanceImages files (imageSharpness settings) with
           | Returned enhancedFiles => enhancedFiles
           | Thrown _ => files
           end)
  ∧ (formPageSize form ≠ "custom"%string →
     pageFormats !! formPageSize form = None →
     formPageSize form ∉ objectPrototypeNames →
     getPDFSettings form = Thrown "无效的页面尺寸")
  ∧ (formPageSize form ∈ objectPrototypeNames →
     ∃ settings, getPDFSettings form = Returned settings
                 ∧ dimensions settings = Inherited)
  ∧ (formPageSize form = "custom"%string →
     ∀ w h, formCustomWidth form = JS.Num w → formCustomHeight form = JS.Num h →
            (w < 50 ∨ h < 50) →
            getPDFSettings form = Thrown "请输入有效的自定义尺寸（最小50mm）").
Proof.
  assert (∀ pageSize dims,
            let settings :=
              mkSettings pageSize dims (JS.orQ (formPageMargin form) 10)
                (JS.orQ (formImageQuality form) (8 # 10)) (formOrientation form)
                (JS.orZ (formImageSharpness form) 1) in
            ¬ pageMargin settings == 0 ∧ ¬ imageQuality settings == 0
            ∧ imageSharpness settings ≠ 0%Z
            ∧ (formImageSharpness form = Some 0%Z → imageSharpness settings = 1%Z)
            ∧ (formPageMargin form = JS.Num 0 → pageMargin settings = 10)
            ∧ orientation settings = formOrientation form) as Hcommon.
  { intros pageSize dims. cbn.
    split; [by apply orQ_nonzero|]. split; [by apply orQ_nonzero|].
    split; [by apply orZ_nonzero|]. split; [by intros ->|]. split; [by intros ->|].
    done. }
  assert (∀ settings enhanceImages files,
            imageSharpness settings ≠ 0%Z →
            applyImageEnhancement (Some enhanceImages) files settings
            = match enhanceImages files (imageSharpness settings) with
              | Returned enhancedFiles => enhancedFiles
              | Thrown _ => files
              end) as Hcall.
  { intros settings enhanceImages files Hl. unfold applyImageEnhancement.
    by destruct (Z.eqb_spec (imageSharpness settings) 0). }
  split; [|split; [|split]].
  - intros settings. unfold getPDFSettings. cbv zeta.
    destruct (String.eqb_spec (formPageSize form) "custom") as [Hc|Hc].
    + destruct (formCustomWidth form) as [|w]; [done|].
      destruct (formCustomHeight form) as [|h]; [done|].
      destruct (Qeq_bool w 0); [done|]. destruct (Qeq_bool h 0); [done|]. simpl.
      destruct (JS.Qlt_bool w 50) eqn:Hw; [done|].
      destruct (JS.Qlt_bool h 50) eqn:Hh; [done|]. simpl. q_bools.
      intros [= <-].
      destruct (Hcommon (formPageSize form) (Sides w h)) as (? & ? & Hs & ? & ? & ?).
      do 6 (split; [done|]). split; [|split; [done|]].
      * intros width height [= <- <-]. done.
      * intros. by apply Hcall.
    + destruct (pageFormats !! formPageSize form) as [[pw ph]|] eqn:Hdims.
      * intros [= <-].
        destruct (pageFormats_portrait _ _ _ Hdims) as (Hlo & Hlt & Hhi).
        destruct (Hcommon (formPageSize form) (Sides pw ph)) as (? & ? & Hs & ? & ? & ?).
        do 6 (split; [done|]). split; [|split; [done|]].
        -- intros width height [= <- <-]. repeat split; (done || lra).
        -- intros. by apply Hcall.
      * case_bool_decide as Hin; [|done]. intros [= <-].
        destruct (Hcommon (formPageSize form) Inherited) as (? & ? & Hs & ? & ? & ?).
        do 6 (split; [done|]). split; [done|]. split; [done|].
        intros. by apply Hcall.
  - intros Hc Hnone Hnot. unfold getPDFSettings. cbv zeta.
    destruct (String.eqb_spec (formPageSize form) "custom"); [done|]. rewrite Hnone.
    by case_bool_decide.
  - intros Hin. unfold getPDFSettings. cbv zeta.
    assert (String.eqb (formPageSize form) "custom" = false) as ->.
    { apply String.eqb_neq. intros Hc. rewrite Hc in Hin. revert Hin.
      apply (bool_decide_unpack (_ ∉ _)). by vm_compute. }
    assert (pageFormats !! formPageSize form = None) as ->.
    { unfold objectPrototypeNames in Hin.
      repeat (apply elem_of_cons in Hin as [->|Hin]); try reflexivity.
      by apply elem_of_nil in Hin. }
    rewrite bool_decide_eq_true_2 by done. by eexists.
  - intros Hc w h Hw Hh Hsmall. unfold getPDFSettings. cbv zeta.
    rewrite Hc, Hw, Hh. cbn [String.eqb Ascii.eqb Bool.eqb].
    destruct (Qeq_bool w 0); [done|]. destruct (Qeq_bool h 0); [done|]. simpl.
    destruct (JS.Qlt_bool w 50) eqn:Hw'; [done|].
    destruct (JS.Qlt_bool h 50) eqn:Hh'; [done|]. q_bools.
    destruct Hsmall; lra.
Qed.
End PDFSettings.

Section EnhancementStep.
Import PDFGenerator.

Lemma first_true (p : Z → bool) (l : list Z) :
  (∀ i, i ∈ l → p i = false)
  ∨ ∃ i, i ∈ l ∧ p i = true ∧ ∀ j, j ∈ l → j < i → p j = false.
Proof.
  induction l as [|x l IH]; [left; intros i Hi; by apply elem_of_nil in Hi|].
  destruct (p x) eqn:Hx.
  - right. destruct IH as [Hall|(i & Hi & Hpi & Hmin)].
    + exists x. split; [apply list_elem_of_here|]. split; [done|].
      intros j Hj Hlt. apply elem_of_cons in Hj as [->|Hj]; [lia|by apply Hall].
    + destruct (Z.lt_ge_cases i x) as [Hlt|Hge].
      * exists i. split; [by apply list_elem_of_further|]. split; [done|].
        intros j Hj Hji. apply elem_of_cons in Hj as [->|Hj]; [lia|by apply Hmin].
      * exists x. split; [apply list_elem_of_here|]. split; [done|].
        intros j Hj Hlt. apply elem_of_cons in Hj as [->|Hj]; [lia|].
        apply Hmin; [done|lia].
  - destruct IH as [Hall|(i & Hi & Hpi & Hmin)].
    + left. intros j Hj. apply elem_of_cons in Hj as [->|Hj]; [done|by apply Hall].
    + right. exists i. split; [by apply list_elem_of_further|]. split; [done|].
      intros j Hj Hlt. apply elem_of_cons in Hj as [->|Hj]; [done|by apply Hmin].
Qed.

(** A batch that returns at all returns every item, in place. *)
Lemma enhanceImagesBatch_returned pf mm tl memoryInfo files level cb results :
  level ≠ 0 →
  enhanceImagesBatch pf mm tl memoryInfo files level cb = Returned results →
  results = imap (fun k file =>
                    absorbed level
                      (coreAttempt pf mm tl (Z.of_nat (length files)) level cb k file)
                      file)
                 files.
Proof.
  intros Hl Hret.
  destruct (first_true (fun i => PerformanceMonitor.should (pauseAfter tl i))
              (stepsZ 0 (Z.of_nat (length files)) (chunkSize memoryInfo)))
    as [Hcalm|(i & Hi & Hp & Hmin)].
  - rewrite enhanceImagesBatch_calm in Hret by done. by injection Hret as <-.
  - rewrite (enhanceImagesBatch_abort _ _ _ _ _ _ _ i) in Hret by done. discriminate.
Qed.

Lemma absorbed_id level attempt file : File.id (absorbed level attempt file) = File.id file.
Proof. by destruct attempt. Qed.

Lemma imap_absorbed_lookup level (attempt : nat → File.t → option string)
    (files : list File.t) (k : nat) (file : File.t) :
  files !! k = Some file →
  ∃ r, imap (fun k file => absorbed level (attempt k file) file) files !! k = Some r
       ∧ (r = file ∨ ∃ payload, r = File.withEnhancement file payload level).
Proof.
  intros Hk. rewrite list_lookup_imap, Hk. simpl. eexists. split; [reflexivity|].
  unfold absorbed. case_match; [right; by eexists|by left].
Qed.

Variables (pf : Platform) (canUseWebGL : bool) (mm : MemoryManager.t).
Variables (isMobile : bool) (capability : ImageEnhancerMobile.Capability).
Variables (nav : Navigator) (monitor : PerformanceMonitor.t).
Variable memoryInfo : option MemoryInfo.
Variables (tl : Timeline) (settingsAt : Z → ImageEnhancerMobile.Settings).

Local Abbreviation enhancer :=
  (ImageEnhancer.enhanceImages pf canUseWebGL mm isMobile capability nav monitor
     memoryInfo tl settingsAt).

(** X26.  The enhancement step of the PDF run never loses, adds or
    reorders a page, whatever the enhancer does: its result has the
    length of the file list and holds at each position the file that
    was there, as it was or with an enhanced payload.  When the
    enhancer refuses the batch, or a pause stops it half way, the
    results already computed are not used: the step hands back the
    file list itself. *)
Theorem enhancement_step_keeps_every_page (files : list File.t) (settings : Settings) :
  let level := imageSharpness settings in
  let out := applyImageEnhancement (Some enhancer) files settings in
  length out = length files
  ∧ (∀ k file, files !! k = Some file →
       ∃ r, out !! k = Some r
            ∧ (r = file ∨ ∃ payload, r = File.withEnhancement file payload level))
  ∧ (ImageEnhancer.allowed
       (ImageEnhancer.validateProcessingCapability mm isMobile capability nav monitor
          memoryInfo files level) = false → out = files)
  ∧ (isMobile = false →
     ∀ i, i ∈ stepsZ 0 (Z.of_nat (length files)) (chunkSize memoryInfo) →
          PerformanceMonitor.should (pauseAfter tl i) = true → out = files).
Proof.
  intros level out.
  assert (out = files
          ∨ ∃ attempt, out = imap (fun k file => absorbed level (attempt k file) file) files)
    as Hout.
  { unfold out, applyImageEnhancement. fold level.
    destruct (Z.eqb_spec level 0) as [|Hl]; [by left|].
    destruct (enhancer files level) as [results|message] eqn:Hrun; [|by left].
    unfold ImageEnhancer.enhanceImages in Hrun.
    destruct (Z.eqb_spec level 0) as [|_]; [done|].
    destruct (negb _); [done|]. destruct isMobile.
    - injection Hrun as <-. rewrite processBatchMobile_imap. right. by eexists.
    - apply enhanceImagesBatch_returned in Hrun; [|done]. right. by eexists. }
  split; [|split; [|split]].
  - destruct Hout as [->|[attempt ->]]; [done|apply length_imap].
  - intros k file Hk. destruct Hout as [->|[attempt ->]].
    + exists file. split; [done|by left].
    + by apply imap_absorbed_lookup.
  - intros Hrefused. unfold out, applyImageEnhancement. fold level.
    destruct (Z.eqb_spec level 0) as [|Hl]; [done|].
    unfold ImageEnhancer.enhanceImages.
    destruct (Z.eqb_spec level 0) as [|_]; [done|]. by rewrite Hrefused.
  - intros Hdesktop i Hi Hpause. unfold out, applyImageEnhancement. fold level.
    destruct (Z.eqb_spec level 0) as [|Hl]; [done|].
    unfold ImageEnhancer.enhanceImages.
    destruct (Z.eqb_spec level 0) as [|_]; [done|].
    destruct (negb _); [done|]. rewrite Hdesktop.
    destruct (first_true (fun i => PerformanceMonitor.should (pauseAfter tl i))
                (stepsZ 0 (Z.of_nat (length files)) (chunkSize memoryInfo)))
      as [Hcalm|(j & Hj & Hp & Hmin)].
    + rewrite Hcalm in Hpause by done. discriminate.
    + by rewrite (enhanceImagesBatch_abort _ _ _ _ _ _ _ j).
Qed.
End EnhancementStep.

Section Pages.
Import PDFGenerator.
Variable pf : Platform.

Lemma addImagesToPDF_snoc (files : list File.t) (file : File.t) (settings : Settings) :
  addImagesToPDF pf newPdf (files ++ [file]) settings
  = let pdf := addImagesToPDF pf newPdf files settings in
    let pdf := if (0 <? length files)%nat then addPage pdf else pdf in
    match pageOf pf settings file with
    | [] => pdf
    | image :: _ => addImage pdf image
    end.
Proof.
  unfold addImagesToPDF. cbv zeta. rewrite imap_app, foldl_app. cbn [imap foldl].
  rewrite Nat.add_0_r. unfold pageOf. cbv zeta.
  by destruct (processImageForPDF pf file settings).
Qed.

Lemma addImagesToPDF_pages (files : list File.t) (settings : Settings) :
  files ≠ [] →
  addImagesToPDF pf newPdf files settings = pageOf pf settings <$> files.
Proof.
  induction files as [|file files IH] using rev_ind; [done|]. intros _.
  rewrite addImagesToPDF_snoc, fmap_app. cbv zeta.
  assert (∀ l, length (pageOf pf settings l) ≤ 1)%nat as Hone.
  { intros l. unfold pageOf. cbv zeta. destruct (processImageForPDF _ _ _); simpl; lia. }
  destruct files as [|first files].
  - change (addImagesToPDF pf newPdf [] settings) with newPdf.
    change (0 <? length (@nil File.t))%nat with false. cbv iota.
    rewrite fmap_nil, app_nil_l, list_fmap_singleton. specialize (Hone file).
    destruct (pageOf pf settings file) as [|image [|? ?]];
      [done|done|simpl in Hone; lia].
  - rewrite IH by done. rewrite list_fmap_singleton.
    assert ((0 <? length (first :: files))%nat = true) as -> by done.
    set (pdf := pageOf pf settings <$> first :: files).
    specialize (Hone file). unfold addPage, addImage.
    destruct (pageOf pf settings file) as [|image [|? ?]]; [done| |simpl in Hone; lia].
    rewrite reverse_app. simpl. by rewrite reverse_involutive.
Qed.

(** X27.  The document gets one page per file, in the order of the
    list, and a page holds the image of its own file and nothing
    else.  A file whose image does not load is not skipped: its page
    is added before the image is read and stays blank, so the later
    pages keep their numbers. *)
Theorem one_page_per_file (files : list File.t) (settings : Settings) :
  files ≠ [] →
  let pdf := addImagesToPDF pf newPdf files settings in
  length pdf = length files
  ∧ ∀ k file, files !! k = Some file →
      pdf !! k = Some (pageOf pf settings file)
      ∧ (processImageForPDF pf file settings = None → pdf !! k = Some [])
      ∧ (∀ imageData, processImageForPDF pf file settings = Some imageData →
           ∃ image, pdf !! k = Some [image]
                    ∧ placedData image = imageData
                    ∧ placedFormat image = getImageFormat (File.type file)).
Proof.
  intros Hfiles pdf. subst pdf. rewrite addImagesToPDF_pages by done.
  split; [apply length_fmap|]. intros k file Hk.
  assert ((pageOf pf settings <$> files) !! k = Some (pageOf pf settings file)) as Hpage
    by (by rewrite list_lookup_fmap, Hk).
  split; [exact Hpage|].
  assert (∀ page, pageOf pf settings file = page →
            (pageOf pf settings <$> files) !! k = Some page) as Hlook
    by (by intros page <-).
  split.
  - intros Hnone. apply Hlook. unfold pageOf. cbv zeta. by rewrite Hnone.
  - intros imageData Hsome. eexists. split.
    + apply Hlook. unfold pageOf. cbv zeta. rewrite Hsome. reflexivity.
    + done.
Qed.

End Pages.

Lemma one_page_per_file_witness :
  let settings := PDFGenerator.mkSettings "a4" (PDFGenerator.Sides 210 297)%Q 10 (8 # 10) "auto" 1 in
  let pdf :=
    PDFGenerator.addImagesToPDF Samples.brokenPlatform PDFGenerator.newPdf
      Samples.coverFirst settings in
  length pdf = 3%nat ∧ pdf !! 1%nat = Some [].
Proof.
  intros settings pdf.
  destruct (one_page_per_file Samples.brokenPlatform Samples.coverFirst settings)
    as [Hlen Hpages]; [done|].
  split; [exact Hlen|].
  destruct (Hpages 1%nat _ eq_refl) as (_ & Hblank & _). by apply Hblank.
Defined.

Section OutputNames.
Import FilenameManager.

Lemma dropWhile_suffix (p : Z → bool) (s : list Z) : dropWhile p s `suffix_of` s.
Proof.
  induction s as [|c s IH]; [done|]. simpl. destruct (p c); [|done].
  by apply suffix_cons_r.
Qed.

Lemma dropWhileEnd_prefix (p : Z → bool) (s : list Z) : dropWhileEnd p s `prefix_of` s.
Proof.
  unfold dropWhileEnd. destruct (dropWhile_suffix p (reverse s)) as [k Hk].
  exists (reverse k). apply (inj reverse). by rewrite reverse_app, !reverse_involutive.
Qed.

Lemma dropWhile_head (p : Z → bool) (s : list Z) (c : Z) :
  head (dropWhile p s) = Some c → p c = false.
Proof.
  induction s as [|d s IH]; [done|]. simpl. destruct (p d) eqn:Hd; [done|].
  simpl. by intros [= <-].
Qed.

Lemma prefix_head (s t : list Z) (c : Z) :
  s `prefix_of` t → head s = Some c → head t = Some c.
Proof. intros [k ->]. by destruct s. Qed.

Lemma singleSpaced_app_l (s t : list Z) : singleSpaced (s ++ t) → singleSpaced s.
Proof.
  induction s as [|c s IH]; [done|]. simpl. intros [Hc Hs]. split; [|by apply IH].
  by destruct s.
Qed.

Lemma singleSpaced_app_r (s t : list Z) : singleSpaced (s ++ t) → singleSpaced t.
Proof. induction s as [|c s IH]; [done|]. simpl. intros [_ Hs]. by apply IH. Qed.

Lemma singleSpaced_prefix (s t : list Z) : s `prefix_of` t → singleSpaced t → singleSpaced s.
Proof. intros [k ->]. apply singleSpaced_app_l. Qed.

Lemma singleSpaced_suffix (s t : list Z) : s `suffix_of` t → singleSpaced t → singleSpaced s.
Proof. intros [k ->]. apply singleSpaced_app_r. Qed.

Lemma Forall_prefix (P : Z → Prop) (s t : list Z) : s `prefix_of` t → Forall P t → Forall P s.
Proof. intros [k ->] H. by apply Forall_app in H as [? _]. Qed.

Lemma Forall_suffix (P : Z → Prop) (s t : list Z) : s `suffix_of` t → Forall P t → Forall P s.
Proof. intros [k ->] H. by apply Forall_app in H as [_ ?]. Qed.

Lemma collapseFrom_head (inRun : bool) (s : list Z) (c : Z) :
  head (collapseFrom inRun s) = Some c → isWhiteSpace c = true → inRun = false.
Proof.
  revert inRun. induction s as [|d s IH]; intros inRun; [done|]. simpl.
  destruct (isWhiteSpace d) eqn:Hd.
  - destruct inRun; [|done]. intros Hh Hc. by apply (IH true).
  - simpl. intros [= <-] Hc. congruence.
Qed.

Lemma collapseFrom_singleSpaced (inRun : bool) (s : list Z) :
  singleSpaced (collapseFrom inRun s).
Proof.
  revert inRun. induction s as [|c s IH]; intros inRun; [done|]. simpl.
  destruct (isWhiteSpace c) eqn:Hc.
  - destruct inRun; [apply IH|]. simpl. split; [|apply IH].
    destruct (collapseFrom true s) as [|d rest] eqn:Hrest; [done|].
    intros [_ Hd]. by pose proof (collapseFrom_head true s d ltac:(by rewrite Hrest) Hd).
  - simpl. split; [|apply IH].
    destruct (collapseFrom false s); [done|]. intros [? _]. congruence.
Qed.

Lemma collapseFrom_Forall (P : Z → Prop) (inRun : bool) (s : list Z) :
  P 32 → Forall P s → Forall P (collapseFrom inRun s).
Proof.
  intros H32. revert inRun. induction s as [|c s IH]; intros inRun Hs; [done|].
  apply Forall_cons in Hs as [Hc Hs]. simpl.
  destruct (isWhiteSpace c); [destruct inRun|]; try constructor; by try apply IH.
Qed.

Lemma collapseFrom_plain (inRun : bool) (s : list Z) :
  Forall (fun c => isWhiteSpace c = true → c = 32) (collapseFrom inRun s).
Proof.
  revert inRun. induction s as [|c s IH]; intros inRun; [done|]. simpl.
  destruct (isWhiteSpace c) eqn:Hc; [destruct inRun|]; try constructor;
    try apply IH; [done|congruence].
Qed.

Lemma filter_valid (s : list Z) :
  Forall (fun c => isInvalidChar c = false)
    (List.filter (fun c => negb (isInvalidChar c)) s).
Proof.
  induction s as [|c s IH]; [done|]. simpl.
  destruct (isInvalidChar c) eqn:Hc; simpl; [done|by constructor].
Qed.

Lemma cleanFilename_chain (filename : list Z) :
  ∃ collapsed,
    collapsed = collapseSpaces (List.filter (fun c => negb (isInvalidChar c)) filename)
    ∧ cleanFilename filename
      `prefix_of` dropWhileEnd isWhiteSpace
                    (dropWhile isWhiteSpace (stripDots collapsed))
    ∧ (cleanFilename filename = []
       ∨ cleanFilename filename
         = take 100 (trim (stripDots collapsed))).
Proof.
  eexists. split; [reflexivity|]. unfold cleanFilename.
  destruct filename as [|c r]; [split; [apply prefix_nil|by left]|].
  split; [apply prefix_take|by right].
Qed.

Lemma cleanFilename_tidy (filename : list Z) : tidy (cleanFilename filename).
Proof.
  destruct (cleanFilename_chain filename) as (collapsed & Hcol & Hpre & _).
  set (dotless := stripDots collapsed) in *.
  set (front := dropWhile isWhiteSpace dotless) in *.
  assert (dotless `prefix_of` dropWhile isDot collapsed) as H1
    by apply dropWhileEnd_prefix.
  assert (dropWhile isDot collapsed `suffix_of` collapsed) as H2
    by apply dropWhile_suffix.
  assert (front `suffix_of` dotless) as H3 by apply dropWhile_suffix.
  assert (dropWhileEnd isWhiteSpace front `prefix_of` front) as H4
    by apply dropWhileEnd_prefix.
  assert (∀ P : Z → Prop, Forall P collapsed → Forall P (cleanFilename filename)) as Hall.
  { intros P HP. eapply Forall_prefix; [exact Hpre|].
    eapply Forall_prefix; [exact H4|]. eapply Forall_suffix; [exact H3|].
    eapply Forall_prefix; [exact H1|]. eapply Forall_suffix; [exact H2|]. done. }
  split; [|split; [|split]].
  - apply Hall. rewrite Hcol. apply collapseFrom_Forall; [done|apply filter_valid].
  - apply Hall. rewrite Hcol. apply collapseFrom_plain.
  - eapply singleSpaced_prefix; [exact Hpre|].
    eapply singleSpaced_prefix; [exact H4|]. eapply singleSpaced_suffix; [exact H3|].
    eapply singleSpaced_prefix; [exact H1|]. eapply singleSpaced_suffix; [exact H2|].
    rewrite Hcol. apply collapseFrom_singleSpaced.
  - intros c Hc. apply (dropWhile_head isWhiteSpace dotless).
    eapply prefix_head; [exact H4|]. eapply prefix_head; [exact Hpre|]. done.
Qed.

Lemma length_cleanFilename (filename : list Z) : (length (cleanFilename filename) ≤ 100)%nat.
Proof.
  unfold cleanFilename. destruct filename; [simpl; lia|]. rewrite length_take. lia.
Qed.

(** X28.  Whatever is typed, the cleaned name has none of the
    characters that file systems refuse, at most 100 code units, no
    white space in front, and white space only as single plain
    spaces.  It is not always clean in the sense of the cleaning
    itself: dots are stripped before the spaces around the name, so a
    dot that follows a leading space survives, and a second cleaning
    removes it. *)
Theorem cleaned_name_is_tidy (filename : list Z) :
  tidy (cleanFilename filename)
  ∧ (length (cleanFilename filename) ≤ 100)%nat
  ∧ cleanFilename (units " .a") = units ".a"
  ∧ cleanFilename (cleanFilename (units " .a")) = units "a".
Proof.
  split; [apply cleanFilename_tidy|]. split; [apply length_cleanFilename|].
  split; reflexivity.
Qed.
End OutputNames.

Section FinalName.
Import FilenameManager.

Lemma validateFilename_rejects (name : list Z) :
  existsb isInvalidChar name = true ∨ (length name < 2)%nat ∨ (100 < length name)%nat
  ∨ toUpperCase name ∈ reservedNames →
  isValid (validateFilename name) = false.
Proof.
  intros Hbad. unfold validateFilename.
  destruct name as [|c r]; [done|]. destruct (trim (c :: r)); [done|].
  cbv zeta. cbn [isValid].
  destruct (bool_decide_reflect (toUpperCase (c :: r) ∈ reservedNames)) as [|Hres];
    [done|].
  destruct (existsb isInvalidChar (c :: r)) eqn:Hinv; [done|].
  destruct (Nat.ltb_spec (length (c :: r)) 2) as [|Hshort]; [done|].
  destruct (Nat.ltb_spec 100 (length (c :: r))) as [|Hlong]; [done|].
  destruct Hbad as [|[|[|]]]; [done|lia|lia|done].
Qed.

Lemma cleaned_or_prefix (filename : list Z) :
  ∃ base,
    match cleanFilename filename with [] => defaultPrefix | _ => cleanFilename filename end
    = base
    ∧ base ≠ [] ∧ tidy base ∧ (length base ≤ 100)%nat.
Proof.
  destruct (cleanFilename filename) as [|c r] eqn:Hclean.
  - exists defaultPrefix. split; [done|]. split; [done|].
    replace defaultPrefix with (cleanFilename defaultPrefix) by (by vm_compute).
    split; [apply cleanFilename_tidy|apply length_cleanFilename].
  - exists (c :: r). split; [done|]. split; [done|]. rewrite <- Hclean.
    split; [apply cleanFilename_tidy|apply length_cleanFilename].
Qed.

(** X29.  The name the PDF is saved under is always a non-empty tidy
    base of at most 100 code units followed by ".pdf".  A typed name
    that fails validation (a refused character, fewer than 2 or more
    than 100 code units, a reserved device name) is not repaired by
    the cleaning: it is dropped and the generated default is used, as
    if nothing had been typed.  A valid name is saved in its cleaned
    form; a valid name that cleans to nothing, such as two dots,
    gives the fixed prefix and not the generated default. *)
Theorem final_name_is_usable (defaultFilename : list Z) :
  (∀ customName inputValue,
     ∃ base,
       getFinalFilename defaultFilename customName inputValue = base ++ units ".pdf"
       ∧ base ≠ [] ∧ tidy base ∧ (length base ≤ 100)%nat)
  ∧ (∀ name,
       existsb isInvalidChar name = true ∨ (length name < 2)%nat
       ∨ (100 < length name)%nat ∨ toUpperCase name ∈ reservedNames →
       getFinalFilename defaultFilename None name
       = getFinalFilename defaultFilename None [])
  ∧ (∀ name,
       isValid (validateFilename name) = true → cleanFilename name ≠ [] →
       getFinalFilename defaultFilename None name = cleanFilename name ++ units ".pdf")
  ∧ isValid (validateFilename (units "..")) = true
  ∧ getFinalFilename defaultFilename None (units "..") = defaultPrefix ++ units ".pdf".
Proof.
  split; [|split; [|split; [|split]]].
  - intros customName inputValue. unfold getFinalFilename. cbv zeta.
    match goal with
    | |- ∃ base, match cleanFilename ?f with _ => _ end ++ _ = _ ∧ _ =>
        destruct (cleaned_or_prefix f) as (base & Hbase & Hrest)
    end.
    exists base. split; [|done]. f_equal.
    rewrite <- Hbase. by destruct (cleanFilename _).
  - intros name Hbad. unfold getFinalFilename. cbv zeta.
    destruct name as [|c r]; [done|].
    by rewrite (validateFilename_rejects (c :: r) Hbad).
  - intros name Hvalid Hclean. unfold getFinalFilename. cbv zeta.
    destruct name as [|c r]; [done|]. rewrite Hvalid. cbn [negb].
    by destruct (cleanFilename (c :: r)).
  - by vm_compute.
  - by vm_compute.
Qed.
End FinalName.
